(** * The persistent-process relay: request correlation, supervision, framing

    A shallow embedding of the HTTP-to-subprocess relay
    ([startMCPProcess] and [sendToMCP]) and the proofs of its
    specification.  The relay keeps one child process alive, writes
    newline-delimited JSON requests to its standard input, reassembles its
    standard output into lines, and settles the promise of the pending
    request whose [id] is strictly equal to the [id] of a parsed line.

    The module-level variables of the source ([mcpProcess], [requestQueue],
    [isReady]), the closure variable [buffer] and the pending [setTimeout]
    callbacks are the fields of one [State]; every handler is a function
    from a state (and the data of the event) to the next state and the list
    of effects it performed, in program order. *)

From Stdlib Require Import List String Ascii Bool Arith NArith ZArith Lia.
Import ListNotations.
Local Open Scope string_scope.
Local Open Scope nat_scope.
Local Open Scope list_scope.

(** ** Strings of the host language *)

Module JS.

(** [array.pop()]: the last element ([None] for [undefined] on an empty
    array) and the array that remains. *)
Fixpoint pop {A : Type} (l : list A) : option A * list A :=
  match l with
  | [] => (None, [])
  | x :: l' =>
      match l' with
      | [] => (Some x, [])
      | _ :: _ => let (last, rest) := pop l' in (last, x :: rest)
      end
  end.

(** [array.findIndex(p)]: the index of the first element satisfying [p],
    or [-1]. *)
Fixpoint findIndex {A : Type} (p : A -> bool) (l : list A) : Z :=
  match l with
  | [] => (-1)%Z
  | x :: l' =>
      if p x then 0%Z
      else let i := findIndex p l' in
           if (i =? -1)%Z then (-1)%Z else (i + 1)%Z
  end.

(** [array.splice(index, 1)] for [index >= 0]: the removed elements and
    the array that remains. *)
Definition splice1 {A : Type} (l : list A) (index : Z) : list A * list A :=
  let i := Z.to_nat index in
  (firstn 1 (skipn i l), firstn i l ++ skipn (S i) l).

(** [s.split(sep)] for a one-character separator: always at least one
    segment. *)
Fixpoint split (s : string) (sep : ascii) : list string :=
  match s with
  | EmptyString => [EmptyString]
  | String c s' =>
      if Ascii.eqb c sep then EmptyString :: split s' sep
      else match split s' sep with
           | seg :: segs => String c seg :: segs
           | [] => [String c EmptyString]
           end
  end.

(** White space and line terminators stripped by [trim], among the code
    units below 256: TAB, LF, VT, FF, CR, SP and NBSP. *)
Definition isWhite (c : ascii) : bool :=
  let n := nat_of_ascii c in
  ((9 <=? n) && (n <=? 13)) || (n =? 32) || (n =? 160).

Fixpoint trimStart (s : string) : string :=
  match s with
  | EmptyString => EmptyString
  | String c s' => if isWhite c then trimStart s' else s
  end.

Fixpoint trimEnd (s : string) : string :=
  match s with
  | EmptyString => EmptyString
  | String c s' =>
      match trimEnd s' with
      | EmptyString => if isWhite c then EmptyString else String c EmptyString
      | t => String c t
      end
  end.

Definition trim (s : string) : string := trimEnd (trimStart s).

(** [s.includes(m)]: [m] occurs in [s] as a substring. *)
Fixpoint includes (s m : string) : bool :=
  String.prefix m s ||
  match s with
  | EmptyString => false
  | String _ s' => includes s' m
  end.

(** A string is falsy exactly when it is empty. *)
Definition truthy (s : string) : bool :=
  match s with EmptyString => false | String _ _ => true end.

(** [o || ''] for a string-or-undefined [o]. *)
Definition orEmpty (o : option string) : string :=
  match o with
  | Some s => if truthy s then s else EmptyString
  | None => EmptyString
  end.

End JS.

Definition LF : ascii := "010"%char.
Definition dq : string := String "034"%char EmptyString.

(** ** JSON values

    A number is the integer it denotes: the identifiers compared below are
    integral, and [===] on them is equality of integers. *)

Local Set Warnings "-register-all".

Inductive json : Type :=
| JNull
| JBool (b : bool)
| JNumber (n : Z)
| JString (s : string)
| JArray (items : list json)
| JObject (fields : list (string * json)).

(** Own property [key] of a parsed object ([None] is [undefined]). *)
Fixpoint getField (key : string) (fields : list (string * json)) : option json :=
  match fields with
  | [] => None
  | (k, v) :: fields' => if String.eqb k key then Some v else getField key fields'
  end.

(** [obj[key] = v] on the property list of an object under construction: a
    repeated key keeps its place and takes the later value. *)
Fixpoint setField (key : string) (v : json) (fields : list (string * json))
  : list (string * json) :=
  match fields with
  | [] => [(key, v)]
  | (k, w) :: fields' =>
      if String.eqb k key then (k, v) :: fields'
      else (k, w) :: setField key v fields'
  end.

(** The expression [response.id] on a parsed value: reading a property of
    [null] throws a [TypeError] (outer [None]); a boolean, number, string or
    array has no [id] property and an object may lack it (inner [None],
    [undefined]). *)
Definition propId (response : json) : option (option json) :=
  match response with
  | JNull => None
  | JObject fields => Some (getField "id" fields)
  | _ => Some None
  end.

(** The identifier of a pending request, [id: string | number]. *)
Inductive Id : Type :=
| IdNumber (n : Z)
| IdString (s : string).

(** [req.id === v] for a pending identifier and the value of [response.id]:
    strict equality compares the types first and never converts. *)
Definition strictEq (i : Id) (v : option json) : bool :=
  match i, v with
  | IdNumber n, Some (JNumber m) => Z.eqb n m
  | IdString s, Some (JString t) => String.eqb s t
  | _, _ => false
  end.

(** [a.id === b.id] for two identifiers of requests. *)
Definition idEq (a b : Id) : bool :=
  match a, b with
  | IdNumber n, IdNumber m => Z.eqb n m
  | IdString s, IdString t => String.eqb s t
  | _, _ => false
  end.

(** ** A reader for a fragment of JSON

    The relay calls the host's [JSON.parse]; the development below is
    parametric in it.  [parseJSON] reads the fragment of the grammar that
    the worked scenarios use (objects, arrays, integer literals, strings
    without escapes, [true], [false], [null], insignificant white space)
    and instantiates the parameter there. *)

Module Reader.

Definition isWs (c : ascii) : bool :=
  let n := nat_of_ascii c in (n =? 32) || (n =? 9) || (n =? 10) || (n =? 13).

Fixpoint skipWs (s : string) : string :=
  match s with
  | String c s' => if isWs c then skipWs s' else s
  | EmptyString => s
  end.

Definition isDigit (c : ascii) : bool :=
  let n := nat_of_ascii c in (48 <=? n) && (n <=? 57).

Definition digitVal (c : ascii) : Z := Z.of_nat (nat_of_ascii c - 48).

(** The characters of a string literal up to its closing quote. *)
Fixpoint stringBody (s : string) : option (string * string) :=
  match s with
  | EmptyString => None
  | String c s' =>
      if Ascii.eqb c "034" then Some (EmptyString, s')
      else if Ascii.eqb c "\" then None
      else if nat_of_ascii c <? 32 then None
      else match stringBody s' with
           | Some (t, rest) => Some (String c t, rest)
           | None => None
           end
  end.

Fixpoint digits (acc : Z) (s : string) : Z * string :=
  match s with
  | String c s' => if isDigit c then digits (10 * acc + digitVal c) s' else (acc, s)
  | EmptyString => (acc, s)
  end.

(** An integer literal: no leading zero, no fraction, no exponent. *)
Definition natural (s : string) : option (Z * string) :=
  match s with
  | String c s' =>
      if Ascii.eqb c "0" then
        match s' with
        | String d _ => if isDigit d then None else Some (0%Z, s')
        | EmptyString => Some (0%Z, s')
        end
      else if isDigit c then Some (digits (digitVal c) s')
      else None
  | EmptyString => None
  end.

Definition integral (after : string) : bool :=
  match after with
  | String c _ => negb (Ascii.eqb c "." || Ascii.eqb c "e" || Ascii.eqb c "E")
  | EmptyString => true
  end.

Definition number (s : string) : option (json * string) :=
  let signed :=
    match s with
    | String "-" s' =>
        match natural s' with
        | Some (n, rest) => Some ((- n)%Z, rest)
        | None => None
        end
    | _ => natural s
    end in
  match signed with
  | Some (n, rest) => if integral rest then Some (JNumber n, rest) else None
  | None => None
  end.

Definition keyword (word : string) (v : json) (s : string) : option (json * string) :=
  if String.prefix word s
  then Some (v, String.substring (String.length word) (String.length s - String.length word) s)
  else None.

Fixpoint value (fuel : nat) (s : string) : option (json * string) :=
  match fuel with
  | O => None
  | S fuel' =>
      match skipWs s with
      | EmptyString => None
      | String c rest =>
          if Ascii.eqb c "034" then
            match stringBody rest with
            | Some (t, rest') => Some (JString t, rest')
            | None => None
            end
          else if Ascii.eqb c "[" then
            match skipWs rest with
            | String "]" rest' => Some (JArray [], rest')
            | _ => match elements fuel' rest with
                   | Some (items, rest') => Some (JArray items, rest')
                   | None => None
                   end
            end
          else if Ascii.eqb c "{" then
            match skipWs rest with
            | String "}" rest' => Some (JObject [], rest')
            | _ => match members fuel' [] rest with
                   | Some (fields, rest') => Some (JObject fields, rest')
                   | None => None
                   end
            end
          else if Ascii.eqb c "t" then keyword "true" (JBool true) (String c rest)
          else if Ascii.eqb c "f" then keyword "false" (JBool false) (String c rest)
          else if Ascii.eqb c "n" then keyword "null" JNull (String c rest)
          else number (String c rest)
      end
  end
with elements (fuel : nat) (s : string) : option (list json * string) :=
  match fuel with
  | O => None
  | S fuel' =>
      match value fuel' s with
      | Some (v, rest) =>
          match skipWs rest with
          | String "," rest' =>
              match elements fuel' rest' with
              | Some (vs, rest'') => Some (v :: vs, rest'')
              | None => None
              end
          | String "]" rest' => Some ([v], rest')
          | _ => None
          end
      | None => None
      end
  end
with members (fuel : nat) (acc : list (string * json)) (s : string)
  : option (list (string * json) * string) :=
  match fuel with
  | O => None
  | S fuel' =>
      match skipWs s with
      | String "034" rest =>
          match stringBody rest with
          | Some (key, rest1) =>
              match skipWs rest1 with
              | String ":" rest2 =>
                  match value fuel' rest2 with
                  | Some (v, rest3) =>
                      let acc' := setField key v acc in
                      match skipWs rest3 with
                      | String "," rest4 => members fuel' acc' rest4
                      | String "}" rest4 => Some (acc', rest4)
                      | _ => None
                      end
                  | None => None
                  end
              | _ => None
              end
          | None => None
          end
      | _ => None
      end
  end.

(** One JSON text and nothing after it but white space; [None] stands for
    the [SyntaxError]. *)
Definition parseJSON (text : string) : option json :=
  match value (S (String.length text)) text with
  | Some (v, rest) =>
      match skipWs rest with
      | EmptyString => Some v
      | String _ _ => None
      end
  | None => None
  end.

End Reader.

(** ** Data of the relay *)

(** One in-flight call.  [resolve] and [reject] are the two settling
    functions of the promise that [sendToMCP] returned; [promise] names that
    promise, and calling them is recorded as the effects [Resolve] and
    [Reject] on it. *)
Record PendingRequest : Type := { id : Id; promise : nat }.

(** [new Error(message)]. *)
Record Error : Type := { message : string }.

(** The argument of [sendToMCP]: its [id] and its other members. *)
Record Request : Type := { rid : Id; members : list (string * json) }.

(** What a [setTimeout] callback does when it runs: the closure of
    [sendToMCP] keeps the request's [id] and its [reject]; the one of the
    [close] handler is [startMCPProcess]. *)
Inductive Callback : Type :=
| Timeout (requestId : Id) (p : nat)
| Restart.

(** A pending timer: the time in milliseconds from which it may run. *)
Record Timer : Type := { due : N; callback : Callback }.

Record State : Type := {
  mcpProcess : option nat;
  requestQueue : list PendingRequest;
  isReady : bool;
  buffer : string;
  timers : list Timer;
  clock : N;
  promises : nat
}.

(** What the relay does to its environment.  Of the console output only
    the lines tagged [[MCP]] are kept. *)
Inductive Effect : Type :=
| Spawn (child : nat)
| Write (child : nat) (request : Request)
| Resolve (p : nat) (response : json)
| Reject (p : nat) (error : Error)
| ConsoleLog (text : string).

(** Whether [stdin.write] returned or threw. *)
Inductive WriteOutcome : Type :=
| WriteOk
| WriteThrows (error : Error).

(** What the event loop delivers.  The [data] of a chunk of the child's
    output is the text [data.toString()] of that chunk, which is all the
    handlers use of it. *)
Inductive Event : Type :=
| Listening
| StdoutData (data : string)
| StderrData (data : string)
| Close (code : option Z)
| ProcessError (error : Error)
| Submit (request : Request) (w : WriteOutcome)
| Elapse (ms : N)
| TimerFires (k : nat).

Definition initial : State :=
  {| mcpProcess := None; requestQueue := []; isReady := false;
     buffer := ""; timers := []; clock := 0%N; promises := 0 |}.

Definition withQueue (st : State) (q : list PendingRequest) : State :=
  {| mcpProcess := mcpProcess st; requestQueue := q; isReady := isReady st;
     buffer := buffer st; timers := timers st; clock := clock st;
     promises := promises st |}.

Definition withReady (st : State) (b : bool) : State :=
  {| mcpProcess := mcpProcess st; requestQueue := requestQueue st; isReady := b;
     buffer := buffer st; timers := timers st; clock := clock st;
     promises := promises st |}.

Definition withBuffer (st : State) (s : string) : State :=
  {| mcpProcess := mcpProcess st; requestQueue := requestQueue st;
     isReady := isReady st; buffer := s; timers := timers st;
     clock := clock st; promises := promises st |}.

Definition withTimers (st : State) (ts : list Timer) : State :=
  {| mcpProcess := mcpProcess st; requestQueue := requestQueue st;
     isReady := isReady st; buffer := buffer st; timers := ts;
     clock := clock st; promises := promises st |}.

Definition withClock (st : State) (t : N) : State :=
  {| mcpProcess := mcpProcess st; requestQueue := requestQueue st;
     isReady := isReady st; buffer := buffer st; timers := timers st;
     clock := t; promises := promises st |}.

Definition withPromises (st : State) (n : nat) : State :=
  {| mcpProcess := mcpProcess st; requestQueue := requestQueue st;
     isReady := isReady st; buffer := buffer st; timers := timers st;
     clock := clock st; promises := n |}.

(** [setTimeout(callback, delay)]. *)
Definition setTimeout (st : State) (cb : Callback) (delay : N) : State :=
  withTimers st (timers st ++ [{| due := (clock st + delay)%N; callback := cb |}]).

(** ** The Line Framer

    The first three statements of the [stdout] handler: the chunk is
    appended to [buffer], the text is split at line feeds, and the last
    segment is taken off as the new [buffer].  The result is the complete
    lines and the new buffer. *)
Definition frame (buf data : string) : list string * string :=
  let text := (buf ++ data)%string in
  let lines := JS.split text LF in
  let (last, lines') := JS.pop lines in
  (lines', JS.orEmpty last).

(** The framer along a sequence of chunks: all complete lines, in the order
    they are met, and the buffer left at the end. *)
Fixpoint frames (buf : string) (chunks : list string) : list string * string :=
  match chunks with
  | [] => ([], buf)
  | data :: chunks' =>
      let (lines, buf') := frame buf data in
      let (more, final) := frames buf' chunks' in
      (lines ++ more, final)
  end.

(** Every line followed by one line feed, then the residue. *)
Fixpoint unframe (lines : list string) (residue : string) : string :=
  match lines with
  | [] => residue
  | line :: lines' => (line ++ String LF (unframe lines' residue))%string
  end.

(** ** Supervisor and correlator *)

Definition processDied : Error := {| message := "MCP process died" |}.
Definition notReady : Error := {| message := "MCP not ready" |}.
Definition requestTimeout : Error := {| message := "Request timeout" |}.

(** [requestQueue.findIndex(req => req.id === request.id)] and, when an
    index is found, [requestQueue.splice(index, 1)]. *)
Definition removeById (q : list PendingRequest) (i : Id) : option (list PendingRequest) :=
  let index := JS.findIndex (fun req => idEq (id req) i) q in
  if (index =? -1)%Z then None else Some (snd (JS.splice1 q index)).

Definition startMCPProcess (st : State) : State * list Effect :=
  let child := match mcpProcess st with Some c => S c | None => 0 end in
  ({| mcpProcess := Some child; requestQueue := requestQueue st;
      isReady := isReady st; buffer := ""; timers := timers st;
      clock := clock st; promises := promises st |},
   [Spawn child]).

Definition onStderrData (st : State) (data : string) : State * list Effect :=
  let msg := JS.trim data in
  (if JS.includes msg "Server Running" || JS.includes msg "Connected"
   then withReady st true else st,
   [ConsoleLog msg]).

Definition onClose (st : State) (code : option Z) : State * list Effect :=
  let rejections := map (fun req => Reject (promise req) processDied) (requestQueue st) in
  (setTimeout (withQueue (withReady st false) []) Restart 1000, rejections).

Definition sendToMCP (st : State) (request : Request) (w : WriteOutcome)
  : State * list Effect :=
  let p := promises st in
  let st := withPromises st (S p) in
  match mcpProcess st with
  | None => (st, [Reject p notReady])
  | Some child =>
      if negb (isReady st) then (st, [Reject p notReady])
      else
        let st := withQueue st (requestQueue st ++ [{| id := rid request; promise := p |}]) in
        let (st, effects) :=
          match w with
          | WriteOk => (st, [Write child request])
          | WriteThrows error =>
              (match removeById (requestQueue st) (rid request) with
               | Some q => withQueue st q
               | None => st
               end,
               [Reject p error])
          end in
        (setTimeout st (Timeout (rid request) p) 30000, effects)
  end.

(** The callback armed by [sendToMCP]. *)
Definition onTimeout (st : State) (i : Id) (p : nat) : State * list Effect :=
  match removeById (requestQueue st) i with
  | Some q => (withQueue st q, [Reject p requestTimeout])
  | None => (st, [])
  end.

Definition runCallback (st : State) (cb : Callback) : State * list Effect :=
  match cb with
  | Timeout i p => onTimeout st i p
  | Restart => startMCPProcess st
  end.

(** The [k]-th pending timer runs, once its delay has passed, and is no
    longer pending. *)
Definition fireTimer (st : State) (k : nat) : State * list Effect :=
  match nth_error (timers st) k with
  | Some t =>
      if (due t <=? clock st)%N
      then runCallback (withTimers st (firstn k (timers st) ++ skipn (S k) (timers st)))
                       (callback t)
      else (st, [])
  | None => (st, [])
  end.

Section Relay.

(** The host's [JSON.parse]: [None] when it throws. *)
Variable JSON_parse : string -> option json.

(** The body of the loop over the complete lines.  [response.id] is read
    inside the callback of [findIndex], once for every entry visited: when
    the read throws (the line parsed to [null]) the [catch] logs the line,
    unless the queue is empty, where the callback is never called and the
    search ends with [-1]. *)
Definition handleLine (q : list PendingRequest) (line : string)
  : list PendingRequest * list Effect :=
  if negb (JS.truthy (JS.trim line)) then (q, [])
  else
    match JSON_parse line with
    | None => (q, [ConsoleLog (JS.trim line)])
    | Some response =>
        match propId response with
        | None =>
            match q with
            | [] => (q, [])
            | _ :: _ => (q, [ConsoleLog (JS.trim line)])
            end
        | Some v =>
            let index := JS.findIndex (fun req => strictEq (id req) v) q in
            if (index =? -1)%Z then (q, [])
            else
              let (removed, q') := JS.splice1 q index in
              match removed with
              | request :: _ => (q', [Resolve (promise request) response])
              | [] => (q', [ConsoleLog (JS.trim line)])
              end
        end
    end.

Fixpoint dispatch (q : list PendingRequest) (lines : list string)
  : list PendingRequest * list Effect :=
  match lines with
  | [] => (q, [])
  | line :: lines' =>
      let (q1, effects1) := handleLine q line in
      let (q2, effects2) := dispatch q1 lines' in
      (q2, effects1 ++ effects2)
  end.

(** The [stdout] handler, from the decoded text of the chunk on. *)
Definition onStdoutData (st : State) (data : string) : State * list Effect :=
  let (lines, buf) := frame (buffer st) data in
  let (q, effects) := dispatch (requestQueue st) lines in
  (withQueue (withBuffer st buf) q, effects).

(** One turn of the event loop.  The handlers of the child exist once a
    child has been spawned. *)
Definition step (st : State) (ev : Event) : State * list Effect :=
  match ev with
  | Listening => startMCPProcess st
  | StdoutData data =>
      match mcpProcess st with Some _ => onStdoutData st data | None => (st, []) end
  | StderrData data =>
      match mcpProcess st with Some _ => onStderrData st data | None => (st, []) end
  | Close code =>
      match mcpProcess st with Some _ => onClose st code | None => (st, []) end
  | ProcessError _ => (st, [])
  | Submit request w => sendToMCP st request w
  | Elapse ms => (withClock st (clock st + ms)%N, [])
  | TimerFires k => fireTimer st k
  end.

Fixpoint run (st : State) (events : list Event) : State * list Effect :=
  match events with
  | [] => (st, [])
  | ev :: events' =>
      let (st1, effects1) := step st ev in
      let (st2, effects2) := run st1 events' in
      (st2, effects1 ++ effects2)
  end.

End Relay.

(** ** Vocabulary of the specification *)

(** [c] occurs in [s]. *)
Fixpoint mentions (c : ascii) (s : string) : bool :=
  match s with
  | EmptyString => false
  | String d s' => Ascii.eqb d c || mentions c s'
  end.

(** The chunks of a stream, joined. *)
Fixpoint joined (chunks : list string) : string :=
  match chunks with
  | [] => EmptyString
  | data :: chunks' => (data ++ joined chunks')%string
  end.

(** [findIndex] followed by [splice(index, 1)[0]] as one function: the
    first element that satisfies [p], and the list without it. *)
Fixpoint removeFirst {A : Type} (p : A -> bool) (l : list A) : option (A * list A) :=
  match l with
  | [] => None
  | x :: l' =>
      if p x then Some (x, l')
      else match removeFirst p l' with
           | Some (y, rest) => Some (y, x :: rest)
           | None => None
           end
  end.

(** The guard of [sendToMCP], negated. *)
Definition ready (st : State) : bool :=
  match mcpProcess st with
  | Some _ => isReady st
  | None => false
  end.

Definition resolves (p : nat) (e : Effect) : bool :=
  match e with Resolve q _ => q =? p | _ => false end.

Definition rejects (p : nat) (e : Effect) : bool :=
  match e with Reject q _ => q =? p | _ => false end.

(** How many times the success continuation of promise [p] was called. *)
Definition resolved (effects : list Effect) (p : nat) : nat :=
  List.length (filter (resolves p) effects).

(** How many times the failure continuation of promise [p] was called. *)
Definition rejected (effects : list Effect) (p : nat) : nat :=
  List.length (filter (rejects p) effects).

Definition settled (effects : list Effect) (p : nat) : nat :=
  resolved effects p + rejected effects p.

(** How many entries of the queue belong to promise [p]. *)
Definition pendingCount (q : list PendingRequest) (p : nat) : nat :=
  List.length (filter (fun req => promise req =? p) q).

Definition pendingIds (q : list PendingRequest) : list Id := map id q.

(** The identifiers whose timeout is still pending. *)
Fixpoint armedIds (ts : list Timer) : list Id :=
  match ts with
  | [] => []
  | t :: ts' =>
      match callback t with
      | Timeout i _ => i :: armedIds ts'
      | Restart => armedIds ts'
      end
  end.

(** The timeout of promise [p] is still pending. *)
Definition armed (ts : list Timer) (p : nat) : bool :=
  existsb (fun t => match callback t with Timeout _ q => q =? p | Restart => false end) ts.

Definition idIn (i : Id) (l : list Id) : bool := existsb (idEq i) l.

(** No request is submitted under the identifier of a pending entry. *)
Fixpoint uniqueAmongPending (parse : string -> option json) (st : State)
  (events : list Event) : bool :=
  match events with
  | [] => true
  | ev :: events' =>
      match ev with
      | Submit request _ => negb (idIn (rid request) (pendingIds (requestQueue st)))
      | _ => true
      end
      && uniqueAmongPending parse (fst (step parse st ev)) events'
  end.

(** A complete line that the loop passes over: blank, not JSON, or a value
    whose [id] is read in vain or equals the [id] of no pending entry. *)
Definition passedOver (parse : string -> option json) (q : list PendingRequest)
  (line : string) : Prop :=
  JS.trim line = ""
  \/ parse line = None
  \/ exists response,
       parse line = Some response
       /\ match propId response with
          | None => True
          | Some v => forall req, In req q -> strictEq (id req) v = false
          end.

Definition isNumberId (req : PendingRequest) : bool :=
  match id req with IdNumber _ => true | IdString _ => false end.

Definition isStringId (req : PendingRequest) : bool :=
  match id req with IdString _ => true | IdNumber _ => false end.

(** The test of the [stderr] handler, on a text: one of the two markers
    occurs in it. *)
Definition announcesReady (text : string) : bool :=
  JS.includes text "Server Running" || JS.includes text "Connected".

(** ** Worked scenarios *)

Module Scenario.

Definition serverRunning : string := "Clarity Fast MCP Server Running".
Definition databaseConnected : string := "Database Connected (Pool Ready)".

(** A response line [{"id":1,"result":"ok"}] in two pieces, and the same
    response to the identifier ["1"]. *)
Definition firstPiece : string :=
  ("{" ++ dq ++ "id" ++ dq ++ ":1," ++ dq ++ "result" ++ dq)%string.
Definition secondPiece : string := (":" ++ dq ++ "ok" ++ dq ++ "}")%string.
Definition lineNumber : string := (firstPiece ++ secondPiece)%string.
Definition lineString : string :=
  ("{" ++ dq ++ "id" ++ dq ++ ":" ++ dq ++ "1" ++ dq ++ ","
       ++ dq ++ "result" ++ dq ++ ":" ++ dq ++ "ok" ++ dq ++ "}")%string.
Definition lineOther : string := ("{" ++ dq ++ "id" ++ dq ++ ":2}")%string.

Definition responseNumber : json :=
  JObject [("id", JNumber 1); ("result", JString "ok")].
Definition responseString : json :=
  JObject [("id", JString "1"); ("result", JString "ok")].

Definition eol : string := String LF "".

Definition requestNumber : Request :=
  {| rid := IdNumber 1; members := [("method", JString "tools/list")] |}.
Definition requestString : Request :=
  {| rid := IdString "1"; members := [("method", JString "tools/list")] |}.
Definition requestA : Request :=
  {| rid := IdString "a"; members := [("op", JString "ping")] |}.

Definition brokenPipe : Error := {| message := "write EPIPE" |}.

(** A ready relay with three requests pending. *)
Definition threePending : State :=
  {| mcpProcess := Some 0;
     requestQueue := [ {| id := IdNumber 1; promise := 0 |};
                       {| id := IdString "1"; promise := 1 |};
                       {| id := IdString "a"; promise := 2 |} ];
     isReady := true; buffer := "";
     timers := [ {| due := 30000; callback := Timeout (IdNumber 1) 0 |};
                 {| due := 30000; callback := Timeout (IdString "1") 1 |};
                 {| due := 30000; callback := Timeout (IdString "a") 2 |} ];
     clock := 12000; promises := 3 |}.

(** A relay whose child has not announced itself yet. *)
Definition starting : State :=
  {| mcpProcess := Some 0; requestQueue := []; isReady := false; buffer := "";
     timers := []; clock := 0; promises := 0 |}.

(** The child starts and announces itself. *)
Definition boot : list Event := [Listening; StderrData serverRunning].

(** Requests under distinct identifiers: two are answered out of order, the
    write of the third throws, the child dies, and the timeouts run. *)
Definition distinctIds : list Event :=
  boot ++
  [ Submit requestNumber WriteOk;
    Submit requestString WriteOk;
    StdoutData (lineString ++ eol ++ lineNumber ++ eol);
    Submit requestA (WriteThrows brokenPipe);
    Elapse 2000;
    Close (Some 1%Z);
    Elapse 1000;
    TimerFires 3;
    Elapse 27000;
    TimerFires 0;
    TimerFires 0;
    TimerFires 0 ].

(** The identifier 1 is used again five seconds after the first request
    under it was answered: no entry is pending under it at that time. *)
Definition reusedAfterAnswer : list Event :=
  boot ++
  [ Submit requestNumber WriteOk;
    StdoutData (lineNumber ++ eol);
    Elapse 5000;
    Submit requestNumber WriteOk;
    Elapse 25000;
    TimerFires 0;
    Elapse 5000;
    TimerFires 0 ].

(** The child dies with a request pending under the identifier "a", is
    started again and announces itself; the request is submitted again
    under the same identifier, ten seconds after the first.  No line
    arrives from either child. *)
Definition reusedAfterRestart : list Event :=
  [ Listening; StderrData databaseConnected;
    Submit requestA WriteOk;
    Elapse 2000;
    Close (Some 1%Z);
    Elapse 1000;
    TimerFires 1;
    StderrData databaseConnected;
    Elapse 7000;
    Submit requestA WriteOk;
    Elapse 20000;
    TimerFires 0;
    Elapse 10000 ].

(** The write throws for a request under the identifier of a pending
    entry. *)
Definition writeFailsUnderPendingId : list Event :=
  boot ++
  [ Submit requestNumber WriteOk;
    Submit requestNumber (WriteThrows brokenPipe) ].

End Scenario.

(** ** The HTTP endpoints *)

(** What a handler sends back: [res.status(code).json(payload)]. *)
Record HttpReply : Type := { statusCode : nat; payload : json }.

Definition replyNotReady : HttpReply :=
  {| statusCode := 503;
     payload := JObject [ ("error", JString "MCP not ready");
                          ("message", JString "Please wait for MCP to initialize") ] |}.

Definition replyFailed (error : Error) : HttpReply :=
  {| statusCode := 500;
     payload := JObject [ ("error", JString "MCP request failed");
                          ("message", JString (message error)) ] |}.

Definition replyResolved (response : json) : HttpReply :=
  {| statusCode := 200; payload := response |}.

(** [POST /mcp] up to its [await]: the reply sent at once, if any, beside
    the state and the effects of the call of [sendToMCP]. *)
Definition postMcp (st : State) (request : Request) (w : WriteOutcome)
  : State * list Effect * option HttpReply :=
  if negb (isReady st) then (st, [], Some replyNotReady)
  else let (st', effects) := sendToMCP st request w in (st', effects, None).

(** [POST /mcp] after its [await].  A promise is settled by the first call
    of either of its continuations and ignores every later call.  Given
    what the relay does from the call of [sendToMCP] on, the handler
    replies with the value of the first [resolve] of promise [p] or with
    the message of its first [reject], whichever is called first, and has
    not replied while neither has been called. *)
Definition afterAwait (p : nat) (effects : list Effect) : option HttpReply :=
  match find (fun e => resolves p e || rejects p e) effects with
  | Some (Resolve _ response) => Some (replyResolved response)
  | Some (Reject _ error) => Some (replyFailed error)
  | _ => None
  end.

(** [GET /health], without the time stamp and the path. *)
Record Health : Type := { status : string; mode : string; queueSize : nat }.

Definition health (st : State) : Health :=
  {| status := if isReady st then "ready" else "initializing";
     mode := "Persistent Process";
     queueSize := List.length (requestQueue st) |}.

(** ** Further vocabulary *)

(** How many entries of the queue carry the identifier [i]. *)
Definition countId (q : list PendingRequest) (i : Id) : nat :=
  List.length (filter (fun req => idEq (id req) i) q).

(** How many pending timeouts carry the identifier [i]. *)
Definition countArmed (ts : list Timer) (i : Id) : nat :=
  List.length (filter (fun j => idEq j i) (armedIds ts)).

(** The line is a response to the entry: it is not blank, it parses, and
    its [id] is strictly equal to the entry's. *)
Definition answers (parse : string -> option json) (line : string)
  (req : PendingRequest) : bool :=
  JS.truthy (JS.trim line)
  && match parse line with
     | Some response =>
         match propId response with
         | Some v => strictEq (id req) v
         | None => false
         end
     | None => false
     end.

(** The calls of success continuations among the effects. *)
Definition isResolve (e : Effect) : bool :=
  match e with Resolve _ _ => true | _ => false end.

Definition resolutions (effects : list Effect) : list Effect :=
  filter isResolve effects.

Definition isSpawn (e : Effect) : bool :=
  match e with Spawn _ => true | _ => false end.

Definition isRestart (t : Timer) : bool :=
  match callback t with Restart => true | Timeout _ _ => false end.

(** The event starts a child by itself ([Listening]) or arms a restart
    ([Close]). *)
Definition startsChild (ev : Event) : bool :=
  match ev with Listening | Close _ => true | _ => false end.

(** The event is not a chunk of diagnostic output with a marker. *)
Definition silent (ev : Event) : bool :=
  match ev with
  | StderrData data => negb (announcesReady data)
  | _ => true
  end.

(** The time that passes in a sequence of events. *)
Fixpoint elapsed (events : list Event) : N :=
  match events with
  | [] => 0%N
  | Elapse ms :: events' => (ms + elapsed events')%N
  | _ :: events' => elapsed events'
  end.

(** The first element that satisfies [p], and the list without it (the
    list itself when there is none). *)
Definition firstMatch {A : Type} (p : A -> bool) (l : list A) : option A :=
  option_map fst (removeFirst p l).

Definition withoutFirst {A : Type} (p : A -> bool) (l : list A) : list A :=
  match removeFirst p l with
  | Some (_, rest) => rest
  | None => l
  end.

(** The queue in order of submission: the promises of its entries, which
    are numbered in the order of the calls of [sendToMCP], increase. *)
Fixpoint increasing (l : list nat) : Prop :=
  match l with
  | [] => True
  | x :: l' => Forall (fun y => x < y) l' /\ increasing l'
  end.

(** ** One call among the others *)

(** No request is submitted under the identifier [i] while a timeout
    under [i] is pending. *)
Fixpoint unusedWhileArmed (parse : string -> option json) (i : Id) (st : State)
  (events : list Event) : bool :=
  match events with
  | [] => true
  | ev :: events' =>
      match ev with
      | Submit request _ =>
          negb (idEq (rid request) i && idIn i (armedIds (timers st)))
      | _ => true
      end
      && unusedWhileArmed parse i (fst (step parse st ev)) events'
  end.

(** The timeout of the call with identifier [i] and promise [p] is
    pending: it is the only pending timeout under [i] and the only one of
    [p], and the only entry that the queue can hold under [i] or for [p]
    is the entry of the call. *)
Record Waiting (i : Id) (p : nat) (ts : list Timer) (q : list PendingRequest)
  : Prop := {
  own_timeout : In (Timeout i p) (map callback ts);
  one_timeout : countArmed ts i = 1;
  timeout_of : forall j, In (Timeout j p) (map callback ts) -> j = i;
  entry_of :
    forall req, In req q -> id req = i \/ promise req = p ->
                req = {| id := i; promise := p |}
}.

(** The timeout of promise [p] has run, or was never armed, and no entry
    of [p] is queued. *)
Definition Over (p : nat) (ts : list Timer) (q : list PendingRequest) : Prop :=
  armed ts p = false /\ pendingCount q p = 0.

(** The invariant of one call of [sendToMCP], with identifier [i] and
    promise [p], in the runs that do not submit a request under [i] while
    a timeout under [i] is pending: the promise is in the queue once and
    not settled, or out of the queue and settled once. *)
Record Tracked (i : Id) (p : nat) (st : State) (effects : list Effect) : Prop := {
  created : p < promises st;
  once_so_far : settled effects p + pendingCount (requestQueue st) p = 1;
  phase : Waiting i p (timers st) (requestQueue st)
          \/ Over p (timers st) (requestQueue st)
}.

(** ** Further worked cases *)

Module Cases.

(** Three lines, the second empty and the third cut between the buffer and
    the chunk, and an unterminated tail. *)
Definition held : string := ("a" ++ Scenario.eol ++ Scenario.eol ++ "b")%string.
Definition chunk : string := (" c" ++ Scenario.eol ++ "tail")%string.

(** Two requests pending under the identifier 1, behind one under "a". *)
Definition twoUnderOne : list PendingRequest :=
  [ {| id := IdString "a"; promise := 0 |};
    {| id := IdNumber 1; promise := 1 |};
    {| id := IdNumber 1; promise := 2 |} ].

(** After a termination: time passes, the dying child logs, a request is
    submitted, a timeout runs. *)
Definition afterClose : list Event :=
  [ Elapse 500; StderrData "shutting down";
    Submit Scenario.requestA WriteOk; Elapse 40000; TimerFires 0 ].

(** Two terminations, the first followed by its restart, and a second
    [listening]. *)
Definition twoCloses : list Event :=
  [ Close None; Elapse 1000; TimerFires 0; Close (Some 1%Z); Listening ].

(** A request times out. *)
Definition untilTimeout : list Event := [ Elapse 12000; Elapse 18000; TimerFires 0 ].

(** The identifier 1 is used again while the timeout of the answered
    request under it is pending. *)
Definition reuseOfOne : list Event :=
  Scenario.boot ++
  [ Submit Scenario.requestNumber WriteOk;
    StdoutData (Scenario.lineNumber ++ Scenario.eol);
    Submit Scenario.requestNumber WriteOk ].

(** Thirty seconds pass and the three pending timeouts run, in the order
    in which they were armed. *)
Definition timeoutsRun : list Event :=
  [ Elapse 30000; TimerFires 0; TimerFires 0; TimerFires 0 ].

End Cases.

(** * Properties *)

(** ** Arrays and strings *)

Lemma pop_snoc {A : Type} (l : list A) (x : A) : JS.pop (l ++ [x]) = (Some x, l).
Proof.
  induction l as [|y l IH]; [reflexivity|].
  simpl. rewrite IH. destruct l; reflexivity.
Qed.

Lemma pop_some {A : Type} (l : list A) :
  l <> [] -> exists x init, JS.pop l = (Some x, init) /\ l = init ++ [x].
Proof.
  intros Hne. destruct (exists_last Hne) as [init [x ->]].
  exists x, init. split; [apply pop_snoc | reflexivity].
Qed.

Lemma split_not_nil (s : string) (sep : ascii) : JS.split s sep <> [].
Proof.
  destruct s as [|c s]; simpl; [discriminate|].
  destruct (Ascii.eqb c sep); [discriminate|].
  destruct (JS.split s sep); discriminate.
Qed.

Lemma orEmpty_some (s : string) : JS.orEmpty (Some s) = s.
Proof. destruct s; reflexivity. Qed.

Lemma split_free (s : string) (sep : ascii) :
  Forall (fun seg => mentions sep seg = false) (JS.split s sep).
Proof.
  induction s as [|c s IH]; simpl.
  - repeat constructor.
  - destruct (Ascii.eqb c sep) eqn:Hc.
    + constructor; [reflexivity | exact IH].
    + destruct (JS.split s sep) as [|seg segs].
      * repeat constructor. simpl. now rewrite Hc.
      * inversion IH; subst. constructor; [|assumption].
        simpl. now rewrite Hc.
Qed.

Lemma split_segment (s : string) (sep : ascii) :
  mentions sep s = false -> JS.split s sep = [s].
Proof.
  induction s as [|c s IH]; simpl; [reflexivity|].
  destruct (Ascii.eqb c sep); simpl; [discriminate|].
  intros H. now rewrite (IH H).
Qed.

Lemma split_app_sep (a b : string) (sep : ascii) :
  mentions sep a = false ->
  JS.split (a ++ String sep b) sep = a :: JS.split b sep.
Proof.
  induction a as [|c a IH]; simpl.
  - now rewrite Ascii.eqb_refl.
  - destruct (Ascii.eqb c sep); simpl; [discriminate|].
    intros H. now rewrite (IH H).
Qed.

Lemma mentions_app (c : ascii) (a b : string) :
  mentions c (a ++ b) = mentions c a || mentions c b.
Proof.
  induction a as [|d a IH]; simpl; [reflexivity|].
  now rewrite IH, orb_assoc.
Qed.

Lemma string_app_assoc (a b c : string) : ((a ++ b) ++ c = a ++ (b ++ c))%string.
Proof. induction a as [|d a IH]; simpl; [reflexivity | now rewrite IH]. Qed.

Lemma string_app_nil_r (a : string) : (a ++ "" = a)%string.
Proof. induction a as [|d a IH]; simpl; [reflexivity | now rewrite IH]. Qed.

(** ** The Line Framer *)

Lemma unframe_snoc (lines : list string) (line residue : string) :
  unframe (lines ++ [line]) residue = unframe lines (line ++ String LF residue).
Proof.
  induction lines as [|l lines IH]; simpl; [reflexivity | now rewrite IH].
Qed.

Lemma unframe_app (lines more : list string) (residue : string) :
  unframe (lines ++ more) residue = unframe lines (unframe more residue).
Proof.
  induction lines as [|l lines IH]; simpl; [reflexivity | now rewrite IH].
Qed.

Lemma unframe_residue_app (lines : list string) (residue rest : string) :
  unframe lines (residue ++ rest) = (unframe lines residue ++ rest)%string.
Proof.
  induction lines as [|l lines IH]; simpl; [reflexivity|].
  rewrite IH. now rewrite string_app_assoc.
Qed.

(** Splitting loses nothing: the segments, each but the last followed by
    the separator, spell the text. *)
Lemma unframe_split (s : string) :
  forall init last, JS.split s LF = init ++ [last] -> unframe init last = s.
Proof.
  induction s as [|c s IH]; simpl; intros init last H.
  - destruct init as [|x init]; simpl in H.
    + now inversion H.
    + destruct init; discriminate.
  - destruct (Ascii.eqb c LF) eqn:Hc.
    + apply Ascii.eqb_eq in Hc. subst c.
      destruct init as [|x init]; simpl in H.
      * inversion H as [[Hl Hs]]. exfalso. now apply (split_not_nil s LF).
      * inversion H; subst. simpl. f_equal. now apply IH.
    + destruct (JS.split s LF) as [|seg segs] eqn:Hs.
      * exfalso. now apply (split_not_nil s LF).
      * destruct init as [|x init]; simpl in H.
        -- inversion H; subst. simpl. f_equal. now apply (IH []).
        -- inversion H; subst. simpl. f_equal. now apply (IH (seg :: init)).
Qed.

Lemma frame_split (buf data : string) :
  JS.split (buf ++ data) LF = fst (frame buf data) ++ [snd (frame buf data)].
Proof.
  unfold frame.
  destruct (pop_some (JS.split (buf ++ data) LF) (split_not_nil _ _))
    as [last [init [Hpop Hsplit]]].
  rewrite Hpop. cbn [fst snd]. now rewrite orEmpty_some.
Qed.

Lemma frame_conserves (buf data : string) :
  unframe (fst (frame buf data)) (snd (frame buf data)) = (buf ++ data)%string.
Proof. apply unframe_split, frame_split. Qed.

Lemma frame_free (buf data : string) :
  Forall (fun line => mentions LF line = false) (fst (frame buf data))
  /\ mentions LF (snd (frame buf data)) = false.
Proof.
  pose proof (split_free (buf ++ data) LF) as H.
  rewrite frame_split in H. apply Forall_app in H. destruct H as [H1 H2].
  split; [assumption | now inversion H2].
Qed.

Lemma frame_partial (buf data : string) :
  mentions LF (buf ++ data) = false -> frame buf data = ([], (buf ++ data)%string).
Proof.
  intros H. unfold frame. rewrite (split_segment _ _ H). cbn [JS.pop].
  now rewrite orEmpty_some.
Qed.

Lemma frame_completes (buf data : string) :
  mentions LF (buf ++ data) = false ->
  frame buf (data ++ String LF "") = ([(buf ++ data)%string], "").
Proof.
  intros H. unfold frame.
  rewrite <- string_app_assoc, (split_app_sep _ _ _ H). reflexivity.
Qed.

(** C4.  On every chunk the framer splits the buffer followed by the chunk
    at the line terminators, hands on every segment but the last as a
    complete line and keeps the last segment as the new buffer; no line
    and no buffer holds a terminator.  A line that arrives in two chunks,
    the second ending with the terminator, comes out once, as the whole
    line, and leaves the buffer empty. *)
Theorem framer_emits_all_but_last (buf data first second : string) :
  mentions LF first = false ->
  mentions LF second = false ->
  (JS.split (buf ++ data) LF = fst (frame buf data) ++ [snd (frame buf data)]
   /\ Forall (fun line => mentions LF line = false) (fst (frame buf data))
   /\ mentions LF (snd (frame buf data)) = false)
  /\ frame "" first = ([], first)
  /\ frame first (second ++ String LF "") = ([(first ++ second)%string], "")
  /\ frames "" [first; (second ++ String LF "")%string] = ([(first ++ second)%string], "").
Proof.
  intros H1 H2.
  assert (H12 : mentions LF (first ++ second) = false)
    by (rewrite mentions_app, H1, H2; reflexivity).
  split; [|split; [|split]].
  - split; [apply frame_split | apply frame_free].
  - now apply (frame_partial "" first).
  - now apply frame_completes.
  - simpl frames. rewrite (frame_partial "" first H1). simpl.
    now rewrite (frame_completes first second H12).
Qed.

Lemma frames_conserve_from (chunks : list string) :
  forall buf,
    unframe (fst (frames buf chunks)) (snd (frames buf chunks))
    = (buf ++ joined chunks)%string.
Proof.
  induction chunks as [|data chunks IH]; intros buf; simpl.
  - now rewrite string_app_nil_r.
  - pose proof (frame_conserves buf data) as Hf.
    destruct (frame buf data) as [lines buf'] eqn:Hframe. simpl in Hf.
    specialize (IH buf').
    destruct (frames buf' chunks) as [more final]. simpl in *.
    rewrite unframe_app, IH, unframe_residue_app, Hf.
    apply string_app_assoc.
Qed.

(** The [stdout] handler is the framer followed by the loop over the lines:
    it leaves in [buffer] what the framer leaves. *)
Lemma onStdoutData_frames (parse : string -> option json) (st : State) (data : string) :
  buffer (fst (onStdoutData parse st data)) = snd (frame (buffer st) data)
  /\ onStdoutData parse st data =
     (withQueue (withBuffer st (snd (frame (buffer st) data)))
                (fst (dispatch parse (requestQueue st) (fst (frame (buffer st) data)))),
      snd (dispatch parse (requestQueue st) (fst (frame (buffer st) data)))).
Proof.
  unfold onStdoutData. destruct (frame (buffer st) data) as [lines buf]. simpl.
  destruct (dispatch parse (requestQueue st) lines) as [q effects].
  split; reflexivity.
Qed.

(** C10.  Conservation: starting from an empty buffer, the complete lines
    in the order they were extracted, each followed by one line
    terminator, and then the buffer that is left, spell exactly the chunks
    joined. *)
Theorem framer_conserves_input (chunks : list string) :
  unframe (fst (frames "" chunks)) (snd (frames "" chunks)) = joined chunks.
Proof. apply (frames_conserve_from chunks ""). Qed.

(** ** The queue *)

Lemma findIndex_range {A : Type} (p : A -> bool) (l : list A) :
  (-1 <= JS.findIndex p l)%Z.
Proof.
  induction l as [|x l IH]; simpl; [lia|].
  destruct (p x); [lia|].
  destruct (JS.findIndex p l =? -1)%Z eqn:E; lia.
Qed.

(** [findIndex] and [splice] against [removeFirst]. *)
Lemma findIndex_splice {A : Type} (p : A -> bool) (l : list A) :
  match removeFirst p l with
  | None => JS.findIndex p l = (-1)%Z
  | Some (x, rest) =>
      (JS.findIndex p l =? -1)%Z = false
      /\ JS.splice1 l (JS.findIndex p l) = ([x], rest)
  end.
Proof.
  induction l as [|x l IH]; simpl; [reflexivity|].
  destruct (p x) eqn:Hp.
  - split; [reflexivity|]. unfold JS.splice1. simpl. reflexivity.
  - destruct (removeFirst p l) as [[y rest]|].
    + destruct IH as [Hne Hsp]. rewrite Hne. split.
      * pose proof (findIndex_range p l). apply Z.eqb_neq. apply Z.eqb_neq in Hne. lia.
      * pose proof (findIndex_range p l) as Hr. apply Z.eqb_neq in Hne.
        unfold JS.splice1 in *.
        replace (Z.to_nat (JS.findIndex p l + 1)) with (S (Z.to_nat (JS.findIndex p l))) by lia.
        simpl. inversion Hsp as [[H1 H2]]. rewrite H1. now rewrite H2.
    + rewrite IH. reflexivity.
Qed.

Lemma removeFirst_some {A : Type} (p : A -> bool) (l : list A) (x : A) (rest : list A) :
  removeFirst p l = Some (x, rest) ->
  exists l1 l2,
    l = l1 ++ x :: l2 /\ rest = l1 ++ l2 /\ p x = true
    /\ forall y, In y l1 -> p y = false.
Proof.
  revert rest. induction l as [|y l IH]; simpl; intros rest H; [discriminate|].
  destruct (p y) eqn:Hp.
  - inversion H; subst. exists [], rest. repeat split; auto. intros ? [].
  - destruct (removeFirst p l) as [[z rest']|]; [|discriminate].
    inversion H; subst.
    destruct (IH rest' eq_refl) as [l1 [l2 [H1 [H2 [H3 H4]]]]].
    exists (y :: l1), l2. subst. repeat split; auto.
    intros w [<-|Hw]; auto.
Qed.

Lemma removeFirst_none {A : Type} (p : A -> bool) (l : list A) :
  removeFirst p l = None <-> forall y, In y l -> p y = false.
Proof.
  induction l as [|y l IH]; simpl.
  - split; [intros _ ? [] | reflexivity].
  - destruct (p y) eqn:Hp.
    + split; [discriminate|]. intros H. specialize (H y (or_introl eq_refl)). congruence.
    + destruct (removeFirst p l) as [[z rest]|].
      * split; [discriminate|]. intros H.
        assert (Hn : @None (A * list A) = None) by reflexivity.
        destruct IH as [_ IH]. discriminate IH. intros w Hw. apply H. now right.
      * split; [|reflexivity]. intros _ w [<-|Hw]; [assumption|].
        now apply IH.
Qed.

Lemma removeById_removeFirst (q : list PendingRequest) (i : Id) :
  removeById q i = option_map snd (removeFirst (fun req => idEq (id req) i) q).
Proof.
  unfold removeById.
  pose proof (findIndex_splice (fun req => idEq (id req) i) q) as H.
  destruct (removeFirst (fun req => idEq (id req) i) q) as [[x rest]|].
  - destruct H as [Hne Hsp]. rewrite Hne, Hsp. reflexivity.
  - rewrite H. reflexivity.
Qed.

Lemma idEq_eq (a b : Id) : idEq a b = true <-> a = b.
Proof.
  destruct a, b; simpl; split; intros H; try discriminate; try congruence.
  - apply Z.eqb_eq in H. congruence.
  - inversion H. apply Z.eqb_refl.
  - apply String.eqb_eq in H. congruence.
  - inversion H. apply String.eqb_refl.
Qed.

Lemma idIn_In (i : Id) (l : list Id) : idIn i l = true <-> In i l.
Proof.
  unfold idIn. rewrite existsb_exists. split.
  - intros [x [Hx He]]. apply idEq_eq in He. now subst.
  - intros H. exists i. split; [assumption | now apply idEq_eq].
Qed.

Section Correlator.

Variable JSON_parse : string -> option json.

(** [handleLine] in terms of [removeFirst]. *)
Lemma handleLine_eq (q : list PendingRequest) (line : string) :
  handleLine JSON_parse q line =
  if negb (JS.truthy (JS.trim line)) then (q, [])
  else match JSON_parse line with
       | None => (q, [ConsoleLog (JS.trim line)])
       | Some response =>
           match propId response with
           | None => (q, match q with
                         | [] => []
                         | _ :: _ => [ConsoleLog (JS.trim line)]
                         end)
           | Some v =>
               match removeFirst (fun req => strictEq (id req) v) q with
               | Some (request, q') => (q', [Resolve (promise request) response])
               | None => (q, [])
               end
           end
       end.
Proof.
  unfold handleLine.
  destruct (negb (JS.truthy (JS.trim line))); [reflexivity|].
  destruct (JSON_parse line) as [response|]; [|reflexivity].
  destruct (propId response) as [v|]; [|now destruct q].
  pose proof (findIndex_splice (fun req => strictEq (id req) v) q) as H.
  destruct (removeFirst (fun req => strictEq (id req) v) q) as [[x rest]|].
  - destruct H as [Hne Hsp]. rewrite Hne, Hsp. reflexivity.
  - rewrite H. reflexivity.
Qed.

Lemma settled_app (e1 e2 : list Effect) (p : nat) :
  settled (e1 ++ e2) p = settled e1 p + settled e2 p.
Proof.
  unfold settled, resolved, rejected. rewrite !filter_app, !length_app. lia.
Qed.

Lemma resolved_app (e1 e2 : list Effect) (p : nat) :
  resolved (e1 ++ e2) p = resolved e1 p + resolved e2 p.
Proof. unfold resolved. now rewrite filter_app, length_app. Qed.

Lemma rejected_app (e1 e2 : list Effect) (p : nat) :
  rejected (e1 ++ e2) p = rejected e1 p + rejected e2 p.
Proof. unfold rejected. now rewrite filter_app, length_app. Qed.

Lemma handleLine_passedOver (q : list PendingRequest) (line : string) :
  passedOver JSON_parse q line ->
  fst (handleLine JSON_parse q line) = q
  /\ forall p, resolved (snd (handleLine JSON_parse q line)) p = 0
               /\ rejected (snd (handleLine JSON_parse q line)) p = 0.
Proof.
  intros H. rewrite handleLine_eq.
  destruct H as [H | [H | [response [Hparse H]]]].
  - rewrite H. simpl. auto.
  - rewrite H. destruct (negb _); simpl; auto.
  - rewrite Hparse. destruct (negb _); [simpl; auto|].
    destruct (propId response) as [v|]; [|destruct q; simpl; auto].
    apply removeFirst_none in H. rewrite H. simpl. auto.
Qed.

Lemma dispatch_passedOver (q : list PendingRequest) (lines : list string) :
  Forall (passedOver JSON_parse q) lines ->
  fst (dispatch JSON_parse q lines) = q
  /\ forall p, resolved (snd (dispatch JSON_parse q lines)) p = 0
               /\ rejected (snd (dispatch JSON_parse q lines)) p = 0.
Proof.
  induction 1 as [|line lines Hline Hlines IH]; simpl; [auto|].
  destruct (handleLine_passedOver q line Hline) as [Hq Hp].
  destruct (handleLine JSON_parse q line) as [q1 e1]. simpl in Hq, Hp. subst q1.
  destruct (dispatch JSON_parse q lines) as [q2 e2]. simpl in *.
  destruct IH as [-> IH]. split; [reflexivity|].
  intros p. rewrite resolved_app, rejected_app.
  destruct (Hp p) as [-> ->]. destruct (IH p) as [-> ->]. auto.
Qed.

(** C9.  A complete line that is blank, that is not JSON, or whose [id]
    equals the [id] of no pending entry leaves the queue as it was and
    calls neither continuation of any promise; so does a whole batch of
    such lines. *)
Theorem passed_over_lines_keep_queue
  (q : list PendingRequest) (line : string) (lines : list string) :
  passedOver JSON_parse q line ->
  Forall (passedOver JSON_parse q) lines ->
  (fst (handleLine JSON_parse q line) = q
   /\ forall p, resolved (snd (handleLine JSON_parse q line)) p = 0
                /\ rejected (snd (handleLine JSON_parse q line)) p = 0)
  /\ (fst (dispatch JSON_parse q lines) = q
      /\ forall p, resolved (snd (dispatch JSON_parse q lines)) p = 0
                   /\ rejected (snd (dispatch JSON_parse q lines)) p = 0).
Proof.
  intros Hline Hlines. split.
  - now apply handleLine_passedOver.
  - now apply dispatch_passedOver.
Qed.

Lemma removeFirst_filter_out {A : Type} (p keep : A -> bool) (l : list A) :
  (forall x, p x = true -> keep x = false) ->
  match removeFirst p l with
  | Some (_, rest) => filter keep rest = filter keep l
  | None => True
  end.
Proof.
  intros Hpk. induction l as [|x l IH]; simpl; [exact I|].
  destruct (p x) eqn:Hp.
  - now rewrite (Hpk x Hp).
  - destruct (removeFirst p l) as [[y rest]|]; [|exact I].
    simpl. now rewrite IH.
Qed.

Lemma handleLine_keeps (keep : PendingRequest -> bool) (v : option json)
  (q : list PendingRequest) (line : string) (response : json) :
  JSON_parse line = Some response ->
  propId response = Some v ->
  (forall req, strictEq (id req) v = true -> keep req = false) ->
  filter keep (fst (handleLine JSON_parse q line)) = filter keep q.
Proof.
  intros Hparse Hid Hkeep. rewrite handleLine_eq, Hparse, Hid.
  destruct (negb _); [reflexivity|].
  pose proof (removeFirst_filter_out (fun req => strictEq (id req) v) keep q Hkeep) as H.
  destruct (removeFirst _ q) as [[y rest]|]; [exact H | reflexivity].
Qed.

(** C5.  Matching is strict equality: a numeric [id] never equals a string
    [id].  Whatever the queue, a response with a string [id] leaves every
    entry with a numeric [id] in place, and conversely; with the two
    requests [n] and [s] pending, the response for either resolves that
    one alone and leaves the entry of the other, in either order of
    arrival. *)
Theorem matching_is_strict
  (n : Z) (s : string) (a b : nat) (lineN lineS : string) (rN rS : json)
  (q : list PendingRequest) :
  JS.truthy (JS.trim lineN) = true ->
  JSON_parse lineN = Some rN ->
  propId rN = Some (Some (JNumber n)) ->
  JS.truthy (JS.trim lineS) = true ->
  JSON_parse lineS = Some rS ->
  propId rS = Some (Some (JString s)) ->
  let eN := {| id := IdNumber n; promise := a |} in
  let eS := {| id := IdString s; promise := b |} in
  strictEq (IdNumber n) (Some (JString s)) = false
  /\ strictEq (IdString s) (Some (JNumber n)) = false
  /\ filter isNumberId (fst (handleLine JSON_parse q lineS)) = filter isNumberId q
  /\ filter isStringId (fst (handleLine JSON_parse q lineN)) = filter isStringId q
  /\ handleLine JSON_parse [eN; eS] lineS = ([eN], [Resolve b rS])
  /\ handleLine JSON_parse [eN; eS] lineN = ([eS], [Resolve a rN])
  /\ dispatch JSON_parse [eN; eS] [lineS; lineN] = ([], [Resolve b rS; Resolve a rN])
  /\ dispatch JSON_parse [eN; eS] [lineN; lineS] = ([], [Resolve a rN; Resolve b rS]).
Proof.
  intros HtN HpN HiN HtS HpS HiS eN eS.
  assert (HS : forall q', handleLine JSON_parse q' lineS =
            match removeFirst (fun req => strictEq (id req) (Some (JString s))) q' with
            | Some (request, q'') => (q'', [Resolve (promise request) rS])
            | None => (q', [])
            end)
    by (intros q'; rewrite handleLine_eq, HtS, HpS, HiS; reflexivity).
  assert (HN : forall q', handleLine JSON_parse q' lineN =
            match removeFirst (fun req => strictEq (id req) (Some (JNumber n))) q' with
            | Some (request, q'') => (q'', [Resolve (promise request) rN])
            | None => (q', [])
            end)
    by (intros q'; rewrite handleLine_eq, HtN, HpN, HiN; reflexivity).
  repeat split; try reflexivity.
  - apply (handleLine_keeps isNumberId (Some (JString s)) q lineS rS HpS HiS).
    intros [[m|t] p]; simpl; [discriminate | reflexivity].
  - apply (handleLine_keeps isStringId (Some (JNumber n)) q lineN rN HpN HiN).
    intros [[m|t] p]; simpl; [reflexivity | discriminate].
  - rewrite HS. simpl. now rewrite String.eqb_refl.
  - rewrite HN. simpl. now rewrite Z.eqb_refl.
  - simpl dispatch. rewrite HS. simpl. rewrite String.eqb_refl.
    rewrite HN. simpl. now rewrite Z.eqb_refl.
  - simpl dispatch. rewrite HN. simpl. rewrite Z.eqb_refl.
    rewrite HS. simpl. now rewrite String.eqb_refl.
Qed.

End Correlator.

(** ** Submission *)

(** C3.  While the relay is not ready a submission is rejected at once
    with the "not ready" error: no entry is queued, no timeout is armed,
    and nothing is written to the child. *)
Theorem not_ready_rejects_at_once (st : State) (request : Request) (w : WriteOutcome) :
  ready st = false ->
  snd (sendToMCP st request w) = [Reject (promises st) notReady]
  /\ JS.includes (message notReady) "not ready" = true
  /\ requestQueue (fst (sendToMCP st request w)) = requestQueue st
  /\ timers (fst (sendToMCP st request w)) = timers st
  /\ isReady (fst (sendToMCP st request w)) = isReady st.
Proof.
  intros H.
  assert (E : sendToMCP st request w =
              (withPromises st (S (promises st)), [Reject (promises st) notReady])).
  { unfold ready in H. unfold sendToMCP. simpl.
    destruct (mcpProcess st) as [child|]; [|reflexivity].
    now rewrite H. }
  rewrite E. repeat split; reflexivity.
Qed.

Lemma removeFirst_last (p : PendingRequest -> bool) (q : list PendingRequest)
  (e : PendingRequest) :
  (forall req, In req q -> p req = false) -> p e = true ->
  removeFirst p (q ++ [e]) = Some (e, q).
Proof.
  intros Hq He. induction q as [|x q IH]; simpl.
  - now rewrite He.
  - rewrite (Hq x (or_introl eq_refl)). rewrite IH; [reflexivity|].
    intros req Hreq. apply Hq. now right.
Qed.

Lemma idIn_pending_false (i : Id) (q : list PendingRequest) :
  idIn i (pendingIds q) = false ->
  forall req, In req q -> idEq (id req) i = false.
Proof.
  intros H req Hreq. destruct (idEq (id req) i) eqn:E; [|reflexivity].
  apply idEq_eq in E. assert (Hin : In i (pendingIds q)).
  { subst i. unfold pendingIds. now apply in_map. }
  apply idIn_In in Hin. congruence.
Qed.

Lemma idEq_refl (i : Id) : idEq i i = true.
Proof. now apply idEq_eq. Qed.

Lemma removeById_fresh (q : list PendingRequest) (i : Id) :
  idIn i (pendingIds q) = false -> removeById q i = None.
Proof.
  intros H. rewrite removeById_removeFirst.
  assert (Hn : removeFirst (fun req => idEq (id req) i) q = None)
    by (apply removeFirst_none; now apply idIn_pending_false).
  now rewrite Hn.
Qed.

Lemma removeById_last (q : list PendingRequest) (i : Id) (p : nat) :
  idIn i (pendingIds q) = false ->
  removeById (q ++ [{| id := i; promise := p |}]) i = Some q.
Proof.
  intros H. rewrite removeById_removeFirst.
  rewrite (removeFirst_last (fun req => idEq (id req) i) q {| id := i; promise := p |}).
  - reflexivity.
  - now apply idIn_pending_false.
  - apply idEq_refl.
Qed.

(** C7, amended.  When the write throws for a request whose [id] is the
    [id] of no pending entry, the entry just registered is taken out of
    the queue at once and the request is rejected with the error thrown:
    the queue is as before the call and holds no entry under the [id] of
    the request.  The timeout armed by the call stays pending, due 30000
    ms later; run in a state whose queue holds no entry under that [id],
    it changes nothing and rejects nothing. *)
Theorem write_failure_removes_entry (st : State) (request : Request) (error : Error) :
  ready st = true ->
  idIn (rid request) (pendingIds (requestQueue st)) = false ->
  let st' := fst (sendToMCP st request (WriteThrows error)) in
  snd (sendToMCP st request (WriteThrows error)) = [Reject (promises st) error]
  /\ requestQueue st' = requestQueue st
  /\ idIn (rid request) (pendingIds (requestQueue st')) = false
  /\ pendingCount (requestQueue st') (promises st) = pendingCount (requestQueue st) (promises st)
  /\ timers st' = timers st ++ [{| due := (clock st + 30000)%N;
                                   callback := Timeout (rid request) (promises st) |}]
  /\ (forall s : State,
        idIn (rid request) (pendingIds (requestQueue s)) = false ->
        onTimeout s (rid request) (promises st) = (s, [])).
Proof.
  unfold ready. intros Hready Hfresh.
  assert (E : sendToMCP st request (WriteThrows error) =
              (setTimeout (withPromises st (S (promises st)))
                          (Timeout (rid request) (promises st)) 30000,
               [Reject (promises st) error])).
  { unfold sendToMCP. simpl.
    destruct (mcpProcess st) as [child|]; [|discriminate].
    rewrite Hready. simpl.
    rewrite (removeById_last _ _ _ Hfresh). simpl.
    unfold setTimeout, withTimers, withQueue, withPromises. simpl. reflexivity. }
  rewrite E. simpl.
  split; [reflexivity|]. split; [reflexivity|]. split; [exact Hfresh|].
  split; [reflexivity|]. split; [reflexivity|].
  intros s Hs. unfold onTimeout. now rewrite (removeById_fresh _ _ Hs).
Qed.

(** ** Supervision *)

Section Supervisor.

Variable JSON_parse : string -> option json.

(** C2.  When the termination of the child is observed, whatever the exit
    code, the relay is no longer ready, every pending request is rejected
    with the "process died" error, in queue order, the queue is empty, and
    one restart is added to the pending timers, due one second later;
    with three requests pending there are three rejections. *)
Theorem termination_rejects_all (st : State) (child : nat) (code : option Z) :
  mcpProcess st = Some child ->
  let st' := fst (step JSON_parse st (Close code)) in
  let effects := snd (step JSON_parse st (Close code)) in
  isReady st' = false
  /\ ready st' = false
  /\ effects = map (fun req => Reject (promise req) processDied) (requestQueue st)
  /\ JS.includes (message processDied) "process died" = true
  /\ requestQueue st' = []
  /\ timers st' = timers st ++ [{| due := (clock st + 1000)%N; callback := Restart |}]
  /\ (List.length (requestQueue st) = 3 ->
      List.length effects = 3 /\ List.length (requestQueue st') = 0).
Proof.
  intros Hchild. simpl. rewrite Hchild. unfold ready. simpl. rewrite Hchild.
  repeat split. rewrite length_map. assumption.
Qed.

End Supervisor.

(** ** Readiness *)

Lemma prefix_app (m s : string) :
  String.prefix m s = true -> exists b, s = (m ++ b)%string.
Proof.
  revert s. induction m as [|c m IH]; intros s H.
  - exists s. reflexivity.
  - destruct s as [|d s]; simpl in H; [discriminate|].
    destruct (Ascii.ascii_dec c d) as [->|]; [|discriminate].
    destruct (IH s H) as [b ->]. exists b. reflexivity.
Qed.

Lemma prefix_of_app (m b : string) : String.prefix m (m ++ b) = true.
Proof.
  induction m as [|c m IH]; simpl.
  - destruct b; reflexivity.
  - destruct (Ascii.ascii_dec c c); [assumption | congruence].
Qed.

Lemma includes_occurs (s m : string) :
  JS.includes s m = true <-> exists a b, s = (a ++ m ++ b)%string.
Proof.
  split.
  - induction s as [|c s IH]; cbn [JS.includes]; intros H.
    + rewrite orb_false_r in H. destruct (prefix_app _ _ H) as [b Hb].
      exists ""%string, b. exact Hb.
    + apply orb_true_iff in H. destruct H as [H|H].
      * destruct (prefix_app _ _ H) as [b Hb]. exists ""%string, b. exact Hb.
      * destruct (IH H) as [a [b ->]]. exists (String c a), b. reflexivity.
  - intros [a [b ->]]. induction a as [|c a IH].
    + change ("" ++ m ++ b)%string with (m ++ b)%string.
      destruct (m ++ b)%string eqn:E; cbn [JS.includes];
        rewrite <- E, prefix_of_app; reflexivity.
    + change (String c a ++ m ++ b)%string with (String c (a ++ m ++ b)).
      cbn [JS.includes]. rewrite IH. apply orb_true_r.
Qed.

Lemma trimStart_suffix (s : string) : exists a, s = (a ++ JS.trimStart s)%string.
Proof.
  induction s as [|c s [a IH]]; simpl.
  - exists ""%string. reflexivity.
  - destruct (JS.isWhite c).
    + exists (String c a). simpl. now rewrite <- IH.
    + exists ""%string. reflexivity.
Qed.

Lemma trimEnd_prefix (s : string) : exists b, s = (JS.trimEnd s ++ b)%string.
Proof.
  induction s as [|c s [b IH]]; simpl.
  - exists ""%string. reflexivity.
  - destruct (JS.trimEnd s) as [|d t] eqn:E.
    + destruct (JS.isWhite c).
      * exists (String c s). reflexivity.
      * exists s. reflexivity.
    + exists b. simpl. f_equal. exact IH.
Qed.

(** What occurs in the trimmed text occurs in the text. *)
Lemma includes_trim (s m : string) :
  JS.includes (JS.trim s) m = true -> JS.includes s m = true.
Proof.
  intros H. apply includes_occurs in H. destruct H as [x [y Hxy]].
  apply includes_occurs. unfold JS.trim in Hxy.
  destruct (trimStart_suffix s) as [a Ha].
  destruct (trimEnd_prefix (JS.trimStart s)) as [b Hb].
  exists (a ++ x)%string, (y ++ b)%string.
  rewrite Ha at 1. rewrite Hb at 1. rewrite Hxy.
  now rewrite !string_app_assoc.
Qed.

Lemma announcesReady_trim (data : string) :
  announcesReady (JS.trim data) = true -> announcesReady data = true.
Proof.
  unfold announcesReady. intros H. apply orb_true_iff in H.
  apply orb_true_iff. destruct H as [H|H]; [left | right]; now apply includes_trim.
Qed.

Lemma onStderrData_ready (st : State) (data : string) :
  isReady (fst (onStderrData st data)) =
  isReady st || announcesReady (JS.trim data).
Proof.
  unfold onStderrData, announcesReady. simpl.
  destruct (JS.includes (JS.trim data) "Server Running" || JS.includes (JS.trim data) "Connected");
    simpl; [now rewrite orb_true_r | now rewrite orb_false_r].
Qed.

Lemma string_length_app (a b : string) :
  String.length (a ++ b) = String.length a + String.length b.
Proof. induction a as [|c a IH]; simpl; [reflexivity | now rewrite IH]. Qed.

Lemma includes_length (s m : string) :
  JS.includes s m = true -> String.length m <= String.length s.
Proof.
  intros H. apply includes_occurs in H. destruct H as [a [b ->]].
  rewrite !string_length_app. lia.
Qed.

Lemma includes_whole (s m : string) :
  JS.includes s m = true -> String.length s <= String.length m -> m = s.
Proof.
  intros H Hlen. apply includes_occurs in H. destruct H as [a [b ->]].
  rewrite !string_length_app in Hlen.
  destruct a as [|c a]; [|simpl in Hlen; lia].
  destruct b as [|c b]; [|simpl in Hlen; lia].
  simpl. now rewrite string_app_nil_r.
Qed.

Lemma includes_refl (m : string) : JS.includes m m = true.
Proof.
  apply includes_occurs. exists ""%string, ""%string. simpl.
  now rewrite string_app_nil_r.
Qed.

(** No single marker accounts for the test of the [stderr] handler:
    whatever the marker, some text announces readiness without containing
    it, or contains it without announcing readiness. *)
Lemma no_single_marker (marker : string) :
  exists text, announcesReady text <> JS.includes text marker.
Proof.
  destruct (JS.includes "Connected" marker) eqn:E1;
    [|exists "Connected"%string; rewrite E1; discriminate].
  destruct (JS.includes "Server Running" marker) eqn:E2;
    [|exists "Server Running"%string; rewrite E2; discriminate].
  exists marker. rewrite includes_refl. intros H.
  unfold announcesReady in H. apply orb_true_iff in H.
  apply includes_length in E1 as L1. simpl in L1.
  destruct H as [H|H]; apply includes_length in H as L; simpl in L; [lia|].
  assert (marker = "Connected"%string) by (apply includes_whole; [assumption | simpl; lia]).
  subst marker. discriminate E2.
Qed.

Section Readiness.

Variable JSON_parse : string -> option json.

Lemma step_ready (st : State) (ev : Event) :
  isReady (fst (step JSON_parse st ev)) = true ->
  isReady st = true
  \/ exists data, ev = StderrData data /\ announcesReady data = true.
Proof.
  destruct ev as [|data|data|code|e|request w|ms|k]; simpl.
  - auto.
  - destruct (mcpProcess st); [|auto]. unfold onStdoutData.
    destruct (frame (buffer st) data) as [lines buf].
    destruct (dispatch JSON_parse (requestQueue st) lines) as [q effects]. auto.
  - destruct (mcpProcess st); [|auto].
    rewrite onStderrData_ready. intros H. apply orb_true_iff in H.
    destruct H as [H|H]; [auto|]. right. exists data. split; [reflexivity|].
    now apply announcesReady_trim.
  - destruct (mcpProcess st); [|auto]. simpl. discriminate.
  - auto.
  - unfold sendToMCP. simpl. destruct (mcpProcess st); [|auto].
    destruct (isReady st) eqn:E; [auto|]. simpl. now rewrite E.
  - auto.
  - unfold fireTimer. destruct (nth_error (timers st) k) as [t|]; [|auto].
    destruct (due t <=? clock st)%N; [|auto].
    destruct (callback t) as [i p|]; simpl; [|auto].
    unfold onTimeout. simpl. destruct (removeById (requestQueue st) i); auto.
Qed.

Lemma run_ready (events : list Event) :
  forall st,
    isReady (fst (run JSON_parse st events)) = true ->
    isReady st = true
    \/ exists data, In (StderrData data) events /\ announcesReady data = true.
Proof.
  induction events as [|ev events IH]; intros st; simpl; [auto|].
  destruct (step JSON_parse st ev) as [st1 e1] eqn:Hstep.
  specialize (IH st1).
  destruct (run JSON_parse st1 events) as [st2 e2]. simpl in *.
  intros H. destruct (IH H) as [H1 | [data [Hin Hdata]]].
  - pose proof (step_ready st ev) as Hs. rewrite Hstep in Hs. simpl in Hs.
    destruct (Hs H1) as [H0 | [data [-> Hdata]]]; [auto|].
    right. exists data. split; [now left | assumption].
  - right. exists data. split; [now right | assumption].
Qed.

(** C8, amended.  The relay is ready only after a chunk of diagnostic
    output in which one of the two markers, "Server Running" or
    "Connected", occurs: a chunk with neither leaves readiness as it is,
    and a run that ends ready has delivered a chunk with one of them. *)
Theorem ready_only_after_a_marker (st : State) (data : string) (events : list Event) :
  announcesReady data = false ->
  isReady (fst (run JSON_parse initial events)) = true ->
  isReady (fst (step JSON_parse st (StderrData data))) = isReady st
  /\ exists chunk, In (StderrData chunk) events /\ announcesReady chunk = true.
Proof.
  intros Hdata Hrun. split.
  - simpl. destruct (mcpProcess st); [|reflexivity].
    rewrite onStderrData_ready.
    destruct (announcesReady (JS.trim data)) eqn:E.
    + apply announcesReady_trim in E. congruence.
    + apply orb_false_r.
  - destruct (run_ready events initial Hrun) as [H|H]; [discriminate H | exact H].
Qed.

End Readiness.

(** ** Timers, entries and settlements, counted *)

Lemma armedIds_app (a b : list Timer) : armedIds (a ++ b) = armedIds a ++ armedIds b.
Proof.
  induction a as [|t a IH]; simpl; [reflexivity|].
  destruct (callback t); simpl; now rewrite IH.
Qed.

Lemma armed_app (a b : list Timer) (p : nat) : armed (a ++ b) p = armed a p || armed b p.
Proof. unfold armed. apply existsb_app. Qed.

Lemma armedIds_In (ts : list Timer) (i : Id) (p : nat) :
  In (Timeout i p) (map callback ts) -> In i (armedIds ts).
Proof.
  induction ts as [|t ts IH]; simpl; [auto|].
  intros [H|H].
  - rewrite H. now left.
  - destruct (callback t); [right|]; auto.
Qed.

Lemma armed_In (ts : list Timer) (i : Id) (p : nat) :
  In (Timeout i p) (map callback ts) -> armed ts p = true.
Proof.
  intros H. apply in_map_iff in H. destruct H as [t [Ht Hin]].
  unfold armed. apply existsb_exists. exists t. split; [assumption|].
  rewrite Ht. apply Nat.eqb_refl.
Qed.

Lemma nth_error_cut {A : Type} (l : list A) (k : nat) (x : A) :
  nth_error l k = Some x -> l = firstn k l ++ x :: skipn (S k) l.
Proof.
  revert k. induction l as [|y l IH]; intros [|k] H; simpl in *; try discriminate.
  - now inversion H.
  - f_equal. now apply IH.
Qed.

Lemma pendingCount_app (a b : list PendingRequest) (p : nat) :
  pendingCount (a ++ b) p = pendingCount a p + pendingCount b p.
Proof. unfold pendingCount. now rewrite filter_app, length_app. Qed.

Lemma pendingCount_cons (x : PendingRequest) (q : list PendingRequest) (p : nat) :
  pendingCount (x :: q) p = (if promise x =? p then 1 else 0) + pendingCount q p.
Proof. unfold pendingCount. simpl. destruct (promise x =? p); reflexivity. Qed.

Lemma pendingCount_In (q : list PendingRequest) (req : PendingRequest) :
  In req q -> 1 <= pendingCount q (promise req).
Proof.
  intros H. apply in_split in H. destruct H as [l1 [l2 ->]].
  rewrite pendingCount_app, pendingCount_cons, Nat.eqb_refl. lia.
Qed.

Lemma pendingCount_pos (q : list PendingRequest) (p : nat) :
  1 <= pendingCount q p -> exists req, In req q /\ promise req = p.
Proof.
  unfold pendingCount. induction q as [|x q IH]; simpl; [lia|].
  destruct (promise x =? p) eqn:E.
  - intros _. exists x. split; [now left | now apply Nat.eqb_eq].
  - intros H. destruct (IH H) as [req [Hin Hp]]. exists req. split; [now right | assumption].
Qed.

Lemma settled_one (e : Effect) (p : nat) :
  settled [e] p = match e with
                  | Resolve q _ | Reject q _ => if q =? p then 1 else 0
                  | _ => 0
                  end.
Proof.
  unfold settled, resolved, rejected. destruct e; simpl; try reflexivity;
    destruct (_ =? p); reflexivity.
Qed.

Lemma settled_rejections (q : list PendingRequest) (error : Error) (p : nat) :
  settled (map (fun req => Reject (promise req) error) q) p = pendingCount q p.
Proof.
  induction q as [|x q IH]; [reflexivity|].
  change (map (fun req => Reject (promise req) error) (x :: q))
    with ([Reject (promise x) error] ++ map (fun req => Reject (promise req) error) q).
  rewrite settled_app, IH, settled_one, pendingCount_cons. reflexivity.
Qed.

Section Sequences.

Variable JSON_parse : string -> option json.

Lemma run_app (a b : list Event) :
  forall st,
    run JSON_parse st (a ++ b) =
    (fst (run JSON_parse (fst (run JSON_parse st a)) b),
     snd (run JSON_parse st a) ++ snd (run JSON_parse (fst (run JSON_parse st a)) b)).
Proof.
  induction a as [|ev a IH]; intros st; simpl.
  - now destruct (run JSON_parse st b).
  - destruct (step JSON_parse st ev) as [st1 e1]. rewrite IH.
    destruct (run JSON_parse st1 a) as [st2 e2]. simpl.
    now rewrite app_assoc.
Qed.

Lemma run_elapse (delays : list N) :
  forall st,
    requestQueue (fst (run JSON_parse st (map Elapse delays))) = requestQueue st
    /\ timers (fst (run JSON_parse st (map Elapse delays))) = timers st
    /\ snd (run JSON_parse st (map Elapse delays)) = [].
Proof.
  induction delays as [|d delays IH]; intros st; simpl; [auto|].
  specialize (IH (withClock st (clock st + d)%N)).
  destruct (run JSON_parse (withClock st (clock st + d)%N) (map Elapse delays)).
  exact IH.
Qed.

Lemma sendToMCP_written (st : State) (request : Request) :
  ready st = true ->
  exists child,
    mcpProcess st = Some child
    /\ sendToMCP st request WriteOk =
       (setTimeout
          (withQueue (withPromises st (S (promises st)))
             (requestQueue st ++ [{| id := rid request; promise := promises st |}]))
          (Timeout (rid request) (promises st)) 30000,
        [Write child request]).
Proof.
  unfold ready, sendToMCP. simpl.
  destruct (mcpProcess st) as [child|]; [|discriminate].
  intros ->. exists child. split; reflexivity.
Qed.

End Sequences.

(** * The specification on the worked scenarios *)

(** The response line delivered in two pieces comes out once, whole. *)
Lemma framer_reassembles_split_line :
  frame "" Scenario.firstPiece = ([], Scenario.firstPiece)
  /\ frame Scenario.firstPiece (Scenario.secondPiece ++ String LF "")
     = ([Scenario.lineNumber], "")
  /\ frames "" [Scenario.firstPiece; (Scenario.secondPiece ++ String LF "")%string]
     = ([Scenario.lineNumber], "").
Proof.
  exact (proj2 (framer_emits_all_but_last
                  "" Scenario.lineOther Scenario.firstPiece Scenario.secondPiece
                  eq_refl eq_refl)).
Defined.

(** Blank lines, a log line, [null], an array and a response to an unknown
    identifier, with three requests pending. *)
Lemma blank_garbled_and_unmatched_lines_pass :
  let q := requestQueue Scenario.threePending in
  fst (dispatch Reader.parseJSON q
         [""; "   "; "listening on stdio"; "null"; "[1]"; Scenario.lineOther]) = q
  /\ fst (handleLine Reader.parseJSON q Scenario.lineOther) = q.
Proof.
  assert (Hother : passedOver Reader.parseJSON (requestQueue Scenario.threePending)
                     Scenario.lineOther).
  { right. right. exists (JObject [("id", JNumber 2)]). split; [reflexivity|].
    simpl. intros req [<-|[<-|[<-|[]]]]; reflexivity. }
  assert (Hall : Forall (passedOver Reader.parseJSON (requestQueue Scenario.threePending))
                   [""; "   "; "listening on stdio"; "null"; "[1]"; Scenario.lineOther]).
  { assert (Hblank : forall line, JS.trim line = "" ->
              passedOver Reader.parseJSON (requestQueue Scenario.threePending) line)
      by (intros line H; now left).
    assert (Hnull : passedOver Reader.parseJSON (requestQueue Scenario.threePending) "null")
      by (right; right; exists JNull; split; [reflexivity | exact I]).
    assert (Harray : passedOver Reader.parseJSON (requestQueue Scenario.threePending) "[1]").
    { right. right. exists (JArray [JNumber 1]). split; [reflexivity|].
      simpl. intros req [<-|[<-|[<-|[]]]]; reflexivity. }
    assert (Hlog : passedOver Reader.parseJSON (requestQueue Scenario.threePending)
                     "listening on stdio")
      by (right; left; reflexivity).
    apply Forall_cons; [apply Hblank; reflexivity|].
    apply Forall_cons; [apply Hblank; reflexivity|].
    apply Forall_cons; [exact Hlog|].
    apply Forall_cons; [exact Hnull|].
    apply Forall_cons; [exact Harray|].
    apply Forall_cons; [exact Hother|].
    apply Forall_nil. }
  destruct (passed_over_lines_keep_queue Reader.parseJSON _ _ _ Hother Hall)
    as [[Hline _] [Hlines _]].
  split; assumption.
Defined.

(** The requests 1 and "1" pending together, answered last first. *)
Lemma number_and_string_ids_resolve_apart :
  dispatch Reader.parseJSON
    [ {| id := IdNumber 1; promise := 0 |}; {| id := IdString "1"; promise := 1 |} ]
    [Scenario.lineString; Scenario.lineNumber]
  = ([], [Resolve 1 Scenario.responseString; Resolve 0 Scenario.responseNumber])
  /\ handleLine Reader.parseJSON
       [ {| id := IdNumber 1; promise := 0 |}; {| id := IdString "1"; promise := 1 |} ]
       Scenario.lineString
     = ([ {| id := IdNumber 1; promise := 0 |} ], [Resolve 1 Scenario.responseString])
  /\ handleLine Reader.parseJSON
       [ {| id := IdNumber 1; promise := 0 |}; {| id := IdString "1"; promise := 1 |} ]
       Scenario.lineNumber
     = ([ {| id := IdString "1"; promise := 1 |} ], [Resolve 0 Scenario.responseNumber]).
Proof.
  destruct (matching_is_strict Reader.parseJSON 1 "1" 0 1
              Scenario.lineNumber Scenario.lineString
              Scenario.responseNumber Scenario.responseString
              (requestQueue Scenario.threePending)
              eq_refl eq_refl eq_refl eq_refl eq_refl eq_refl)
    as [_ [_ [_ [_ [HS [HN [HSN _]]]]]]].
  split; [exact HSN | split; [exact HS | exact HN]].
Defined.

(** A submission before the child has announced itself. *)
Lemma starting_relay_rejects_submission :
  sendToMCP Scenario.starting Scenario.requestA WriteOk
  = (withPromises Scenario.starting 1, [Reject 0 notReady])
  /\ requestQueue (fst (sendToMCP Scenario.starting Scenario.requestA WriteOk)) = [].
Proof.
  destruct (not_ready_rejects_at_once Scenario.starting Scenario.requestA WriteOk eq_refl)
    as [_ [_ [Hq _]]].
  split; [reflexivity | exact Hq].
Defined.

(** The child exits with code 1 while three requests are pending. *)
Lemma three_pending_rejected_on_exit :
  snd (step Reader.parseJSON Scenario.threePending (Close (Some 1%Z)))
  = [Reject 0 processDied; Reject 1 processDied; Reject 2 processDied]
  /\ requestQueue (fst (step Reader.parseJSON Scenario.threePending (Close (Some 1%Z)))) = []
  /\ isReady (fst (step Reader.parseJSON Scenario.threePending (Close (Some 1%Z)))) = false
  /\ List.length (snd (step Reader.parseJSON Scenario.threePending (Close (Some 1%Z)))) = 3.
Proof.
  destruct (termination_rejects_all Reader.parseJSON Scenario.threePending 0 (Some 1%Z) eq_refl)
    as [Hready [_ [Heffects [_ [Hqueue [_ Hthree]]]]]].
  split; [exact Heffects | split; [exact Hqueue | split; [exact Hready|]]].
  exact (proj1 (Hthree eq_refl)).
Defined.

(** The write throws for the only request; its timeout, run on the state
    that the call leaves, does nothing. *)
Lemma failed_write_leaves_queue :
  let st := fst (run Reader.parseJSON initial Scenario.boot) in
  let st' := fst (sendToMCP st Scenario.requestA (WriteThrows Scenario.brokenPipe)) in
  snd (sendToMCP st Scenario.requestA (WriteThrows Scenario.brokenPipe))
  = [Reject 0 Scenario.brokenPipe]
  /\ requestQueue st' = []
  /\ onTimeout st' (IdString "a") 0 = (st', []).
Proof.
  destruct (write_failure_removes_entry
              (fst (run Reader.parseJSON initial Scenario.boot))
              Scenario.requestA Scenario.brokenPipe eq_refl eq_refl)
    as [Heffects [Hqueue [_ [_ [_ Htimeout]]]]].
  split; [exact Heffects | split; [exact Hqueue|]].
  exact (Htimeout
           (fst (sendToMCP (fst (run Reader.parseJSON initial Scenario.boot))
                   Scenario.requestA (WriteThrows Scenario.brokenPipe)))
           eq_refl).
Defined.

(** With an entry pending under the same identifier, the write failure
    removes that older entry and leaves the one just registered. *)
Lemma failed_write_removes_older_entry :
  let st := fst (run Reader.parseJSON initial
                   (Scenario.boot ++ [Submit Scenario.requestNumber WriteOk])) in
  requestQueue st = [ {| id := IdNumber 1; promise := 0 |} ]
  /\ ready st = true
  /\ snd (sendToMCP st Scenario.requestNumber (WriteThrows Scenario.brokenPipe))
     = [Reject 1 Scenario.brokenPipe]
  /\ requestQueue (fst (sendToMCP st Scenario.requestNumber
                          (WriteThrows Scenario.brokenPipe)))
     = [ {| id := IdNumber 1; promise := 1 |} ]
  /\ snd (run Reader.parseJSON initial Scenario.writeFailsUnderPendingId)
     = [ Spawn 0; ConsoleLog Scenario.serverRunning;
         Write 0 Scenario.requestNumber; Reject 1 Scenario.brokenPipe ].
Proof. vm_compute. repeat split. Qed.

(** Either marker makes the relay ready, in a chunk without the other. *)
Lemma either_marker_sets_ready :
  isReady Scenario.starting = false
  /\ JS.includes Scenario.databaseConnected "Server Running" = false
  /\ isReady (fst (step Reader.parseJSON Scenario.starting
                     (StderrData Scenario.databaseConnected))) = true
  /\ JS.includes Scenario.serverRunning "Connected" = false
  /\ isReady (fst (step Reader.parseJSON Scenario.starting
                     (StderrData Scenario.serverRunning))) = true.
Proof. vm_compute. repeat split. Qed.

(** A log chunk leaves the relay not ready; the boot sequence made it ready
    by a chunk with a marker. *)
Lemma ready_run_saw_a_marker :
  isReady (fst (step Reader.parseJSON Scenario.starting (StderrData "listening on stdio")))
  = false
  /\ exists chunk, In (StderrData chunk) Scenario.boot /\ announcesReady chunk = true.
Proof.
  exact (ready_only_after_a_marker Reader.parseJSON Scenario.starting
           "listening on stdio" Scenario.boot eq_refl eq_refl).
Defined.

(** C1.  A run in which exactly-once fails.  The identifier 1 is used again
    five seconds after the first request under it was answered: at both
    submissions the relay is ready and no entry is pending under 1.  The
    timeout of the first request, which its response did not cancel, runs
    thirty seconds after the first submission, finds the entry of the
    second request by its identifier, removes it and calls the failure
    continuation of the first.  The first request has both continuations
    called; the second has neither called, when its entry is removed or
    when its own timeout runs on the empty queue. *)
Lemma reused_id_breaks_exactly_once :
  let st := fst (run Reader.parseJSON initial Scenario.reusedAfterAnswer) in
  let effects := snd (run Reader.parseJSON initial Scenario.reusedAfterAnswer) in
  uniqueAmongPending Reader.parseJSON initial Scenario.reusedAfterAnswer = true
  /\ effects = [ Spawn 0; ConsoleLog Scenario.serverRunning;
                 Write 0 Scenario.requestNumber;
                 Resolve 0 Scenario.responseNumber;
                 Write 0 Scenario.requestNumber;
                 Reject 0 requestTimeout ]
  /\ resolved effects 0 = 1 /\ rejected effects 0 = 1
  /\ resolved effects 1 + rejected effects 1 = 0
  /\ requestQueue st = [] /\ timers st = [] /\ promises st = 2.
Proof. vm_compute. repeat split. Qed.

(** C6.  A run in which a registered request never times out.  The child
    dies with the request under "a" pending, which is rejected with the
    "process died" error; after the restart the request is submitted
    again under "a", ten seconds after the first, and registered.  No
    line arrives.  The timeout of the first request runs thirty seconds
    after the first submission, removes the entry of the second and calls
    the failure continuation of the first; the timeout of the second,
    due ten seconds later, finds nothing under "a": it leaves the queue
    as it is and rejects nothing, and neither continuation of the second
    request is ever called. *)
Lemma stale_timeout_evicts_new_request :
  let st := fst (run Reader.parseJSON initial Scenario.reusedAfterRestart) in
  let effects := snd (run Reader.parseJSON initial Scenario.reusedAfterRestart) in
  effects = [ Spawn 0; ConsoleLog Scenario.databaseConnected;
              Write 0 Scenario.requestA;
              Reject 0 processDied;
              Spawn 1; ConsoleLog Scenario.databaseConnected;
              Write 1 Scenario.requestA;
              Reject 0 requestTimeout ]
  /\ timers st = [ {| due := 40000; callback := Timeout (IdString "a") 1 |} ]
  /\ clock st = 40000%N
  /\ requestQueue st = []
  /\ fireTimer st 0 = (withTimers st [], [])
  /\ resolved effects 1 + rejected effects 1 = 0.
Proof. vm_compute. repeat split. Qed.

(** * Further properties of the relay *)

(** ** Framing depends on the text received alone *)

Lemma frame_from_empty (buf data : string) : frame buf data = frame "" (buf ++ data).
Proof. reflexivity. Qed.

Lemma split_unframe (lines : list string) (residue : string) :
  Forall (fun line => mentions LF line = false) lines ->
  mentions LF residue = false ->
  JS.split (unframe lines residue) LF = lines ++ [residue].
Proof.
  intros Hlines Hres. induction Hlines as [|line lines Hline _ IH]; simpl.
  - now apply split_segment.
  - rewrite (split_app_sep _ _ _ Hline). now rewrite IH.
Qed.

Lemma frame_of_text (lines : list string) (residue text : string) :
  Forall (fun line => mentions LF line = false) lines ->
  mentions LF residue = false ->
  text = unframe lines residue ->
  frame "" text = (lines, residue).
Proof.
  intros Hlines Hres ->. unfold frame.
  change ("" ++ unframe lines residue)%string with (unframe lines residue).
  rewrite (split_unframe _ _ Hlines Hres), pop_snoc.
  now rewrite orEmpty_some.
Qed.

(** X3.  Round trip: text made of terminator-free lines, each followed by a
    line feed, and of a terminator-free residue is framed back into exactly
    these lines and this residue, whatever is split between the buffer and
    the chunk. *)
Theorem frame_unframe (lines : list string) (residue buf data : string) :
  Forall (fun line => mentions LF line = false) lines ->
  mentions LF residue = false ->
  (buf ++ data)%string = unframe lines residue ->
  frame buf data = (lines, residue).
Proof.
  intros Hlines Hres Htext. rewrite frame_from_empty.
  now apply frame_of_text.
Qed.

Lemma frame_two_chunks (buf a b : string) :
  frame buf (a ++ b) =
  (fst (frame buf a) ++ fst (frame (snd (frame buf a)) b),
   snd (frame (snd (frame buf a)) b)).
Proof.
  destruct (frame_free buf a) as [Hl1 Hb1].
  destruct (frame_free (snd (frame buf a)) b) as [Hl2 Hb2].
  rewrite frame_from_empty. apply frame_of_text.
  - apply Forall_app. split; assumption.
  - assumption.
  - rewrite unframe_app, frame_conserves, unframe_residue_app, frame_conserves.
    now rewrite string_app_assoc.
Qed.

(** X1.  The framer depends on the text received, not on the pieces it
    came in: fed the texts of successive chunks one after the other, it
    extracts the lines and keeps the residue that it extracts and keeps
    when fed these texts joined into one.  The texts are those that
    [data.toString()] gives for each chunk on its own; how a sequence of
    bytes is decoded when cut in different places is outside the
    statement. *)
Theorem frames_chunking (buf data : string) (chunks : list string) :
  frames buf (data :: chunks) = frame buf (joined (data :: chunks)).
Proof.
  revert buf data. induction chunks as [|next chunks IH]; intros buf data.
  - simpl. rewrite string_app_nil_r. destruct (frame buf data) as [lines buf'].
    now rewrite app_nil_r.
  - change (frames buf (data :: next :: chunks))
      with (let (lines, buf') := frame buf data in
            let (more, final) := frames buf' (next :: chunks) in
            (lines ++ more, final)).
    change (joined (data :: next :: chunks))
      with (data ++ joined (next :: chunks))%string.
    rewrite frame_two_chunks.
    destruct (frame buf data) as [lines buf'] eqn:Hframe. simpl fst. simpl snd.
    rewrite IH. change (joined (next :: chunks)) with (next ++ joined chunks)%string.
    now destruct (frame buf' (next ++ joined chunks)).
Qed.

(** ** The loop over the lines *)

Lemma removeFirst_ext {A : Type} (p p' : A -> bool) (l : list A) :
  (forall x, p x = p' x) -> removeFirst p l = removeFirst p' l.
Proof.
  intros H. induction l as [|x l IH]; simpl; [reflexivity|].
  now rewrite H, IH.
Qed.

Lemma removeFirst_never {A : Type} (l : list A) :
  removeFirst (fun _ => false) l = None.
Proof. induction l as [|x l IH]; simpl; [reflexivity | now rewrite IH]. Qed.

Lemma removeFirst_first {A : Type} (p : A -> bool) (l1 l2 : list A) (x : A) :
  (forall y, In y l1 -> p y = false) -> p x = true ->
  removeFirst p (l1 ++ x :: l2) = Some (x, l1 ++ l2).
Proof.
  intros Hl1 Hx. induction l1 as [|y l1 IH]; simpl.
  - now rewrite Hx.
  - rewrite (Hl1 y (or_introl eq_refl)), IH; [reflexivity|].
    intros z Hz. apply Hl1. now right.
Qed.

Lemma firstMatch_cons {A : Type} (p : A -> bool) (x : A) (l : list A) :
  firstMatch p (x :: l) = if p x then Some x else firstMatch p l.
Proof.
  unfold firstMatch. simpl. destruct (p x); [reflexivity|].
  now destruct (removeFirst p l) as [[y rest]|].
Qed.

Lemma withoutFirst_cons {A : Type} (p : A -> bool) (x : A) (l : list A) :
  withoutFirst p (x :: l) = if p x then l else x :: withoutFirst p l.
Proof.
  unfold withoutFirst. simpl. destruct (p x); [reflexivity|].
  now destruct (removeFirst p l) as [[y rest]|].
Qed.

(** Two removals that never compete for an element commute, and each
    removes what it removes alone. *)
Lemma withoutFirst_swap {A : Type} (p1 p2 : A -> bool) (l : list A) :
  (forall x, In x l -> p1 x = true -> p2 x = false) ->
  withoutFirst p2 (withoutFirst p1 l) = withoutFirst p1 (withoutFirst p2 l)
  /\ firstMatch p2 (withoutFirst p1 l) = firstMatch p2 l
  /\ firstMatch p1 (withoutFirst p2 l) = firstMatch p1 l.
Proof.
  induction l as [|x l IH]; intros H; [repeat split|].
  destruct IH as [IH1 [IH2 IH3]].
  { intros y Hy. apply H. now right. }
  rewrite !withoutFirst_cons, !firstMatch_cons.
  destruct (p1 x) eqn:E1.
  - rewrite (H x (or_introl eq_refl) E1).
    rewrite withoutFirst_cons, firstMatch_cons, E1. repeat split.
  - destruct (p2 x) eqn:E2.
    + rewrite withoutFirst_cons, firstMatch_cons, E2. repeat split.
    + rewrite !withoutFirst_cons, !firstMatch_cons, E1, E2.
      rewrite IH1, IH2, IH3. repeat split.
Qed.

Section Lines.

Variable JSON_parse : string -> option json.

(** The loop body in terms of the entries that the line answers. *)
Lemma handleLine_answers (q : list PendingRequest) (line : string) :
  fst (handleLine JSON_parse q line) = withoutFirst (answers JSON_parse line) q
  /\ resolutions (snd (handleLine JSON_parse q line)) =
     match firstMatch (answers JSON_parse line) q, JSON_parse line with
     | Some request, Some response => [Resolve (promise request) response]
     | _, _ => []
     end.
Proof.
  rewrite !handleLine_eq. unfold withoutFirst, firstMatch, answers, resolutions.
  destruct (JS.truthy (JS.trim line)); simpl;
    [|rewrite removeFirst_never; split; reflexivity].
  destruct (JSON_parse line) as [response|];
    [|rewrite removeFirst_never; split; reflexivity].
  destruct (propId response) as [v|];
    [|rewrite removeFirst_never; split; [reflexivity | now destruct q]].
  destruct (removeFirst (fun req => strictEq (id req) v) q) as [[x rest]|];
    split; reflexivity.
Qed.

Lemma resolutions_app (a b : list Effect) :
  resolutions (a ++ b) = resolutions a ++ resolutions b.
Proof. apply filter_app. Qed.

(** X4.  The first match wins: when a line parses to a response whose [id]
    is strictly equal to the [id] of a pending entry and of no entry queued
    before it, that entry is resolved with the parsed response and taken
    out; the entries before and after it stay, in their order, also those
    after it under the same [id]. *)
Theorem first_match_is_resolved
  (l1 l2 : list PendingRequest) (x : PendingRequest) (line : string)
  (response : json) (v : option json) :
  JS.truthy (JS.trim line) = true ->
  JSON_parse line = Some response ->
  propId response = Some v ->
  strictEq (id x) v = true ->
  (forall req, In req l1 -> strictEq (id req) v = false) ->
  handleLine JSON_parse (l1 ++ x :: l2) line
  = (l1 ++ l2, [Resolve (promise x) response]).
Proof.
  intros Ht Hp Hv Hx Hl1. rewrite handleLine_eq, Ht, Hp, Hv. simpl.
  now rewrite (removeFirst_first (fun req => strictEq (id req) v) l1 l2 x Hl1 Hx).
Qed.

Lemma handleLine_sound (q : list PendingRequest) (line : string) (p : nat)
  (response : json) :
  In (Resolve p response) (snd (handleLine JSON_parse q line)) ->
  JSON_parse line = Some response
  /\ exists req v,
       In req q /\ promise req = p
       /\ propId response = Some v /\ strictEq (id req) v = true.
Proof.
  rewrite handleLine_eq.
  destruct (negb _); [intros []|].
  destruct (JSON_parse line) as [r|]; [|intros [H|[]]; discriminate].
  destruct (propId r) as [v|] eqn:Hv;
    [|destruct q; simpl; [intros [] | intros [H|[]]; discriminate]].
  destruct (removeFirst (fun req => strictEq (id req) v) q) as [[x rest]|] eqn:Hrm;
    [|intros []].
  intros [H|[]]. inversion H; subst.
  apply removeFirst_some in Hrm. destruct Hrm as [l1 [l2 [Hq [_ [Hx _]]]]].
  split; [reflexivity|]. exists x, v. repeat split; auto.
  rewrite Hq. apply in_elt.
Qed.

Lemma handleLine_subqueue (q : list PendingRequest) (line : string) (req : PendingRequest) :
  In req (fst (handleLine JSON_parse q line)) -> In req q.
Proof.
  rewrite handleLine_eq.
  destruct (negb _); [auto|].
  destruct (JSON_parse line) as [r|]; [|auto].
  destruct (propId r) as [v|]; [|auto].
  destruct (removeFirst (fun x => strictEq (id x) v) q) as [[x rest]|] eqn:Hrm; [|auto].
  apply removeFirst_some in Hrm. destruct Hrm as [l1 [l2 [-> [-> _]]]].
  simpl. intros H. apply in_app_or in H. apply in_or_app.
  destruct H; [now left | right; now right].
Qed.

Lemma dispatch_sound
  (lines : list string) (p : nat) (response : json) :
  forall q,
    In (Resolve p response) (snd (dispatch JSON_parse q lines)) ->
    exists line req v,
      In line lines /\ JSON_parse line = Some response
      /\ In req q /\ promise req = p
      /\ propId response = Some v /\ strictEq (id req) v = true.
Proof.
  induction lines as [|line lines IH]; intros q; simpl; [intros []|].
  pose proof (handleLine_sound q line p response) as Hone.
  pose proof (handleLine_subqueue q line) as Hsub.
  destruct (handleLine JSON_parse q line) as [q1 e1]. simpl in Hone, Hsub.
  specialize (IH q1). destruct (dispatch JSON_parse q1 lines) as [q2 e2]. simpl in *.
  intros H. apply in_app_or in H. destruct H as [H|H].
  - destruct (Hone H) as [Hparse [req [v [Hin [Hp [Hv Heq]]]]]].
    exists line, req, v. repeat split; auto.
  - destruct (IH H) as [l [req [v [Hl [Hparse [Hin [Hp [Hv Heq]]]]]]]].
    exists l, req, v. repeat split; auto.
Qed.

Lemma dispatch_subqueue (lines : list string) (req : PendingRequest) :
  forall q, In req (fst (dispatch JSON_parse q lines)) -> In req q.
Proof.
  induction lines as [|line lines IH]; intros q; simpl; [auto|].
  pose proof (handleLine_subqueue q line req) as H1.
  destruct (handleLine JSON_parse q line) as [q1 e1]. simpl in H1.
  specialize (IH q1). destruct (dispatch JSON_parse q1 lines) as [q2 e2]. simpl in *.
  auto.
Qed.

(** X5.  No caller is resolved with the response of another: whenever the
    loop over the lines resolves a promise with a value, that value was
    parsed from one of the lines, and its [id] is strictly equal to the
    [id] of an entry of that promise in the queue. *)
Theorem resolution_is_sound
  (q : list PendingRequest) (lines : list string) (p : nat) (response : json) :
  In (Resolve p response) (snd (dispatch JSON_parse q lines)) ->
  exists line req v,
    In line lines /\ JSON_parse line = Some response
    /\ In req q /\ promise req = p
    /\ propId response = Some v /\ strictEq (id req) v = true.
Proof.
  intros H. destruct (dispatch_sound lines p response q H)
    as [line [req [v [Hl [Hparse [Hin [Hp [Hv Heq]]]]]]]].
  exists line, req, v. repeat split; assumption.
Qed.

Lemma dispatch_two (q : list PendingRequest) (a b : string) :
  dispatch JSON_parse q [a; b] =
  (fst (handleLine JSON_parse (fst (handleLine JSON_parse q a)) b),
   snd (handleLine JSON_parse q a)
   ++ snd (handleLine JSON_parse (fst (handleLine JSON_parse q a)) b)).
Proof.
  simpl. destruct (handleLine JSON_parse q a) as [q1 e1]. simpl.
  destruct (handleLine JSON_parse q1 b) as [q2 e2]. simpl.
  now rewrite app_nil_r.
Qed.

(** X12.  Responses may arrive in either order: two lines that answer no
    common entry of the queue leave the same queue whichever comes first,
    and each resolves what it resolves when it comes alone.  Nothing is
    said of the console: a line that parses to [null] is logged when an
    entry is pending and is not when the queue is empty, so the log of
    the second line can depend on the first. *)
Theorem responses_commute (q : list PendingRequest) (a b : string) :
  (forall req, In req q ->
     answers JSON_parse a req = true -> answers JSON_parse b req = false) ->
  fst (dispatch JSON_parse q [a; b]) = fst (dispatch JSON_parse q [b; a])
  /\ resolutions (snd (dispatch JSON_parse q [a; b]))
     = resolutions (snd (handleLine JSON_parse q a))
       ++ resolutions (snd (handleLine JSON_parse q b))
  /\ resolutions (snd (dispatch JSON_parse q [b; a]))
     = resolutions (snd (handleLine JSON_parse q b))
       ++ resolutions (snd (handleLine JSON_parse q a)).
Proof.
  intros H.
  destruct (withoutFirst_swap _ _ q H) as [Hq [Hb Ha]].
  rewrite !dispatch_two. cbn [fst snd]. rewrite !resolutions_app.
  destruct (handleLine_answers q a) as [Fa Sa].
  destruct (handleLine_answers q b) as [Fb Sb].
  rewrite Fa, Fb.
  destruct (handleLine_answers (withoutFirst (answers JSON_parse a) q) b) as [Fab Sab].
  destruct (handleLine_answers (withoutFirst (answers JSON_parse b) q) a) as [Fba Sba].
  rewrite Hb in Sab. rewrite Ha in Sba.
  split; [|split].
  - rewrite Fab, Fba. exact Hq.
  - now rewrite Sab, Sb.
  - now rewrite Sba, Sa.
Qed.

Lemma dispatch_app (lines more : list string) :
  forall q,
    dispatch JSON_parse q (lines ++ more) =
    (fst (dispatch JSON_parse (fst (dispatch JSON_parse q lines)) more),
     snd (dispatch JSON_parse q lines)
     ++ snd (dispatch JSON_parse (fst (dispatch JSON_parse q lines)) more)).
Proof.
  induction lines as [|line lines IH]; intros q; simpl.
  - now destruct (dispatch JSON_parse q more).
  - destruct (handleLine JSON_parse q line) as [q1 e1]. rewrite IH.
    destruct (dispatch JSON_parse q1 lines) as [q2 e2]. simpl.
    now rewrite app_assoc.
Qed.

Lemma onStdoutData_two_chunks (st : State) (a b : string) :
  onStdoutData JSON_parse st (a ++ b) =
  (fst (onStdoutData JSON_parse (fst (onStdoutData JSON_parse st a)) b),
   snd (onStdoutData JSON_parse st a)
   ++ snd (onStdoutData JSON_parse (fst (onStdoutData JSON_parse st a)) b)).
Proof.
  destruct (onStdoutData_frames JSON_parse st a) as [_ Ea].
  destruct (onStdoutData_frames JSON_parse st (a ++ b)) as [_ Eab].
  rewrite Eab, Ea. simpl fst. simpl snd.
  destruct (onStdoutData_frames JSON_parse
              (withQueue (withBuffer st (snd (frame (buffer st) a)))
                 (fst (dispatch JSON_parse (requestQueue st) (fst (frame (buffer st) a)))))
              b) as [_ Eb].
  rewrite Eb. simpl. rewrite frame_two_chunks. simpl. rewrite dispatch_app. reflexivity.
Qed.

Lemma onStdoutData_child (st : State) (data : string) :
  mcpProcess (fst (onStdoutData JSON_parse st data)) = mcpProcess st.
Proof.
  destruct (onStdoutData_frames JSON_parse st data) as [_ E]. now rewrite E.
Qed.

Lemma step_stdout_two_chunks (st : State) (a b : string) :
  step JSON_parse st (StdoutData (a ++ b)) =
  (fst (step JSON_parse (fst (step JSON_parse st (StdoutData a))) (StdoutData b)),
   snd (step JSON_parse st (StdoutData a))
   ++ snd (step JSON_parse (fst (step JSON_parse st (StdoutData a))) (StdoutData b))).
Proof.
  cbn [step]. destruct (mcpProcess st) as [child|] eqn:Hchild.
  - rewrite onStdoutData_child, Hchild. apply onStdoutData_two_chunks.
  - cbn [fst snd]. now rewrite Hchild.
Qed.

Lemma run_cons (st : State) (ev : Event) (events : list Event) :
  run JSON_parse st (ev :: events) =
  (fst (run JSON_parse (fst (step JSON_parse st ev)) events),
   snd (step JSON_parse st ev)
   ++ snd (run JSON_parse (fst (step JSON_parse st ev)) events)).
Proof.
  cbn [run]. destruct (step JSON_parse st ev) as [st1 e1]. cbn [fst snd].
  now destruct (run JSON_parse st1 events).
Qed.

Lemma run_one (st : State) (ev : Event) :
  run JSON_parse st [ev] = step JSON_parse st ev.
Proof.
  rewrite run_cons. cbn [run fst snd]. rewrite app_nil_r.
  now destruct (step JSON_parse st ev).
Qed.

(** X2.  The [stdout] handler depends on the text received, not on the
    pieces it came in: chunks whose texts are delivered one after the
    other leave the relay in the state, and perform the effects in the
    order, of one chunk whose text is these texts joined.  The texts are
    those that [data.toString()] gives for each chunk on its own; how a
    sequence of bytes is decoded when cut in different places is outside
    the statement. *)
Theorem stdout_chunking (st : State) (data : string) (chunks : list string) :
  run JSON_parse st (map StdoutData (data :: chunks))
  = run JSON_parse st [StdoutData (joined (data :: chunks))].
Proof.
  revert st data. induction chunks as [|next chunks IH]; intros st data.
  - cbn [map joined]. now rewrite string_app_nil_r.
  - change (map StdoutData (data :: next :: chunks))
      with (StdoutData data :: map StdoutData (next :: chunks)).
    change (joined (data :: next :: chunks))
      with (data ++ joined (next :: chunks))%string.
    rewrite run_cons, IH, !run_one. symmetry. apply step_stdout_two_chunks.
Qed.

End Lines.

(** ** Invariants of every run *)

Section Runs.

Variable JSON_parse : string -> option json.

(** An invariant of the steps is an invariant of the runs. *)
Lemma run_invariant (P : State -> Prop) :
  (forall st ev, P st -> P (fst (step JSON_parse st ev))) ->
  forall events st, P st -> P (fst (run JSON_parse st events)).
Proof.
  intros Hstep events. induction events as [|ev events IH]; intros st H; simpl.
  - assumption.
  - specialize (Hstep st ev H). destruct (step JSON_parse st ev) as [st1 e1].
    specialize (IH st1 Hstep). now destruct (run JSON_parse st1 events).
Qed.

Lemma fireTimer_cases (st : State) (k : nat) :
  fireTimer st k = (st, [])
  \/ (exists t, nth_error (timers st) k = Some t /\ (due t <= clock st)%N
        /\ fireTimer st k =
           runCallback (withTimers st (firstn k (timers st) ++ skipn (S k) (timers st)))
                       (callback t)).
Proof.
  unfold fireTimer. destruct (nth_error (timers st) k) as [t|]; [|now left].
  destruct (due t <=? clock st)%N eqn:Hdue; [|now left].
  right. exists t. repeat split. now apply N.leb_le.
Qed.

Lemma step_child (st : State) (ev : Event) :
  mcpProcess st <> None -> mcpProcess (fst (step JSON_parse st ev)) <> None.
Proof.
  intros H. destruct ev as [|data|data|code|e|request w|ms|k]; simpl; try assumption;
    try discriminate.
  - destruct (mcpProcess st) eqn:E; [|congruence]. now rewrite onStdoutData_child, E.
  - destruct (mcpProcess st) eqn:E; [|congruence]. unfold onStderrData. simpl.
    destruct (_ || _); simpl; congruence.
  - destruct (mcpProcess st) eqn:E; [|congruence]. simpl. congruence.
  - unfold sendToMCP. simpl. destruct (mcpProcess st) eqn:E; [|congruence].
    destruct (isReady st); simpl; [|congruence].
    destruct w as [|error]; simpl; [congruence|].
    destruct (removeById _ _); simpl; congruence.
  - destruct (fireTimer_cases st k) as [->|[t [_ [_ ->]]]]; [assumption|].
    destruct (callback t) as [i p|]; simpl; [|discriminate].
    unfold onTimeout. simpl. destruct (removeById _ _); simpl; assumption.
Qed.

Lemma step_ready_child (st : State) (ev : Event) :
  (isReady st = true -> mcpProcess st <> None) ->
  isReady (fst (step JSON_parse st ev)) = true ->
  mcpProcess (fst (step JSON_parse st ev)) <> None.
Proof.
  intros H Hready.
  destruct (mcpProcess st) as [child|] eqn:Hchild.
  - apply step_child. congruence.
  - assert (Hnot : isReady st = false).
    { destruct (isReady st); [|reflexivity]. exfalso. now apply H. }
    destruct ev as [|data|data|code|e|request w|ms|k]; simpl in *;
      try discriminate; try (rewrite Hchild in *; simpl in *; congruence).
    + unfold sendToMCP in *. simpl in *. rewrite Hchild in *. simpl in *. congruence.
    + destruct (fireTimer_cases st k) as [E|[t [_ [_ E]]]]; rewrite E in *;
        simpl in *; [congruence|].
      destruct (callback t) as [i p|]; simpl in *; [|discriminate].
      unfold onTimeout in *. simpl in *.
      destruct (removeById _ _); simpl in *; congruence.
Qed.

Lemma run_ready_child (events : list Event) :
  isReady (fst (run JSON_parse initial events)) = true ->
  mcpProcess (fst (run JSON_parse initial events)) <> None.
Proof.
  apply (run_invariant (fun st => isReady st = true -> mcpProcess st <> None)).
  - intros st ev. apply step_ready_child.
  - discriminate.
Qed.

(** X7.  The relay is never ready without a child: in every state reached
    from the start, the two tests of readiness, [isReady] alone in the
    [/mcp] handler and [mcpProcess && isReady] in [sendToMCP], agree. *)
Theorem ready_needs_child (events : list Event) :
  ready (fst (run JSON_parse initial events))
  = isReady (fst (run JSON_parse initial events)).
Proof.
  pose proof (run_ready_child events) as H.
  unfold ready. destruct (mcpProcess _); [reflexivity|].
  destruct (isReady _); [|reflexivity]. exfalso. now apply H.
Qed.

(** X8.  [POST /mcp] in a state reached from the start: when the relay is
    not ready the caller gets the 503 reply at once and nothing else
    happens; when it is ready no reply is sent yet, the request is never
    refused as "not ready", and either the line is written to the current
    child or the caller's promise is rejected with the error of the write;
    in both cases the timeout is armed. *)
Theorem post_mcp_guard (events : list Event) (request : Request) (w : WriteOutcome) :
  let st := fst (run JSON_parse initial events) in
  if isReady st
  then exists child,
         mcpProcess st = Some child
         /\ snd (postMcp st request w) = None
         /\ snd (fst (postMcp st request w))
            = [match w with
               | WriteOk => Write child request
               | WriteThrows error => Reject (promises st) error
               end]
         /\ timers (fst (fst (postMcp st request w)))
            = timers st ++ [{| due := (clock st + 30000)%N;
                               callback := Timeout (rid request) (promises st) |}]
  else postMcp st request w = (st, [], Some replyNotReady).
Proof.
  intros st. pose proof (run_ready_child events) as H. fold st in H.
  unfold postMcp. destruct (isReady st) eqn:Hready; [|reflexivity].
  destruct (mcpProcess st) as [child|] eqn:Hchild; [|now exfalso; apply H].
  exists child. split; [reflexivity|].
  unfold sendToMCP. simpl. rewrite Hchild, Hready. simpl.
  destruct w as [|error]; simpl; [repeat split|].
  destruct (removeById _ _); repeat split.
Qed.



(** X9.  After the termination of the child nothing is accepted until a
    marker is seen again: whatever happens in between, as long as no chunk
    of diagnostic output carries a marker, the relay is not ready, [POST
    /mcp] answers 503 and [sendToMCP] rejects with "MCP not ready", without
    queueing. *)
Theorem closed_until_marker
  (st : State) (child : nat) (code : option Z) (between : list Event)
  (request : Request) (w : WriteOutcome) :
  mcpProcess st = Some child ->
  forallb silent between = true ->
  let st' := fst (run JSON_parse (fst (step JSON_parse st (Close code))) between) in
  isReady st' = false
  /\ postMcp st' request w = (st', [], Some replyNotReady)
  /\ snd (sendToMCP st' request w) = [Reject (promises st') notReady]
  /\ requestQueue (fst (sendToMCP st' request w)) = requestQueue st'.
Proof.
  intros Hchild Hsilent st'.
  assert (Hnot : isReady st' = false).
  { destruct (isReady st') eqn:E; [|reflexivity]. exfalso.
    destruct (run_ready JSON_parse between _ E) as [H|[data [Hin Hdata]]].
    - simpl in H. rewrite Hchild in H. discriminate H.
    - rewrite forallb_forall in Hsilent. specialize (Hsilent _ Hin).
      simpl in Hsilent. rewrite Hdata in Hsilent. discriminate. }
  split; [assumption|]. split; [unfold postMcp; now rewrite Hnot|].
  unfold sendToMCP. simpl. destruct (mcpProcess st'); [|split; reflexivity].
  rewrite Hnot. split; reflexivity.
Qed.

Lemma nth_error_snoc {A : Type} (l : list A) (x : A) :
  nth_error (l ++ [x]) (List.length l) = Some x.
Proof. induction l as [|y l IH]; simpl; [reflexivity | exact IH]. Qed.

Lemma firstn_snoc {A : Type} (l : list A) (x : A) :
  firstn (List.length l) (l ++ [x]) = l.
Proof. induction l as [|y l IH]; simpl; [reflexivity | now rewrite IH]. Qed.

Lemma skipn_snoc {A : Type} (l : list A) (x : A) :
  skipn (S (List.length l)) (l ++ [x]) = [].
Proof. induction l as [|y l IH]; simpl; [reflexivity | exact IH]. Qed.

Lemma fireTimer_last (st : State) (ts : list Timer) (t : Timer) :
  timers st = ts ++ [t] ->
  fireTimer st (List.length ts) =
  if (due t <=? clock st)%N then runCallback (withTimers st ts) (callback t)
  else (st, []).
Proof.
  intros H. unfold fireTimer. rewrite H, nth_error_snoc, firstn_snoc, skipn_snoc.
  now rewrite app_nil_r.
Qed.

(** X10.  The restart cycle: after the termination of child [n], the
    restart armed by the [close] handler does nothing before 1000 ms have
    passed; from then on it spawns child [n + 1] with an empty buffer,
    leaves the relay not ready with an empty queue, and is no longer
    pending. *)
Theorem restart_cycle (st : State) (child : nat) (code : option Z) (ms : N) :
  mcpProcess st = Some child ->
  run JSON_parse st [Close code; Elapse ms; TimerFires (List.length (timers st))]
  = if (1000 <=? ms)%N
    then ({| mcpProcess := Some (S child); requestQueue := []; isReady := false;
             buffer := ""; timers := timers st; clock := (clock st + ms)%N;
             promises := promises st |},
          map (fun req => Reject (promise req) processDied) (requestQueue st)
          ++ [Spawn (S child)])
    else ({| mcpProcess := Some child; requestQueue := []; isReady := false;
             buffer := buffer st;
             timers := timers st ++ [{| due := (clock st + 1000)%N; callback := Restart |}];
             clock := (clock st + ms)%N; promises := promises st |},
          map (fun req => Reject (promise req) processDied) (requestQueue st)).
Proof.
  intros Hchild.
  rewrite (run_cons JSON_parse st (Close code)).
  rewrite (run_cons JSON_parse _ (Elapse ms) [TimerFires (List.length (timers st))]).
  rewrite run_one. cbn [step]. rewrite Hchild.
  cbn [fst snd].
  rewrite (fireTimer_last _ (timers st) {| due := (clock st + 1000)%N; callback := Restart |})
    by reflexivity.
  cbn [due callback clock withClock fst onClose].
  assert (E : (clock st + 1000 <=? clock st + ms)%N = (1000 <=? ms)%N).
  { destruct (1000 <=? ms)%N eqn:H.
    - apply N.leb_le. apply N.leb_le in H. lia.
    - apply N.leb_gt. apply N.leb_gt in H. lia. }
  unfold setTimeout. cbn [clock withTimers withQueue withReady].
  rewrite E. destruct (1000 <=? ms)%N.
  - unfold runCallback, startMCPProcess. simpl. now rewrite Hchild.
  - rewrite app_nil_r. unfold withClock, withTimers, withQueue, withReady. simpl.
    now rewrite Hchild.
Qed.

Lemma spawns_app (a b : list Effect) :
  List.length (filter isSpawn (a ++ b))
  = List.length (filter isSpawn a) + List.length (filter isSpawn b).
Proof. now rewrite filter_app, length_app. Qed.

Lemma handleLine_spawns (q : list PendingRequest) (line : string) :
  filter isSpawn (snd (handleLine JSON_parse q line)) = [].
Proof.
  rewrite handleLine_eq. destruct (negb _); [reflexivity|].
  destruct (JSON_parse line) as [r|]; [|reflexivity].
  destruct (propId r) as [v|]; [|now destruct q].
  now destruct (removeFirst _ q) as [[x rest]|].
Qed.

Lemma dispatch_spawns (lines : list string) :
  forall q, filter isSpawn (snd (dispatch JSON_parse q lines)) = [].
Proof.
  induction lines as [|line lines IH]; intros q; simpl; [reflexivity|].
  pose proof (handleLine_spawns q line) as H1.
  destruct (handleLine JSON_parse q line) as [q1 e1]. simpl in H1.
  specialize (IH q1). destruct (dispatch JSON_parse q1 lines) as [q2 e2]. simpl in *.
  now rewrite filter_app, H1, IH.
Qed.

Lemma restarts_cut (a b : list Timer) (t : Timer) :
  List.length (filter isRestart (a ++ t :: b))
  = List.length (filter isRestart (a ++ b)) + (if isRestart t then 1 else 0).
Proof.
  rewrite !filter_app, !length_app. simpl. destruct (isRestart t); simpl; lia.
Qed.

Lemma step_spawns (st : State) (c : nat) (ev : Event) :
  mcpProcess st = Some c ->
  let st' := fst (step JSON_parse st ev) in
  let effects := snd (step JSON_parse st ev) in
  mcpProcess st' = Some (c + List.length (filter isSpawn effects))
  /\ List.length (filter isSpawn effects) + List.length (filter isRestart (timers st'))
     = List.length (filter isRestart (timers st)) + (if startsChild ev then 1 else 0).
Proof.
  intros Hchild.
  destruct ev as [|data|data|code|e|request w|ms|k]; cbn [step startsChild].
  - unfold startMCPProcess. rewrite Hchild. simpl. split; [f_equal; lia | lia].
  - rewrite Hchild. destruct (onStdoutData_frames JSON_parse st data) as [_ ->].
    simpl. rewrite dispatch_spawns. simpl. split; [now rewrite Nat.add_0_r | lia].
  - rewrite Hchild. unfold onStderrData. simpl.
    destruct (_ || _); simpl; (split; [now rewrite Nat.add_0_r | lia]).
  - rewrite Hchild. unfold onClose, setTimeout. simpl.
    assert (E : filter isSpawn (map (fun req => Reject (promise req) processDied)
                                   (requestQueue st)) = []).
    { induction (requestQueue st) as [|x q IH]; simpl; [reflexivity | exact IH]. }
    rewrite E. simpl. rewrite Nat.add_0_r. split; [assumption|].
    rewrite filter_app, length_app. simpl. lia.
  - simpl. rewrite Nat.add_0_r. split; [assumption | lia].
  - unfold sendToMCP. simpl. rewrite Hchild.
    destruct (isReady st); simpl.
    + destruct w as [|error]; simpl.
      * rewrite Nat.add_0_r. split; [assumption|].
        rewrite filter_app, length_app. simpl. lia.
      * rewrite Nat.add_0_r. destruct (removeById _ _); simpl;
          (split; [assumption|]); rewrite filter_app, length_app; simpl; lia.
    + rewrite Nat.add_0_r. split; [assumption | lia].
  - simpl. rewrite Nat.add_0_r. split; [assumption | lia].
  - unfold fireTimer. destruct (nth_error (timers st) k) as [t|] eqn:Hk;
      [|simpl; rewrite Nat.add_0_r; split; [assumption | lia]].
    destruct (due t <=? clock st)%N;
      [|simpl; rewrite Nat.add_0_r; split; [assumption | lia]].
    apply nth_error_cut in Hk.
    pose proof (restarts_cut (firstn k (timers st)) (skipn (S k) (timers st)) t) as Hcut.
    rewrite <- Hk in Hcut. clear Hk.
    set (rest := firstn k (timers st) ++ skipn (S k) (timers st)) in *.
    destruct (callback t) as [i p|] eqn:Ht; simpl.
    + assert (Hr : isRestart t = false) by (unfold isRestart; now rewrite Ht).
      rewrite Hr in Hcut.
      unfold onTimeout. simpl. destruct (removeById _ _); simpl;
        rewrite Nat.add_0_r; (split; [assumption | lia]).
    + assert (Hr : isRestart t = true) by (unfold isRestart; now rewrite Ht).
      rewrite Hr in Hcut.
      rewrite Hchild. simpl. split; [f_equal; lia | lia].
Qed.

(** X15.  No termination is lost and none is answered twice: along any
    run of a relay that has a child, the children spawned and the restarts
    still pending together number the restarts pending at the beginning
    plus the [listening] and [close] events of the run; children are
    numbered in the order they are spawned. *)
Theorem every_close_respawns_once (events : list Event) :
  forall (st : State) (c : nat),
    mcpProcess st = Some c ->
    let st' := fst (run JSON_parse st events) in
    let effects := snd (run JSON_parse st events) in
    mcpProcess st' = Some (c + List.length (filter isSpawn effects))
    /\ List.length (filter isSpawn effects) + List.length (filter isRestart (timers st'))
       = List.length (filter isRestart (timers st))
         + List.length (filter startsChild events).
Proof.
  induction events as [|ev events IH]; intros st c Hchild.
  - simpl. rewrite Nat.add_0_r. split; [assumption | lia].
  - rewrite run_cons. cbn [fst snd].
    destruct (step_spawns st c ev Hchild) as [H1 H2].
    destruct (IH _ _ H1) as [H3 H4].
    rewrite spawns_app. split.
    + rewrite H3. f_equal. lia.
    + simpl filter. destruct (startsChild ev); simpl List.length; lia.
Qed.

(** *** The queue does not outlive the timeouts *)

Lemma countId_app (a b : list PendingRequest) (i : Id) :
  countId (a ++ b) i = countId a i + countId b i.
Proof. unfold countId. now rewrite filter_app, length_app. Qed.

Lemma countId_cons (x : PendingRequest) (q : list PendingRequest) (i : Id) :
  countId (x :: q) i = (if idEq (id x) i then 1 else 0) + countId q i.
Proof. unfold countId. simpl. now destruct (idEq (id x) i). Qed.

Lemma countId_cut (l1 l2 : list PendingRequest) (x : PendingRequest) (i : Id) :
  countId (l1 ++ x :: l2) i = countId (l1 ++ l2) i + (if idEq (id x) i then 1 else 0).
Proof. rewrite !countId_app, countId_cons. lia. Qed.

Lemma countId_none (q : list PendingRequest) (i : Id) :
  (forall req, In req q -> idEq (id req) i = false) -> countId q i = 0.
Proof.
  induction q as [|x q IH]; intros H; [reflexivity|].
  rewrite countId_cons, (H x (or_introl eq_refl)), IH; [reflexivity|].
  intros req Hreq. apply H. now right.
Qed.

Lemma countArmed_cut (a b : list Timer) (t : Timer) (i : Id) :
  countArmed (a ++ t :: b) i
  = countArmed (a ++ b) i
    + match callback t with
      | Timeout j _ => if idEq j i then 1 else 0
      | Restart => 0
      end.
Proof.
  unfold countArmed. rewrite !armedIds_app. simpl.
  destruct (callback t) as [j p|]; rewrite !filter_app, !length_app; simpl;
    [destruct (idEq j i); simpl|]; lia.
Qed.

Lemma countArmed_snoc (ts : list Timer) (t : Timer) (i : Id) :
  countArmed (ts ++ [t]) i
  = countArmed ts i
    + match callback t with
      | Timeout j _ => if idEq j i then 1 else 0
      | Restart => 0
      end.
Proof. rewrite countArmed_cut. now rewrite app_nil_r. Qed.

Lemma countId_removeById (q q' : list PendingRequest) (j i : Id) :
  removeById q j = Some q' ->
  countId q i = countId q' i + (if idEq j i then 1 else 0).
Proof.
  rewrite removeById_removeFirst.
  destruct (removeFirst (fun req => idEq (id req) j) q) as [[x rest]|] eqn:Hrm;
    [|discriminate].
  simpl. intros H. inversion H; subst.
  apply removeFirst_some in Hrm. destruct Hrm as [l1 [l2 [-> [-> [Hx _]]]]].
  apply idEq_eq in Hx. subst j. apply countId_cut.
Qed.

Lemma countId_removeById_none (q : list PendingRequest) (j i : Id) :
  removeById q j = None -> idEq j i = true -> countId q i = 0.
Proof.
  rewrite removeById_removeFirst. intros H Hji. apply idEq_eq in Hji. subst i.
  apply countId_none. apply removeFirst_none.
  now destruct (removeFirst (fun req => idEq (id req) j) q).
Qed.

Lemma countId_handleLine (q : list PendingRequest) (line : string) (i : Id) :
  countId (fst (handleLine JSON_parse q line)) i <= countId q i.
Proof.
  rewrite handleLine_eq. destruct (negb _); [reflexivity|].
  destruct (JSON_parse line) as [r|]; [|reflexivity].
  destruct (propId r) as [v|]; [|now destruct q].
  destruct (removeFirst (fun req => strictEq (id req) v) q) as [[x rest]|] eqn:Hrm;
    [|reflexivity].
  apply removeFirst_some in Hrm. destruct Hrm as [l1 [l2 [-> [-> _]]]].
  simpl. rewrite countId_cut. lia.
Qed.

Lemma countId_dispatch (lines : list string) (i : Id) :
  forall q, countId (fst (dispatch JSON_parse q lines)) i <= countId q i.
Proof.
  induction lines as [|line lines IH]; intros q; simpl; [reflexivity|].
  pose proof (countId_handleLine q line i) as H1.
  destruct (handleLine JSON_parse q line) as [q1 e1]. simpl in H1.
  specialize (IH q1). destruct (dispatch JSON_parse q1 lines) as [q2 e2]. simpl in *.
  lia.
Qed.

Lemma step_bounded (st : State) (ev : Event) :
  (forall i, countId (requestQueue st) i <= countArmed (timers st) i) ->
  forall i, countId (requestQueue (fst (step JSON_parse st ev))) i
            <= countArmed (timers (fst (step JSON_parse st ev))) i.
Proof.
  intros H i. specialize (H i).
  destruct ev as [|data|data|code|e|request w|ms|k]; cbn [step]; try exact H.
  - destruct (mcpProcess st); [|exact H].
    destruct (onStdoutData_frames JSON_parse st data) as [_ ->]. simpl.
    pose proof (countId_dispatch (fst (frame (buffer st) data)) i (requestQueue st)). lia.
  - destruct (mcpProcess st); [|exact H]. unfold onStderrData. simpl.
    now destruct (_ || _).
  - destruct (mcpProcess st); [|exact H]. simpl. unfold countId. simpl. lia.
  - unfold sendToMCP. simpl. destruct (mcpProcess st); [|exact H].
    destruct (isReady st); simpl; [|exact H].
    destruct w as [|error]; simpl.
    + rewrite countId_app, countId_cons, countArmed_snoc. simpl.
      unfold countId at 2. simpl. lia.
    + pose proof (countId_app (requestQueue st)
                    [{| id := rid request; promise := promises st |}] i) as Happ.
      rewrite countId_cons in Happ. unfold countId at 3 in Happ. simpl in Happ.
      destruct (removeById _ _) as [q'|] eqn:Hrm; simpl; rewrite countArmed_snoc; simpl.
      * apply (countId_removeById _ _ _ i) in Hrm. lia.
      * lia.
  - destruct (fireTimer_cases st k) as [->|[t [Hk [_ ->]]]]; [exact H|].
    apply nth_error_cut in Hk.
    pose proof (countArmed_cut (firstn k (timers st)) (skipn (S k) (timers st)) t i) as Hcut.
    rewrite <- Hk in Hcut. clear Hk.
    set (rest := firstn k (timers st) ++ skipn (S k) (timers st)) in *.
    destruct (callback t) as [j p|]; simpl.
    + unfold onTimeout. simpl.
      destruct (removeById (requestQueue st) j) as [q'|] eqn:Hrm; simpl.
      * apply (countId_removeById _ _ _ i) in Hrm. lia.
      * destruct (idEq j i) eqn:Hji; [|lia].
        rewrite (countId_removeById_none _ _ _ Hrm Hji). lia.
    + lia.
Qed.

Lemma countId_pending (q : list PendingRequest) (i : Id) :
  countId q i = List.length (filter (fun j => idEq j i) (pendingIds q)).
Proof.
  unfold countId, pendingIds. induction q as [|x q IH]; simpl; [reflexivity|].
  destruct (idEq (id x) i); simpl; now rewrite IH.
Qed.

Lemma length_by_counts (A : list Id) :
  forall B : list Id,
    (forall i, List.length (filter (fun j => idEq j i) A)
               <= List.length (filter (fun j => idEq j i) B)) ->
    List.length A <= List.length B.
Proof.
  induction A as [|a A IH]; intros B H; simpl; [lia|].
  assert (Hin : In a B).
  { specialize (H a). simpl in H. rewrite idEq_refl in H. simpl in H.
    destruct (filter (fun j => idEq j a) B) as [|b F] eqn:HF; [simpl in H; lia|].
    assert (Hb : In b (filter (fun j => idEq j a) B)) by (rewrite HF; now left).
    apply filter_In in Hb. destruct Hb as [Hb Heq]. apply idEq_eq in Heq. now subst. }
  apply in_split in Hin. destruct Hin as [B1 [B2 ->]].
  rewrite length_app. simpl. rewrite Nat.add_succ_r, <- length_app.
  apply le_n_S. apply IH. intros i. specialize (H i).
  rewrite !filter_app, !length_app in *. simpl in H.
  destruct (idEq a i); simpl in H; lia.
Qed.

(** X6.  The queue does not outlive the timeouts: in every state reached
    from the start, whatever identifiers the callers use, the queue holds
    at most as many entries under an identifier as there are pending
    timeouts under it; the [queueSize] reported by [/health] is at most the
    number of pending timeouts, and is zero once none is pending. *)
Theorem queue_within_timeouts (events : list Event) :
  let st := fst (run JSON_parse initial events) in
  (forall i, countId (requestQueue st) i <= countArmed (timers st) i)
  /\ queueSize (health st) <= List.length (armedIds (timers st)).
Proof.
  intros st.
  assert (H : forall i, countId (requestQueue st) i <= countArmed (timers st) i).
  { apply (run_invariant
             (fun s => forall i, countId (requestQueue s) i <= countArmed (timers s) i)).
    - intros s ev. apply step_bounded.
    - intros i. apply Nat.le_refl. }
  split; [exact H|]. simpl.
  rewrite <- (length_map id (requestQueue st)). apply length_by_counts.
  intros i. specialize (H i). rewrite countId_pending in H. exact H.
Qed.

(** *** What holds whatever the identifiers *)

Lemma resolved_one (e : Effect) (p : nat) :
  resolved [e] p = match e with Resolve q _ => if q =? p then 1 else 0 | _ => 0 end.
Proof. unfold resolved. destruct e; simpl; try reflexivity. now destruct (_ =? p). Qed.

Lemma resolved_rejections (q : list PendingRequest) (error : Error) (p : nat) :
  resolved (map (fun req => Reject (promise req) error) q) p = 0.
Proof. unfold resolved. induction q as [|x q IH]; simpl; [reflexivity | exact IH]. Qed.

Lemma pendingCount_cut (l1 l2 : list PendingRequest) (x : PendingRequest) (p : nat) :
  pendingCount (l1 ++ x :: l2) p
  = pendingCount (l1 ++ l2) p + (if promise x =? p then 1 else 0).
Proof. rewrite !pendingCount_app, pendingCount_cons. lia. Qed.

Lemma pendingCount_removeById (q q' : list PendingRequest) (j : Id) (p : nat) :
  removeById q j = Some q' -> pendingCount q' p <= pendingCount q p.
Proof.
  rewrite removeById_removeFirst.
  destruct (removeFirst (fun req => idEq (id req) j) q) as [[x rest]|] eqn:Hrm;
    [|discriminate].
  simpl. intros H. inversion H; subst.
  apply removeFirst_some in Hrm. destruct Hrm as [l1 [l2 [-> [-> _]]]].
  rewrite pendingCount_cut. lia.
Qed.

Lemma handleLine_resolves (q : list PendingRequest) (line : string) (p : nat) :
  resolved (snd (handleLine JSON_parse q line)) p
  + pendingCount (fst (handleLine JSON_parse q line)) p
  = pendingCount q p.
Proof.
  rewrite handleLine_eq. destruct (negb _); [reflexivity|].
  destruct (JSON_parse line) as [r|]; [|reflexivity].
  destruct (propId r) as [v|]; [|now destruct q].
  destruct (removeFirst (fun req => strictEq (id req) v) q) as [[x rest]|] eqn:Hrm;
    [|reflexivity].
  apply removeFirst_some in Hrm. destruct Hrm as [l1 [l2 [-> [-> _]]]].
  simpl. rewrite resolved_one, pendingCount_cut. lia.
Qed.

Lemma dispatch_resolves (lines : list string) (p : nat) :
  forall q,
    resolved (snd (dispatch JSON_parse q lines)) p
    + pendingCount (fst (dispatch JSON_parse q lines)) p
    = pendingCount q p.
Proof.
  induction lines as [|line lines IH]; intros q; simpl; [reflexivity|].
  pose proof (handleLine_resolves q line p) as H1.
  destruct (handleLine JSON_parse q line) as [q1 e1]. simpl in H1.
  specialize (IH q1). destruct (dispatch JSON_parse q1 lines) as [q2 e2]. simpl in *.
  rewrite resolved_app. lia.
Qed.

(** One step: the calls of the success continuation and the entries of a
    promise, counted together, do not grow, except by the one entry of a
    promise that the step creates. *)
Lemma step_resolves (st : State) (ev : Event) (p : nat) :
  resolved (snd (step JSON_parse st ev)) p
  + pendingCount (requestQueue (fst (step JSON_parse st ev))) p
  <= pendingCount (requestQueue st) p
     + (if (promises st <=? p) && (p <? promises (fst (step JSON_parse st ev)))
        then 1 else 0)
  /\ promises st <= promises (fst (step JSON_parse st ev)).
Proof.
  destruct ev as [|data|data|code|e|request w|ms|k]; cbn [step].
  - simpl. split; lia.
  - destruct (mcpProcess st); [|simpl; split; lia].
    destruct (onStdoutData_frames JSON_parse st data) as [_ ->]. simpl.
    pose proof (dispatch_resolves (fst (frame (buffer st) data)) p (requestQueue st)).
    split; lia.
  - destruct (mcpProcess st); [|simpl; split; lia]. unfold onStderrData. simpl.
    destruct (_ || _); simpl; split; lia.
  - destruct (mcpProcess st); [|simpl; split; lia]. simpl.
    rewrite resolved_rejections. unfold pendingCount at 1. simpl. split; lia.
  - simpl. split; lia.
  - unfold sendToMCP. simpl. destruct (mcpProcess st); [|simpl; split; lia].
    destruct (isReady st); simpl; [|split; lia].
    assert (Hnew : pendingCount (requestQueue st ++ [{| id := rid request;
                                                        promise := promises st |}]) p
                   = pendingCount (requestQueue st) p
                     + (if promises st =? p then 1 else 0)).
    { rewrite pendingCount_app, pendingCount_cons.
      change (pendingCount [] p) with 0. cbn [promise]. lia. }
    assert (Hif : (if promises st =? p then 1 else 0)
                  = (if (promises st <=? p) && (p <? S (promises st)) then 1 else 0)).
    { destruct (promises st =? p) eqn:E1.
      - apply Nat.eqb_eq in E1. subst p.
        now rewrite Nat.leb_refl, (proj2 (Nat.ltb_lt _ _) (Nat.lt_succ_diag_r _)).
      - apply Nat.eqb_neq in E1.
        destruct (promises st <=? p) eqn:E2; [|reflexivity].
        apply Nat.leb_le in E2.
        assert (E3 : (p <? S (promises st)) = false) by (apply Nat.ltb_ge; lia).
        now rewrite E3. }
    destruct w as [|error]; simpl.
    + rewrite Hnew, Hif. split; lia.
    + destruct (removeById _ _) as [q'|] eqn:Hrm; simpl.
      * apply (pendingCount_removeById _ _ _ p) in Hrm. rewrite <- Hif. split; lia.
      * rewrite Hnew, Hif. split; lia.
  - simpl. split; lia.
  - destruct (fireTimer_cases st k) as [->|[t [_ [_ ->]]]]; [simpl; split; lia|].
    destruct (callback t) as [i q|]; simpl; [|split; lia].
    unfold onTimeout. simpl.
    destruct (removeById (requestQueue st) i) as [q'|] eqn:Hrm; simpl; [|split; lia].
    apply (pendingCount_removeById _ _ _ p) in Hrm. split; lia.
Qed.

Lemma run_resolves (events : list Event) (p : nat) :
  forall st,
    resolved (snd (run JSON_parse st events)) p
    + pendingCount (requestQueue (fst (run JSON_parse st events))) p
    <= pendingCount (requestQueue st) p
       + (if (promises st <=? p) && (p <? promises (fst (run JSON_parse st events)))
          then 1 else 0)
    /\ promises st <= promises (fst (run JSON_parse st events)).
Proof.
  induction events as [|ev events IH]; intros st.
  - simpl. split; lia.
  - rewrite run_cons. cbn [fst snd]. rewrite resolved_app.
    destruct (step_resolves st ev p) as [H1 M1].
    destruct (IH (fst (step JSON_parse st ev))) as [H2 M2].
    set (st1 := fst (step JSON_parse st ev)) in *.
    set (st2 := fst (run JSON_parse st1 events)) in *.
    split; [|lia].
    destruct (promises st <=? p) eqn:A; destruct (p <? promises st1) eqn:B;
      destruct (promises st1 <=? p) eqn:C; destruct (p <? promises st2) eqn:D;
      simpl in *;
      repeat match goal with
             | H : (_ <=? _) = true |- _ => apply Nat.leb_le in H
             | H : (_ <=? _) = false |- _ => apply Nat.leb_gt in H
             | H : (_ <? _) = true |- _ => apply Nat.ltb_lt in H
             | H : (_ <? _) = false |- _ => apply Nat.ltb_ge in H
             end; lia.
Qed.

(** X13.  Whatever identifiers the callers use, no caller is resolved
    twice: in every run from the start the success continuation of a
    promise is called at most once, never while an entry of the promise is
    queued, and no entry of the promise is queued after it. *)
Theorem resolved_at_most_once (events : list Event) (p : nat) :
  let st := fst (run JSON_parse initial events) in
  let effects := snd (run JSON_parse initial events) in
  resolved effects p <= 1
  /\ resolved effects p + pendingCount (requestQueue st) p <= 1.
Proof.
  intros st effects. destruct (run_resolves events p initial) as [H _].
  fold st in H. fold effects in H. change (pendingCount (requestQueue initial) p) with 0 in H.
  destruct (_ && _); lia.
Qed.

(** *** Time *)

Lemma step_clock (st : State) (ev : Event) :
  clock (fst (step JSON_parse st ev)) = (clock st + elapsed [ev])%N.
Proof.
  destruct ev as [|data|data|code|e|request w|ms|k]; cbn [step elapsed];
    rewrite ?N.add_0_r; try reflexivity.
  - destruct (mcpProcess st); [|reflexivity].
    now destruct (onStdoutData_frames JSON_parse st data) as [_ ->].
  - destruct (mcpProcess st); [|reflexivity]. unfold onStderrData. simpl.
    now destruct (_ || _).
  - now destruct (mcpProcess st).
  - unfold sendToMCP. simpl. destruct (mcpProcess st); [|reflexivity].
    destruct (isReady st); simpl; [|reflexivity].
    destruct w as [|error]; simpl; [reflexivity|]. now destruct (removeById _ _).
  - destruct (fireTimer_cases st k) as [->|[t [_ [_ ->]]]]; [reflexivity|].
    destruct (callback t) as [i p|]; simpl; [|reflexivity].
    unfold onTimeout. simpl. now destruct (removeById _ _).
Qed.

Lemma run_clock (events : list Event) :
  forall st, clock (fst (run JSON_parse st events)) = (clock st + elapsed events)%N.
Proof.
  induction events as [|ev events IH]; intros st.
  - simpl. now rewrite N.add_0_r.
  - rewrite run_cons. cbn [fst]. rewrite IH, step_clock.
    destruct ev; cbn [elapsed]; lia.
Qed.

Lemma in_cut {A : Type} (l : list A) (k : nat) (x : A) :
  In x (firstn k l ++ skipn (S k) l) -> In x l.
Proof.
  intros H. apply in_app_or in H. destruct H as [H|H].
  - rewrite <- (firstn_skipn k l). apply in_or_app. now left.
  - rewrite <- (firstn_skipn (S k) l). apply in_or_app. now right.
Qed.

(** The timers of a step: those before it, and the one that a submission
    arms for the promise it creates or the restart that a termination
    arms. *)
Lemma step_timers (st : State) (ev : Event) (t : Timer) :
  In t (timers (fst (step JSON_parse st ev))) ->
  In t (timers st)
  \/ (exists i, callback t = Timeout i (promises st)
               /\ due t = (clock st + 30000)%N
               /\ promises (fst (step JSON_parse st ev)) = S (promises st))
  \/ callback t = Restart.
Proof.
  destruct ev as [|data|data|code|e|request w|ms|k]; cbn [step]; auto.
  - destruct (mcpProcess st); [|auto].
    destruct (onStdoutData_frames JSON_parse st data) as [_ ->]. auto.
  - destruct (mcpProcess st); [|auto]. unfold onStderrData. simpl.
    destruct (_ || _); auto.
  - destruct (mcpProcess st); [|auto]. simpl. intros H. apply in_app_or in H.
    destruct H as [H|[<-|[]]]; auto.
  - unfold sendToMCP. simpl. destruct (mcpProcess st); [|auto].
    destruct (isReady st); simpl; [|auto].
    assert (Hnew : forall ts, In t (ts ++ [{| due := (clock st + 30000)%N;
                                              callback := Timeout (rid request) (promises st) |}]) ->
                     In t ts \/ t = {| due := (clock st + 30000)%N;
                                       callback := Timeout (rid request) (promises st) |}).
    { intros ts H. apply in_app_or in H. destruct H as [H|[<-|[]]]; auto. }
    destruct w as [|error]; simpl.
    + intros H. destruct (Hnew _ H) as [H'| ->]; [auto|].
      right. left. exists (rid request). auto.
    + destruct (removeById _ _); simpl; intros H;
        (destruct (Hnew _ H) as [H'| ->]; [auto|]);
        right; left; exists (rid request); auto.
  - destruct (fireTimer_cases st k) as [->|[u [_ [_ ->]]]]; [auto|].
    destruct (callback u) as [i p|]; simpl.
    + unfold onTimeout. simpl. destruct (removeById _ _); simpl;
        intros H; left; now apply in_cut in H.
    + intros H. left. now apply in_cut in H.
Qed.

Lemma step_promises (st : State) (ev : Event) :
  promises st <= promises (fst (step JSON_parse st ev)).
Proof. now destruct (step_resolves st ev 0). Qed.

(** Every pending timeout belongs to a promise already created. *)
Lemma step_timers_born (st : State) (ev : Event) :
  (forall t i q, In t (timers st) -> callback t = Timeout i q -> q < promises st) ->
  forall t i q,
    In t (timers (fst (step JSON_parse st ev))) ->
    callback t = Timeout i q -> q < promises (fst (step JSON_parse st ev)).
Proof.
  intros H t i q Hin Hcb. pose proof (step_promises st ev) as Hmono.
  destruct (step_timers st ev t Hin) as [Hold|[[j [Hj [_ Hnext]]]|Hr]].
  - specialize (H t i q Hold Hcb). lia.
  - rewrite Hj in Hcb. inversion Hcb; subst. lia.
  - congruence.
Qed.

Lemma dispatch_rejects_nothing (lines : list string) (p : nat) (error : Error) :
  forall q, ~ In (Reject p error) (snd (dispatch JSON_parse q lines)).
Proof.
  induction lines as [|line lines IH]; intros q; simpl; [auto|].
  assert (H1 : ~ In (Reject p error) (snd (handleLine JSON_parse q line))).
  { rewrite handleLine_eq. destruct (negb _); [auto|].
    destruct (JSON_parse line) as [r|]; [|intros [H|[]]; discriminate].
    destruct (propId r) as [v|];
      [|destruct q; simpl; [intros [] | intros [H|[]]; discriminate]].
    destruct (removeFirst _ q) as [[x rest]|]; [|auto].
    intros [H|[]]; discriminate. }
  destruct (handleLine JSON_parse q line) as [q1 e1]. simpl in H1.
  specialize (IH q1). destruct (dispatch JSON_parse q1 lines) as [q2 e2]. simpl in *.
  intros H. apply in_app_or in H. tauto.
Qed.

(** A timeout rejection of promise [p] comes from a timeout of [p] that is
    due. *)
Lemma step_timeout_due (st : State) (ev : Event) (p : nat) :
  p < promises st ->
  In (Reject p requestTimeout) (snd (step JSON_parse st ev)) ->
  exists t i, In t (timers st) /\ callback t = Timeout i p /\ (due t <= clock st)%N.
Proof.
  intros Hp.
  destruct ev as [|data|data|code|e|request w|ms|k]; cbn [step].
  - intros [H|[]]; discriminate.
  - destruct (mcpProcess st); [|intros []].
    destruct (onStdoutData_frames JSON_parse st data) as [_ ->]. simpl.
    intros H. now apply dispatch_rejects_nothing in H.
  - destruct (mcpProcess st); [|intros []]. intros [H|[]]; discriminate.
  - destruct (mcpProcess st); [|intros []]. simpl. intros H.
    apply in_map_iff in H. destruct H as [req [H _]]. discriminate.
  - intros [].
  - unfold sendToMCP. simpl. destruct (mcpProcess st).
    + destruct (isReady st); simpl.
      * destruct w as [|error]; simpl; intros [H|[]]; [discriminate|].
        inversion H; lia.
      * intros [H|[]]. inversion H; lia.
    + intros [H|[]]. inversion H; lia.
  - intros [].
  - unfold fireTimer. destruct (nth_error (timers st) k) as [t|] eqn:Hk; [|intros []].
    destruct (due t <=? clock st)%N eqn:Hdue; [|intros []].
    apply N.leb_le in Hdue. apply nth_error_In in Hk.
    destruct (callback t) as [i q|] eqn:Hcb; simpl.
    + unfold onTimeout. simpl. destruct (removeById _ _); simpl; [|intros []].
      intros [H|[]]. inversion H; subst. exists t, i. auto.
    + intros [H|[]]. discriminate.
Qed.

Lemma run_timeout_due (events : list Event) (p : nat) (D : N) :
  forall st,
    p < promises st ->
    (forall t i, In t (timers st) -> callback t = Timeout i p -> due t = D) ->
    In (Reject p requestTimeout) (snd (run JSON_parse st events)) ->
    (D <= clock st + elapsed events)%N.
Proof.
  induction events as [|ev events IH]; intros st Hp HD; [intros []|].
  rewrite run_cons. cbn [snd]. intros H. apply in_app_or in H.
  assert (Hsplit : elapsed (ev :: events) = (elapsed [ev] + elapsed events)%N)
    by (destruct ev; cbn [elapsed]; lia).
  destruct H as [H|H].
  - destruct (step_timeout_due st ev p Hp H) as [t [i [Hin [Hcb Hdue]]]].
    rewrite (HD t i Hin Hcb) in Hdue. lia.
  - pose proof (step_promises st ev) as Hmono.
    apply IH in H.
    + rewrite step_clock in H. rewrite Hsplit. lia.
    + lia.
    + intros t i Hin Hcb.
      destruct (step_timers st ev t Hin) as [Hold|[[j [Hj _]]|Hr]].
      * now apply (HD t i).
      * rewrite Hj in Hcb. inversion Hcb. lia.
      * congruence.
Qed.

(** X11.  No request is timed out early: whatever the run, if the promise
    that a call of [sendToMCP] creates is later rejected with "Request
    timeout", at least 30000 ms have passed since the call. *)
Theorem timeout_takes_thirty_seconds
  (before after : list Event) (request : Request) (w : WriteOutcome) :
  let st0 := fst (run JSON_parse initial before) in
  let st1 := fst (step JSON_parse st0 (Submit request w)) in
  In (Reject (promises st0) requestTimeout) (snd (run JSON_parse st1 after)) ->
  (30000 <= elapsed after)%N.
Proof.
  intros st0 st1 H.
  assert (Hborn : forall t i q, In t (timers st0) -> callback t = Timeout i q ->
                                q < promises st0).
  { apply (run_invariant
             (fun s => forall t i q, In t (timers s) -> callback t = Timeout i q ->
                                     q < promises s)).
    - intros s ev. apply step_timers_born.
    - intros t i q []. }
  assert (Hp : promises st0 < promises st1).
  { unfold st1. cbn [step]. unfold sendToMCP. simpl.
    destruct (mcpProcess st0); [|simpl; lia].
    destruct (isReady st0); simpl; [|lia].
    destruct w as [|error]; simpl; [lia|]. destruct (removeById _ _); simpl; lia. }
  apply (run_timeout_due after (promises st0) (clock st0 + 30000)%N st1 Hp) in H.
  - unfold st1 in H. rewrite step_clock in H. cbn [elapsed] in H. lia.
  - intros t i Hin Hcb.
    destruct (step_timers st0 (Submit request w) t Hin) as [Hold|[[j [_ [Hdue _]]]|Hr]].
    + specialize (Hborn t i _ Hold Hcb). lia.
    + exact Hdue.
    + congruence.
Qed.

End Runs.

(** ** Callers and their entries *)

Lemma increasing_app (l1 l2 : list nat) :
  increasing (l1 ++ l2) <->
  increasing l1 /\ increasing l2 /\ (forall x y, In x l1 -> In y l2 -> x < y).
Proof.
  induction l1 as [|a l1 IH]; simpl.
  - split; [intros H; repeat split; auto; intros x y [] | tauto].
  - rewrite Forall_app, IH. split.
    + intros [[H1 H2] [H3 [H4 H5]]]. repeat split; auto.
      intros x y [<-|Hx] Hy; [|now apply H5].
      rewrite Forall_forall in H2. now apply H2.
    + intros [[H1 H2] [H3 H4]]. repeat split; auto.
      apply Forall_forall. intros y Hy. apply H4; [now left | assumption].
Qed.

Lemma removeById_cut (q q' : list PendingRequest) (j : Id) :
  removeById q j = Some q' ->
  exists l1 l2 x, q = l1 ++ x :: l2 /\ q' = l1 ++ l2 /\ id x = j.
Proof.
  rewrite removeById_removeFirst.
  destruct (removeFirst (fun req => idEq (id req) j) q) as [[x rest]|] eqn:Hrm;
    [|discriminate].
  simpl. intros H. inversion H; subst.
  apply removeFirst_some in Hrm. destruct Hrm as [l1 [l2 [-> [-> [Hx _]]]]].
  apply idEq_eq in Hx. now exists l1, l2, x.
Qed.

(** The queue in order of submission, below the next promise. *)
Lemma ordered_cut (n : nat) (l1 l2 : list PendingRequest) (x : PendingRequest) :
  increasing (map promise (l1 ++ x :: l2))
  /\ Forall (fun req => promise req < n) (l1 ++ x :: l2) ->
  increasing (map promise (l1 ++ l2))
  /\ Forall (fun req => promise req < n) (l1 ++ l2).
Proof.
  rewrite !map_app, !Forall_app, !increasing_app. simpl.
  intros [[H1 [[H2 H3] H4]] [H5 H6]]. inversion H6; subst.
  split; [split; [assumption | split; [assumption|]] | split; assumption].
  intros a b Ha Hb. apply H4; [assumption | now right].
Qed.

Lemma ordered_snoc (n : nat) (q : list PendingRequest) (i : Id) :
  increasing (map promise q) /\ Forall (fun req => promise req < n) q ->
  increasing (map promise (q ++ [{| id := i; promise := n |}]))
  /\ Forall (fun req => promise req < S n) (q ++ [{| id := i; promise := n |}]).
Proof.
  intros [H1 H2]. rewrite map_app, Forall_app, increasing_app. simpl.
  repeat split; auto.
  - intros a b Ha [<-|[]]. apply in_map_iff in Ha. destruct Ha as [req [<- Hreq]].
    rewrite Forall_forall in H2. now apply H2.
  - eapply Forall_impl; [|exact H2]. simpl. intros req Hreq. lia.
Qed.

Section Callers.

Variable JSON_parse : string -> option json.

Lemma step_ordered (st : State) (ev : Event) :
  increasing (map promise (requestQueue st))
  /\ Forall (fun req => promise req < promises st) (requestQueue st) ->
  increasing (map promise (requestQueue (fst (step JSON_parse st ev))))
  /\ Forall (fun req => promise req < promises (fst (step JSON_parse st ev)))
            (requestQueue (fst (step JSON_parse st ev))).
Proof.
  intros H.
  assert (Hline : forall line q n,
            increasing (map promise q) /\ Forall (fun req => promise req < n) q ->
            increasing (map promise (fst (handleLine JSON_parse q line)))
            /\ Forall (fun req => promise req < n) (fst (handleLine JSON_parse q line))).
  { intros line q n Hq. rewrite handleLine_eq. destruct (negb _); [auto|].
    destruct (JSON_parse line) as [r|]; [|auto].
    destruct (propId r) as [v|]; [|auto].
    destruct (removeFirst _ q) as [[x rest]|] eqn:Hrm; [|auto].
    apply removeFirst_some in Hrm. destruct Hrm as [l1 [l2 [-> [-> _]]]].
    now apply ordered_cut in Hq. }
  assert (Hlines : forall lines q n,
            increasing (map promise q) /\ Forall (fun req => promise req < n) q ->
            increasing (map promise (fst (dispatch JSON_parse q lines)))
            /\ Forall (fun req => promise req < n) (fst (dispatch JSON_parse q lines))).
  { induction lines as [|line lines IH]; intros q n Hq; simpl; [auto|].
    pose proof (Hline line q n Hq) as H1.
    destruct (handleLine JSON_parse q line) as [q1 e1]. simpl in H1.
    specialize (IH q1 n H1).
    now destruct (dispatch JSON_parse q1 lines) as [q2 e2]. }
  assert (Hid : forall q q' j n,
            removeById q j = Some q' ->
            increasing (map promise q) /\ Forall (fun req => promise req < n) q ->
            increasing (map promise q') /\ Forall (fun req => promise req < n) q').
  { intros q q' j n Hrm Hq. apply removeById_cut in Hrm.
    destruct Hrm as [l1 [l2 [x [-> [-> _]]]]]. now apply ordered_cut in Hq. }
  destruct ev as [|data|data|code|e|request w|ms|k]; cbn [step]; try exact H.
  - destruct (mcpProcess st); [|exact H].
    destruct (onStdoutData_frames JSON_parse st data) as [_ ->]. simpl.
    now apply Hlines.
  - destruct (mcpProcess st); [|exact H]. unfold onStderrData. simpl.
    now destruct (_ || _).
  - destruct (mcpProcess st); [|exact H]. simpl. split; constructor.
  - unfold sendToMCP. simpl.
    assert (Hmono : increasing (map promise (requestQueue st))
                    /\ Forall (fun req => promise req < S (promises st)) (requestQueue st)).
    { destruct H as [H1 H2]. split; [assumption|].
      eapply Forall_impl; [|exact H2]. simpl. intros req Hreq. lia. }
    destruct (mcpProcess st); [|exact Hmono].
    destruct (isReady st); simpl; [|exact Hmono].
    pose proof (ordered_snoc _ _ (rid request) H) as Hnew.
    destruct w as [|error]; simpl; [exact Hnew|].
    destruct (removeById _ _) as [q'|] eqn:Hrm; simpl; [|exact Hnew].
    now apply (Hid _ _ _ _ Hrm).
  - destruct (fireTimer_cases st k) as [->|[t [_ [_ ->]]]]; [exact H|].
    destruct (callback t) as [i p|]; simpl; [|exact H].
    unfold onTimeout. simpl.
    destruct (removeById (requestQueue st) i) as [q'|] eqn:Hrm; simpl; [|exact H].
    now apply (Hid _ _ _ _ Hrm).
Qed.

Lemma run_ordered (events : list Event) :
  increasing (map promise (requestQueue (fst (run JSON_parse initial events))))
  /\ Forall (fun req => promise req < promises (fst (run JSON_parse initial events)))
            (requestQueue (fst (run JSON_parse initial events))).
Proof.
  apply (run_invariant JSON_parse
           (fun s => increasing (map promise (requestQueue s))
                     /\ Forall (fun req => promise req < promises s) (requestQueue s))).
  - intros s ev. apply step_ordered.
  - split; constructor.
Qed.

(** X16.  The queue is in order of submission: in every state reached from
    the start, the promises of the queued entries, numbered in the order of
    the calls of [sendToMCP], strictly increase along the queue and are all
    promises already created; no caller is queued twice. *)
Theorem queue_in_submission_order (events : list Event) :
  let st := fst (run JSON_parse initial events) in
  increasing (map promise (requestQueue st))
  /\ Forall (fun req => promise req < promises st) (requestQueue st)
  /\ NoDup (requestQueue st).
Proof.
  intros st. destruct (run_ordered events) as [Hinc Hbelow]. fold st in Hinc, Hbelow.
  split; [assumption | split; [assumption|]].
  apply (NoDup_map_inv promise).
  clear Hbelow. induction (map promise (requestQueue st)) as [|x l IH].
  - constructor.
  - destruct Hinc as [Hx Hl]. constructor; [|now apply IH].
    intros Hin. rewrite Forall_forall in Hx. specialize (Hx x Hin). lia.
Qed.

(** Where the entries of the queue come from. *)
Lemma step_queue_source (st : State) (ev : Event) (req : PendingRequest) :
  In req (requestQueue (fst (step JSON_parse st ev))) ->
  In req (requestQueue st)
  \/ exists request w,
       ev = Submit request w /\ req = {| id := rid request; promise := promises st |}.
Proof.
  assert (Hid : forall q q' j, removeById q j = Some q' -> In req q' -> In req q).
  { intros q q' j Hrm Hin. apply removeById_cut in Hrm.
    destruct Hrm as [l1 [l2 [x [-> [-> _]]]]].
    apply in_app_or in Hin. apply in_or_app. destruct Hin; [now left | right; now right]. }
  destruct ev as [|data|data|code|e|request w|ms|k]; cbn [step]; auto.
  - destruct (mcpProcess st); [|auto].
    destruct (onStdoutData_frames JSON_parse st data) as [_ ->]. simpl.
    intros H. left. now apply dispatch_subqueue in H.
  - destruct (mcpProcess st); [|auto]. unfold onStderrData. simpl.
    destruct (_ || _); auto.
  - destruct (mcpProcess st); [|auto]. simpl. intros [].
  - unfold sendToMCP. simpl. destruct (mcpProcess st); [|auto].
    destruct (isReady st); simpl; [|auto].
    assert (Hnew : In req (requestQueue st ++ [{| id := rid request; promise := promises st |}]) ->
                   In req (requestQueue st)
                   \/ exists request0 w0,
                        Submit request w = Submit request0 w0
                        /\ req = {| id := rid request0; promise := promises st |}).
    { intros H. apply in_app_or in H. destruct H as [H|[<-|[]]]; [now left|].
      right. now exists request, w. }
    destruct w as [|error]; simpl; [exact Hnew|].
    destruct (removeById _ _) as [q'|] eqn:Hrm; simpl; [|exact Hnew].
    intros H. apply Hnew. now apply (Hid _ _ _ Hrm).
  - destruct (fireTimer_cases st k) as [->|[t [_ [_ ->]]]]; [auto|].
    destruct (callback t) as [i p|]; simpl; [|auto].
    unfold onTimeout. simpl.
    destruct (removeById (requestQueue st) i) as [q'|] eqn:Hrm; simpl; [|auto].
    intros H. left. now apply (Hid _ _ _ Hrm).
Qed.

Lemma step_resolve_source (st : State) (ev : Event) (p : nat) (response : json) :
  In (Resolve p response) (snd (step JSON_parse st ev)) ->
  exists req v,
    In req (requestQueue st) /\ promise req = p
    /\ propId response = Some v /\ strictEq (id req) v = true.
Proof.
  destruct ev as [|data|data|code|e|request w|ms|k]; cbn [step].
  - intros [H|[]]; discriminate.
  - destruct (mcpProcess st); [|intros []].
    destruct (onStdoutData_frames JSON_parse st data) as [_ ->]. simpl. intros H.
    destruct (dispatch_sound JSON_parse _ _ _ _ H)
      as [line [req [v [_ [_ [Hin [Hp [Hv Heq]]]]]]]].
    now exists req, v.
  - destruct (mcpProcess st); [|intros []]. intros [H|[]]; discriminate.
  - destruct (mcpProcess st); [|intros []]. simpl. intros H.
    apply in_map_iff in H. destruct H as [req [H _]]. discriminate.
  - intros [].
  - unfold sendToMCP. simpl. destruct (mcpProcess st); [|intros [H|[]]; discriminate].
    destruct (isReady st); simpl; [|intros [H|[]]; discriminate].
    destruct w as [|error]; simpl; intros [H|[]]; discriminate.
  - intros [].
  - destruct (fireTimer_cases st k) as [->|[t [_ [_ ->]]]]; [intros []|].
    destruct (callback t) as [i q|]; simpl; [|intros [H|[]]; discriminate].
    unfold onTimeout. simpl. destruct (removeById _ _); simpl; [|intros []].
    intros [H|[]]; discriminate.
Qed.

Lemma run_resolve_source (events : list Event) (p : nat) (i : Id) (response : json) :
  forall st,
    p < promises st ->
    (forall req, In req (requestQueue st) -> promise req = p -> id req = i) ->
    In (Resolve p response) (snd (run JSON_parse st events)) ->
    exists v, propId response = Some v /\ strictEq i v = true.
Proof.
  induction events as [|ev events IH]; intros st Hp Hown; [intros []|].
  rewrite run_cons. cbn [snd]. intros H. apply in_app_or in H. destruct H as [H|H].
  - destruct (step_resolve_source st ev p response H) as [req [v [Hin [Hreq [Hv Heq]]]]].
    exists v. rewrite <- (Hown req Hin Hreq). auto.
  - apply IH in H; [assumption | |].
    + pose proof (step_promises JSON_parse st ev). lia.
    + intros req Hin Hreq.
      destruct (step_queue_source st ev req Hin) as [Hold|[request [w [_ ->]]]].
      * now apply Hown.
      * simpl in Hreq. lia.
Qed.

(** Whatever resolves the promise of a call of [sendToMCP], in the call or
    after it, carries the identifier of the request of the call. *)
Lemma call_resolve_source
  (before after : list Event) (request : Request) (w : WriteOutcome) (response : json) :
  let st0 := fst (run JSON_parse initial before) in
  let call := step JSON_parse st0 (Submit request w) in
  In (Resolve (promises st0) response)
     (snd call ++ snd (run JSON_parse (fst call) after)) ->
  exists v, propId response = Some v /\ strictEq (rid request) v = true.
Proof.
  intros st0 call H.
  destruct (run_ordered before) as [_ Hbelow]. fold st0 in Hbelow.
  apply in_app_or in H. destruct H as [H|H].
  - destruct (step_resolve_source st0 (Submit request w) _ _ H)
      as [req [v [Hin [Hreq _]]]].
    rewrite Forall_forall in Hbelow. specialize (Hbelow req Hin). lia.
  - apply (run_resolve_source after (promises st0) (rid request) response (fst call));
      [| |exact H].
    + unfold call. cbn [step]. unfold sendToMCP. simpl.
      destruct (mcpProcess st0); [|simpl; lia].
      destruct (isReady st0); simpl; [|lia].
      destruct w as [|error]; simpl; [lia|]. destruct (removeById _ _); simpl; lia.
    + intros req Hin Hreq.
      destruct (step_queue_source st0 (Submit request w) req Hin)
        as [Hold|[request0 [w0 [Hev ->]]]].
      * rewrite Forall_forall in Hbelow. specialize (Hbelow req Hold). lia.
      * inversion Hev. reflexivity.
Qed.

(** A reply with status 200 carries the value of a [resolve] of the
    promise. *)
Lemma afterAwait_resolved (p : nat) (effects : list Effect) (reply : HttpReply) :
  afterAwait p effects = Some reply ->
  statusCode reply = 200 ->
  In (Resolve p (payload reply)) effects.
Proof.
  unfold afterAwait.
  destruct (find (fun e => resolves p e || rejects p e) effects) as [e|] eqn:Hfind;
    [|discriminate].
  apply find_some in Hfind. destruct Hfind as [Hin Hp].
  destruct e as [c|c r|q response|q error|text]; try discriminate.
  - intros Hreply _. inversion Hreply; subst reply. simpl.
    simpl in Hp. rewrite orb_false_r in Hp. apply Nat.eqb_eq in Hp. now subst q.
  - intros Hreply Hcode. inversion Hreply; subst reply. discriminate.
Qed.

(** X17.  Every caller gets the response to its own identifier.  Take the
    effects of the relay from a call of [sendToMCP] on, in any run.
    Every value that the promise of the call is resolved with has an [id]
    strictly equal to the [id] of the request of the call; and when
    [POST /mcp], which replies at the first settlement of the promise,
    replies with status 200, its payload has that [id]. *)
Theorem caller_gets_own_id
  (before after : list Event) (request : Request) (w : WriteOutcome) :
  let st0 := fst (run JSON_parse initial before) in
  let call := step JSON_parse st0 (Submit request w) in
  let effects := snd call ++ snd (run JSON_parse (fst call) after) in
  (forall response,
     In (Resolve (promises st0) response) effects ->
     exists v, propId response = Some v /\ strictEq (rid request) v = true)
  /\ (forall reply,
        afterAwait (promises st0) effects = Some reply ->
        statusCode reply = 200 ->
        exists v, propId (payload reply) = Some v
                  /\ strictEq (rid request) v = true).
Proof.
  intros st0 call effects. split.
  - intros response H. exact (call_resolve_source before after request w response H).
  - intros reply Hreply Hcode.
    apply (call_resolve_source before after request w (payload reply)).
    exact (afterAwait_resolved _ _ _ Hreply Hcode).
Qed.

Lemma dispatch_writes_nothing (lines : list string) (c : nat) (r : Request) :
  forall q, ~ In (Write c r) (snd (dispatch JSON_parse q lines)).
Proof.
  induction lines as [|line lines IH]; intros q; simpl; [auto|].
  assert (H1 : ~ In (Write c r) (snd (handleLine JSON_parse q line))).
  { rewrite handleLine_eq. destruct (negb _); [auto|].
    destruct (JSON_parse line) as [v|]; [|intros [H|[]]; discriminate].
    destruct (propId v) as [i|];
      [|destruct q; simpl; [intros [] | intros [H|[]]; discriminate]].
    destruct (removeFirst _ q) as [[x rest]|]; [|auto].
    intros [H|[]]; discriminate. }
  destruct (handleLine JSON_parse q line) as [q1 e1]. simpl in H1.
  specialize (IH q1). destruct (dispatch JSON_parse q1 lines) as [q2 e2]. simpl in *.
  intros H. apply in_app_or in H. tauto.
Qed.

Lemma step_write_source (st : State) (ev : Event) (c : nat) (r : Request) :
  In (Write c r) (snd (step JSON_parse st ev)) ->
  ev = Submit r WriteOk /\ mcpProcess st = Some c /\ isReady st = true.
Proof.
  destruct ev as [|data|data|code|e|request w|ms|k]; cbn [step].
  - intros [H|[]]; discriminate.
  - destruct (mcpProcess st); [|intros []].
    destruct (onStdoutData_frames JSON_parse st data) as [_ ->]. simpl.
    intros H. now apply dispatch_writes_nothing in H.
  - destruct (mcpProcess st); [|intros []]. intros [H|[]]; discriminate.
  - destruct (mcpProcess st); [|intros []]. simpl. intros H.
    apply in_map_iff in H. destruct H as [req [H _]]. discriminate.
  - intros [].
  - unfold sendToMCP. simpl. destruct (mcpProcess st) as [child|];
      [|intros [H|[]]; discriminate].
    destruct (isReady st); simpl; [|intros [H|[]]; discriminate].
    destruct w as [|error]; simpl; intros [H|[]]; [|discriminate].
    inversion H; subst. auto.
  - intros [].
  - destruct (fireTimer_cases st k) as [->|[t [_ [_ ->]]]]; [intros []|].
    destruct (callback t) as [i q|]; simpl; [|intros [H|[]]; discriminate].
    unfold onTimeout. simpl. destruct (removeById _ _); simpl; [|intros []].
    intros [H|[]]; discriminate.
Qed.

Lemma step_spawned (st : State) (ev : Event) (c : nat) :
  mcpProcess (fst (step JSON_parse st ev)) = Some c ->
  mcpProcess st = Some c \/ In (Spawn c) (snd (step JSON_parse st ev)).
Proof.
  destruct ev as [|data|data|code|e|request w|ms|k]; cbn [step]; auto.
  - unfold startMCPProcess. simpl. intros H. inversion H. right. now left.
  - destruct (mcpProcess st) eqn:E; [|simpl; rewrite E; auto].
    rewrite (onStdoutData_child JSON_parse), E. auto.
  - destruct (mcpProcess st) eqn:E; [|simpl; rewrite E; auto]. unfold onStderrData. simpl.
    destruct (_ || _); simpl; rewrite E; auto.
  - destruct (mcpProcess st) eqn:E; [|simpl; rewrite E; auto]. simpl. rewrite E. auto.
  - unfold sendToMCP. simpl. destruct (mcpProcess st) eqn:E; [|simpl; rewrite E; auto].
    destruct (isReady st); simpl; [|rewrite E; auto].
    destruct w as [|error]; simpl; [rewrite E; auto|].
    destruct (removeById _ _); simpl; rewrite E; auto.
  - destruct (fireTimer_cases st k) as [->|[t [_ [_ ->]]]]; [auto|].
    destruct (callback t) as [i p|]; simpl.
    + unfold onTimeout. simpl. destruct (removeById _ _); simpl; auto.
    + intros H. inversion H. right. now left.
Qed.

Lemma run_write_source (events : list Event) (c : nat) (r : Request) :
  forall st,
    In (Write c r) (snd (run JSON_parse st events)) ->
    In (Submit r WriteOk) events
    /\ (mcpProcess st = Some c \/ In (Spawn c) (snd (run JSON_parse st events))).
Proof.
  induction events as [|ev events IH]; intros st; [intros []|].
  rewrite run_cons. cbn [snd]. intros H. apply in_app_or in H. destruct H as [H|H].
  - apply step_write_source in H. destruct H as [-> [Hc _]]. split; [now left | now left].
  - destruct (IH _ H) as [Hin Hc]. split; [now right|].
    destruct Hc as [Hc|Hc].
    + destruct (step_spawned st ev c Hc) as [H0|H0]; [now left|].
      right. apply in_or_app. now left.
    + right. apply in_or_app. now right.
Qed.

(** X18.  Nothing is written to a child but the request of an accepted
    submission: every line written in a run from the start is the request
    of a submission of that run whose write returned, and goes to a child
    spawned in that run; responses, timeouts, restarts and terminations
    write nothing. *)
Theorem writes_follow_submissions (events : list Event) (c : nat) (r : Request) :
  In (Write c r) (snd (run JSON_parse initial events)) ->
  In (Submit r WriteOk) events
  /\ In (Spawn c) (snd (run JSON_parse initial events)).
Proof.
  intros H. destruct (run_write_source events c r initial H) as [Hin [Hc|Hc]].
  - discriminate Hc.
  - split; assumption.
Qed.

End Callers.

(** ** One call among the others

    The timeouts are never cancelled and find their entry by its
    identifier.  What follows holds of a call whose identifier has no
    timeout pending when a request is submitted under it, whatever the
    other callers do with theirs. *)

Lemma countArmed_In (ts : list Timer) (i : Id) (p : nat) :
  In (Timeout i p) (map callback ts) -> 1 <= countArmed ts i.
Proof.
  intros H. apply in_map_iff in H. destruct H as [t [Ht Hin]].
  apply in_split in Hin. destruct Hin as [a [b ->]].
  rewrite countArmed_cut, Ht, idEq_refl. lia.
Qed.

Lemma countArmed_idIn (ts : list Timer) (i : Id) :
  idIn i (armedIds ts) = false -> countArmed ts i = 0.
Proof.
  unfold countArmed, idIn. induction (armedIds ts) as [|j l IH]; simpl; [reflexivity|].
  intros H. apply orb_false_iff in H. destruct H as [Hj Hl].
  assert (E : idEq j i = false).
  { destruct (idEq j i) eqn:E; [|reflexivity].
    apply idEq_eq in E. subst j. now rewrite idEq_refl in Hj. }
  rewrite E. now apply IH.
Qed.

Lemma armed_owner (ts : list Timer) (p : nat) :
  armed ts p = true -> exists j, In (Timeout j p) (map callback ts).
Proof.
  unfold armed. intros H. apply existsb_exists in H. destruct H as [t [Hin Ht]].
  destruct (callback t) as [j q|] eqn:Hcb; [|discriminate].
  apply Nat.eqb_eq in Ht. subst q. exists j. rewrite <- Hcb. now apply in_map.
Qed.

Lemma pendingCount_none (q : list PendingRequest) (p : nat) :
  (forall req, In req q -> promise req <> p) -> pendingCount q p = 0.
Proof.
  intros H. destruct (pendingCount q p) as [|c] eqn:E; [reflexivity|].
  destruct (pendingCount_pos q p) as [req [Hin Hp]]; [lia|].
  now apply H in Hin.
Qed.

Lemma rejected_none (effects : list Effect) (p : nat) :
  (forall error, ~ In (Reject p error) effects) -> rejected effects p = 0.
Proof.
  unfold rejected. intros H.
  destruct (filter (rejects p) effects) as [|e l] eqn:E; [reflexivity|].
  assert (Hin : In e (filter (rejects p) effects)) by (rewrite E; now left).
  apply filter_In in Hin. destruct Hin as [Hin He].
  destruct e as [c|c r|q v|q error|text]; try discriminate.
  simpl in He. apply Nat.eqb_eq in He. subst q. now apply H in Hin.
Qed.

Lemma in_callbacks_cut (a b : list Timer) (t : Timer) (cb : Callback) :
  In cb (map callback (a ++ b)) -> In cb (map callback (a ++ t :: b)).
Proof.
  rewrite !map_app. simpl. intros H. apply in_app_or in H. apply in_or_app.
  destruct H; [now left | right; now right].
Qed.

Lemma in_callbacks_other (a b : list Timer) (t : Timer) (cb : Callback) :
  In cb (map callback (a ++ t :: b)) -> callback t <> cb ->
  In cb (map callback (a ++ b)).
Proof.
  rewrite !map_app. simpl. intros H Hne. apply in_app_or in H. apply in_or_app.
  destruct H as [H|[H|H]]; [now left | contradiction | now right].
Qed.

Lemma Waiting_armed (i : Id) (p : nat) (ts : list Timer) (q : list PendingRequest) :
  Waiting i p ts q -> idIn i (armedIds ts) = true /\ armed ts p = true.
Proof.
  intros H. pose proof (own_timeout _ _ _ _ H) as Hown. split.
  - apply idIn_In. now apply (armedIds_In ts i p).
  - now apply (armed_In ts i p).
Qed.

Lemma Waiting_subqueue (i : Id) (p : nat) (ts : list Timer)
  (q q' : list PendingRequest) :
  Waiting i p ts q -> (forall req, In req q' -> In req q) -> Waiting i p ts q'.
Proof.
  intros [H1 H2 H3 H4] Hsub. constructor; auto.
Qed.

(** The timeout of another call, or a restart, leaves the pending timers. *)
Lemma Waiting_cut (i : Id) (p : nat) (a b : list Timer) (t : Timer)
  (q : list PendingRequest) :
  Waiting i p (a ++ t :: b) q ->
  match callback t with
  | Timeout j _ => idEq j i = false
  | Restart => True
  end ->
  Waiting i p (a ++ b) q.
Proof.
  intros [H1 H2 H3 H4] Ht.
  assert (Hne : callback t <> Timeout i p).
  { intros E. rewrite E in Ht. now rewrite idEq_refl in Ht. }
  constructor.
  - now apply (in_callbacks_other a b t).
  - rewrite countArmed_cut in H2. destruct (callback t) as [j p'|]; [|lia].
    rewrite Ht in H2. lia.
  - intros j Hj. apply H3. now apply in_callbacks_cut.
  - exact H4.
Qed.

(** Of the pending timeouts under [i], the one of the call runs. *)
Lemma Waiting_own (i : Id) (p p' : nat) (a b : list Timer) (t : Timer)
  (q : list PendingRequest) :
  Waiting i p (a ++ t :: b) q ->
  callback t = Timeout i p' ->
  p' = p /\ armed (a ++ b) p = false.
Proof.
  intros [H1 H2 H3 H4] Ht.
  rewrite countArmed_cut, Ht, idEq_refl in H2.
  assert (Hnone : forall x, ~ In (Timeout i x) (map callback (a ++ b))).
  { intros x Hx. apply countArmed_In in Hx. lia. }
  assert (Hp : p' = p).
  { destruct (Nat.eq_dec p' p) as [|Hne]; [assumption|]. exfalso.
    apply (Hnone p). apply (in_callbacks_other a b t); [assumption|].
    rewrite Ht. congruence. }
  split; [assumption|].
  destruct (armed (a ++ b) p) eqn:E; [|reflexivity]. exfalso.
  apply armed_owner in E. destruct E as [j Hj].
  pose proof (H3 j (in_callbacks_cut a b t _ Hj)) as ->.
  now apply (Hnone p).
Qed.

(** The timeout of a call under another identifier belongs to another
    promise. *)
Lemma Waiting_other (i j : Id) (p p' : nat) (a b : list Timer) (t : Timer)
  (q : list PendingRequest) :
  Waiting i p (a ++ t :: b) q ->
  callback t = Timeout j p' ->
  idEq j i = false ->
  p' <> p.
Proof.
  intros [H1 H2 H3 H4] Ht Hji Hp. subst p'.
  assert (Hin : In (Timeout j p) (map callback (a ++ t :: b))).
  { rewrite <- Ht. apply in_map. apply in_elt. }
  apply H3 in Hin. subst j. now rewrite idEq_refl in Hji.
Qed.

Lemma Waiting_snoc (i : Id) (p : nat) (ts : list Timer) (t : Timer)
  (q : list PendingRequest) :
  Waiting i p ts q ->
  match callback t with
  | Timeout j p' => idEq j i = false /\ p' <> p
  | Restart => True
  end ->
  Waiting i p (ts ++ [t]) q.
Proof.
  intros [H1 H2 H3 H4] Ht. constructor.
  - rewrite map_app. apply in_or_app. now left.
  - rewrite countArmed_snoc. destruct (callback t) as [j p'|]; [|lia].
    destruct Ht as [-> _]. lia.
  - intros j Hj. rewrite map_app in Hj. apply in_app_or in Hj.
    destruct Hj as [Hj|[Hj|[]]]; [now apply H3|].
    rewrite Hj in Ht. destruct Ht as [_ Ht]. congruence.
  - exact H4.
Qed.

(** An entry under another identifier and for another promise is queued. *)
Lemma Waiting_push (i : Id) (p : nat) (ts : list Timer) (q : list PendingRequest)
  (x : PendingRequest) :
  Waiting i p ts q -> id x <> i -> promise x <> p -> Waiting i p ts (q ++ [x]).
Proof.
  intros [H1 H2 H3 H4] Hid Hp. constructor; auto.
  intros req Hin Hreq. apply in_app_or in Hin. destruct Hin as [Hin|[<-|[]]].
  - now apply H4.
  - tauto.
Qed.

(** The entries under another identifier are those of other promises. *)
Lemma Waiting_removeById (i j : Id) (p : nat) (ts : list Timer)
  (q q' : list PendingRequest) :
  Waiting i p ts q -> j <> i -> removeById q j = Some q' ->
  Waiting i p ts q' /\ pendingCount q' p = pendingCount q p.
Proof.
  intros H Hji Hrm. apply removeById_cut in Hrm.
  destruct Hrm as [l1 [l2 [x [-> [-> Hx]]]]]. split.
  - apply (Waiting_subqueue _ _ _ _ _ H). intros req Hin.
    apply in_app_or in Hin. apply in_or_app.
    destruct Hin; [now left | right; now right].
  - rewrite pendingCount_cut.
    assert (E : (promise x =? p) = false).
    { apply Nat.eqb_neq. intros Hp.
      pose proof (entry_of _ _ _ _ H x (in_elt x l1 l2) (or_intror Hp)) as Ex.
      subst x. simpl in Hx. congruence. }
    rewrite E. lia.
Qed.

Lemma Over_removeById (j : Id) (p : nat) (q q' : list PendingRequest) :
  pendingCount q p = 0 -> removeById q j = Some q' -> pendingCount q' p = 0.
Proof.
  intros H Hrm. apply (pendingCount_removeById _ _ _ p) in Hrm. lia.
Qed.

Lemma armed_cut (a b : list Timer) (t : Timer) (p : nat) :
  armed (a ++ t :: b) p = false -> armed (a ++ b) p = false.
Proof.
  rewrite !armed_app. simpl. intros H. apply orb_false_iff in H.
  destruct H as [Ha Hb]. apply orb_false_iff in Hb. destruct Hb as [_ Hb].
  now rewrite Ha, Hb.
Qed.

Lemma armed_cut_owner (a b : list Timer) (t : Timer) (j : Id) (p p' : nat) :
  armed (a ++ t :: b) p = false -> callback t = Timeout j p' -> p' <> p.
Proof.
  rewrite !armed_app. simpl. intros H Ht. apply orb_false_iff in H.
  destruct H as [_ Hb]. apply orb_false_iff in Hb. destruct Hb as [Hb _].
  rewrite Ht in Hb. now apply Nat.eqb_neq in Hb.
Qed.

Section Calls.

Variable JSON_parse : string -> option json.

Lemma dispatch_settles (lines : list string) (p : nat) (q : list PendingRequest) :
  settled (snd (dispatch JSON_parse q lines)) p
  + pendingCount (fst (dispatch JSON_parse q lines)) p
  = pendingCount q p.
Proof.
  unfold settled. rewrite (rejected_none _ p).
  - rewrite Nat.add_0_r. apply dispatch_resolves.
  - intros error. apply dispatch_rejects_nothing.
Qed.

Lemma Tracked_fireTimer (i : Id) (p : nat) (st : State) (effects : list Effect)
  (k : nat) :
  Tracked i p st effects ->
  Tracked i p (fst (fireTimer st k)) (effects ++ snd (fireTimer st k)).
Proof.
  intros H.
  destruct (fireTimer_cases st k) as [->|[t [Hk [_ ->]]]];
    [simpl; now rewrite app_nil_r|].
  apply nth_error_cut in Hk.
  destruct H as [Hborn Honce Hphase]. rewrite Hk in Hphase.
  set (a := firstn k (timers st)) in *. set (b := skipn (S k) (timers st)) in *.
  clearbody a b. clear Hk.
  destruct (callback t) as [j p'|] eqn:Ht; cbn [runCallback].
  - unfold onTimeout. cbn [requestQueue withTimers].
    destruct (removeById (requestQueue st) j) as [q'|] eqn:Hrm; cbn [fst snd].
    + (* an entry under [j] is rejected *)
      destruct Hphase as [Hw|[Ha Hq]].
      * destruct (idEq j i) eqn:Hji.
        -- apply idEq_eq in Hji. subst j.
           destruct (Waiting_own _ _ _ _ _ _ _ Hw Ht) as [-> Hgone].
           pose proof (removeById_cut _ _ _ Hrm) as [l1 [l2 [x [Hq [Hq' Hx]]]]].
           assert (Ex : x = {| id := i; promise := p |}).
           { apply (entry_of _ _ _ _ Hw); [|now left].
             rewrite Hq. apply in_elt. }
           rewrite Hq, pendingCount_cut in Honce. subst x. simpl in Honce.
           rewrite Nat.eqb_refl in Honce.
           constructor; cbn [promises requestQueue timers withQueue withTimers].
           ++ exact Hborn.
           ++ rewrite settled_app, settled_one, Nat.eqb_refl, Hq'. lia.
           ++ right. split; [exact Hgone|]. rewrite Hq'. lia.
        -- pose proof (Waiting_other _ _ _ _ _ _ _ _ Hw Ht Hji) as Hp.
           assert (Hne : j <> i).
           { intros E. subst j. now rewrite idEq_refl in Hji. }
           assert (Hcut : Waiting i p (a ++ b) (requestQueue st)).
           { apply (Waiting_cut _ _ _ _ t); [assumption|]. now rewrite Ht. }
           destruct (Waiting_removeById _ _ _ _ _ _ Hcut Hne Hrm) as [Hw' Hsame].
           constructor; cbn [promises requestQueue timers withQueue withTimers].
           ++ exact Hborn.
           ++ rewrite settled_app, settled_one, Hsame.
              assert (E : (p' =? p) = false) by now apply Nat.eqb_neq.
              rewrite E. lia.
           ++ now left.
      * pose proof (armed_cut_owner _ _ _ _ _ _ Ha Ht) as Hp.
        constructor; cbn [promises requestQueue timers withQueue withTimers].
        -- exact Hborn.
        -- rewrite settled_app, settled_one, (Over_removeById _ _ _ _ Hq Hrm).
           assert (E : (p' =? p) = false) by now apply Nat.eqb_neq.
           rewrite E. lia.
        -- right. split; [now apply (armed_cut a b t) | exact (Over_removeById _ _ _ _ Hq Hrm)].
    + (* nothing is queued under [j] *)
      rewrite app_nil_r.
      constructor; cbn [promises requestQueue timers withTimers]; [assumption..|].
      destruct Hphase as [Hw|[Ha Hq]].
      * destruct (idEq j i) eqn:Hji.
        -- apply idEq_eq in Hji. subst j.
           destruct (Waiting_own _ _ _ _ _ _ _ Hw Ht) as [-> Hgone].
           right. split; [exact Hgone|].
           apply pendingCount_none. intros req Hin Hp.
           pose proof (entry_of _ _ _ _ Hw req Hin (or_intror Hp)) as Ereq.
           rewrite removeById_removeFirst in Hrm.
           destruct (removeFirst (fun r => idEq (id r) i) (requestQueue st))
             as [[y rest]|] eqn:Hnone; [discriminate|].
           rewrite removeFirst_none in Hnone. specialize (Hnone req Hin).
           rewrite Ereq in Hnone. simpl in Hnone. now rewrite idEq_refl in Hnone.
        -- left. apply (Waiting_cut _ _ _ _ t); [assumption|]. now rewrite Ht.
      * right. split; [now apply (armed_cut a b t) | assumption].
  - (* the restart *)
    unfold startMCPProcess. cbn [fst snd].
    constructor; cbn [promises requestQueue timers withTimers mcpProcess].
    + exact Hborn.
    + rewrite settled_app, settled_one. lia.
    + destruct Hphase as [Hw|[Ha Hq]].
      * left. apply (Waiting_cut _ _ _ _ t); [assumption|]. now rewrite Ht.
      * right. split; [now apply (armed_cut a b t) | assumption].
Qed.

Lemma Tracked_sendToMCP (i : Id) (p : nat) (st : State) (effects : list Effect)
  (request : Request) (w : WriteOutcome) :
  Tracked i p st effects ->
  idEq (rid request) i && idIn i (armedIds (timers st)) = false ->
  Tracked i p (fst (sendToMCP st request w)) (effects ++ snd (sendToMCP st request w)).
Proof.
  intros [Hborn Honce Hphase] Hfresh.
  assert (Hnew : (promises st =? p) = false) by (apply Nat.eqb_neq; lia).
  assert (Hrefused :
            Tracked i p (withPromises st (S (promises st)))
                    (effects ++ [Reject (promises st) notReady])).
  { constructor; cbn [promises requestQueue timers withPromises].
    - lia.
    - rewrite settled_app, settled_one, Hnew. lia.
    - exact Hphase. }
  unfold sendToMCP. cbn [mcpProcess isReady withPromises].
  destruct (mcpProcess st) as [child|]; [|exact Hrefused].
  destruct (isReady st); cbn [negb]; [|exact Hrefused].
  cbn [requestQueue withQueue promises].
  set (entry := {| id := rid request; promise := promises st |}).
  set (own := {| due := (clock st + 30000)%N;
                 callback := Timeout (rid request) (promises st) |}).
  (* the phase once the entry is queued and the timeout is armed *)
  assert (Hpushed :
            (Waiting i p (timers st ++ [own]) (requestQueue st ++ [entry])
             /\ rid request <> i)
            \/ Over p (timers st ++ [own]) (requestQueue st ++ [entry])).
  { destruct Hphase as [Hw|[Ha Hq]].
    - left. destruct (Waiting_armed _ _ _ _ Hw) as [Harmed _].
      rewrite Harmed, andb_true_r in Hfresh.
      assert (Hne : rid request <> i).
      { intros E. rewrite E, idEq_refl in Hfresh. discriminate. }
      split; [|exact Hne].
      apply Waiting_snoc; [|simpl; split; [assumption | lia]].
      apply Waiting_push; simpl; [assumption | assumption | lia].
    - right. split.
      + rewrite armed_app, Ha. simpl. now rewrite Hnew.
      + rewrite pendingCount_app, Hq. unfold pendingCount. simpl. now rewrite Hnew. }
  assert (Hcount : pendingCount (requestQueue st ++ [entry]) p
                   = pendingCount (requestQueue st) p).
  { rewrite pendingCount_app. unfold pendingCount at 2. simpl. rewrite Hnew.
    simpl. lia. }
  destruct w as [|error].
  - cbn [fst snd].
    constructor; cbn [promises requestQueue timers setTimeout withTimers withQueue
                      withPromises clock].
    + lia.
    + rewrite settled_app, settled_one, Hcount. lia.
    + destruct Hpushed as [[Hw _]|Ho]; [now left | now right].
  - cbn [requestQueue withQueue withPromises]. fold entry.
    destruct (removeById (requestQueue st ++ [entry]) (rid request)) as [q'|] eqn:Hrm;
      cbn [fst snd].
    + constructor; cbn [promises requestQueue timers setTimeout withTimers withQueue
                        withPromises clock].
      * lia.
      * rewrite settled_app, settled_one, Hnew.
        destruct Hpushed as [[Hw Hne]|[_ Hq]].
        -- destruct (Waiting_removeById _ _ _ _ _ _ Hw Hne Hrm) as [_ ->]. lia.
        -- pose proof (Over_removeById _ _ _ _ Hq Hrm). lia.
      * destruct Hpushed as [[Hw Hne]|[Ha Hq]].
        -- left. now destruct (Waiting_removeById _ _ _ _ _ _ Hw Hne Hrm).
        -- right. split; [assumption | exact (Over_removeById _ _ _ _ Hq Hrm)].
    + constructor; cbn [promises requestQueue timers setTimeout withTimers withQueue
                        withPromises clock].
      * lia.
      * rewrite settled_app, settled_one, Hnew, Hcount. lia.
      * destruct Hpushed as [[Hw _]|Ho]; [now left | now right].
Qed.

Lemma Tracked_step (i : Id) (p : nat) (st : State) (effects : list Effect)
  (ev : Event) :
  Tracked i p st effects ->
  unusedWhileArmed JSON_parse i st [ev] = true ->
  Tracked i p (fst (step JSON_parse st ev)) (effects ++ snd (step JSON_parse st ev)).
Proof.
  intros H Hfresh.
  assert (Hsame : Tracked i p st (effects ++ [])) by now rewrite app_nil_r.
  destruct ev as [|data|data|code|e|request w|ms|k]; cbn [step].
  - destruct H as [Hborn Honce Hphase]. unfold startMCPProcess. cbn [fst snd].
    constructor; cbn [promises requestQueue timers]; [assumption| |assumption].
    rewrite settled_app, settled_one. lia.
  - destruct (mcpProcess st); [|exact Hsame].
    destruct H as [Hborn Honce Hphase].
    destruct (onStdoutData_frames JSON_parse st data) as [_ ->]. cbn [fst snd].
    pose proof (dispatch_settles (fst (frame (buffer st) data)) p (requestQueue st))
      as Hd.
    constructor; cbn [promises requestQueue timers withQueue withBuffer].
    + exact Hborn.
    + rewrite settled_app. lia.
    + destruct Hphase as [Hw|[Ha Hq]].
      * left. apply (Waiting_subqueue _ _ _ _ _ Hw). intros req.
        apply dispatch_subqueue.
      * right. split; [assumption | lia].
  - destruct (mcpProcess st); [|exact Hsame].
    destruct H as [Hborn Honce Hphase]. unfold onStderrData. cbn [fst snd].
    assert (Hlog : forall text, settled (effects ++ [ConsoleLog text]) p
                                = settled effects p).
    { intros text. rewrite settled_app, settled_one. lia. }
    destruct (_ || _);
      (constructor; cbn [promises requestQueue timers withReady];
       [assumption | now rewrite Hlog | assumption]).
  - destruct (mcpProcess st); [|exact Hsame].
    destruct H as [Hborn Honce Hphase]. unfold onClose. cbn [fst snd].
    constructor; cbn [promises requestQueue timers setTimeout withTimers withQueue
                      withReady].
    + exact Hborn.
    + rewrite settled_app, settled_rejections. change (pendingCount [] p) with 0. lia.
    + destruct Hphase as [Hw|[Ha Hq]].
      * left. apply Waiting_snoc; [|exact I].
        apply (Waiting_subqueue _ _ _ _ _ Hw). intros req [].
      * right. split; [|reflexivity]. rewrite armed_app, Ha. reflexivity.
  - exact Hsame.
  - apply Tracked_sendToMCP; [assumption|].
    simpl in Hfresh. rewrite andb_true_r in Hfresh.
    now apply negb_true_iff in Hfresh.
  - cbn [fst snd]. rewrite app_nil_r. destruct H as [Hborn Honce Hphase].
    constructor; assumption.
  - now apply Tracked_fireTimer.
Qed.

Lemma Tracked_run (i : Id) (p : nat) (events : list Event) :
  forall (st : State) (effects : list Effect),
    Tracked i p st effects ->
    unusedWhileArmed JSON_parse i st events = true ->
    Tracked i p (fst (run JSON_parse st events))
            (effects ++ snd (run JSON_parse st events)).
Proof.
  induction events as [|ev events IH]; intros st effects H Hfresh.
  - simpl. now rewrite app_nil_r.
  - rewrite run_cons. cbn [fst snd]. rewrite app_assoc.
    cbn [unusedWhileArmed] in Hfresh. apply andb_true_iff in Hfresh.
    destruct Hfresh as [Hev Hrest].
    apply IH; [|exact Hrest].
    apply Tracked_step; [assumption|].
    cbn [unusedWhileArmed]. now rewrite Hev.
Qed.


(** Nothing settles a promise before it is created. *)
Lemma step_settles_born (st : State) (ev : Event) (p : nat) :
  Forall (fun req => promise req < promises st) (requestQueue st) ->
  (forall t i q, In t (timers st) -> callback t = Timeout i q -> q < promises st) ->
  promises (fst (step JSON_parse st ev)) <= p ->
  settled (snd (step JSON_parse st ev)) p = 0.
Proof.
  intros Hq Hts Hp. pose proof (step_promises JSON_parse st ev) as Hmono.
  assert (Hle : promises st <= p) by lia.
  assert (Hnone : pendingCount (requestQueue st) p = 0).
  { apply pendingCount_none. intros req Hin. rewrite Forall_forall in Hq.
    specialize (Hq req Hin). lia. }
  revert Hp. destruct ev as [|data|data|code|e|request w|ms|k]; cbn [step]; intros Hp.
  - reflexivity.
  - destruct (mcpProcess st); [|reflexivity].
    destruct (onStdoutData_frames JSON_parse st data) as [_ ->]. cbn [snd].
    pose proof (dispatch_settles (fst (frame (buffer st) data)) p (requestQueue st)).
    lia.
  - destruct (mcpProcess st); reflexivity.
  - destruct (mcpProcess st); [|reflexivity]. unfold onClose. cbn [snd].
    now rewrite settled_rejections.
  - reflexivity.
  - revert Hp. unfold sendToMCP. cbn [mcpProcess isReady withPromises].
    assert (Hnew : promises st < S (promises st) -> S (promises st) <= p ->
                   (promises st =? p) = false)
      by (intros _ H; apply Nat.eqb_neq; lia).
    destruct (mcpProcess st);
      [|cbn [fst snd promises]; intros Hp; rewrite settled_one, Hnew; auto].
    destruct (isReady st); cbn [negb];
      [|cbn [fst snd promises]; intros Hp; rewrite settled_one, Hnew; auto].
    destruct w as [|error]; [reflexivity|].
    cbn [requestQueue withQueue withPromises].
    destruct (removeById _ _); cbn [fst snd promises setTimeout withTimers withQueue
                                    withPromises];
      intros Hp; rewrite settled_one, Hnew; auto.
  - reflexivity.
  - revert Hp. destruct (fireTimer_cases st k) as [->|[t [Hk [_ ->]]]]; [reflexivity|].
    apply nth_error_In in Hk.
    destruct (callback t) as [j p'|] eqn:Ht; cbn [runCallback]; [|reflexivity].
    unfold onTimeout. cbn [requestQueue withTimers].
    destruct (removeById _ _); cbn [fst snd]; [|reflexivity].
    intros _. rewrite settled_one.
    assert (E : (p' =? p) = false).
    { apply Nat.eqb_neq. specialize (Hts t j p' Hk Ht). lia. }
    now rewrite E.
Qed.

Lemma run_settles_born (events : list Event) (p : nat) :
  forall st,
    increasing (map promise (requestQueue st))
    /\ Forall (fun req => promise req < promises st) (requestQueue st) ->
    (forall t i q, In t (timers st) -> callback t = Timeout i q -> q < promises st) ->
    promises (fst (run JSON_parse st events)) <= p ->
    settled (snd (run JSON_parse st events)) p = 0.
Proof.
  induction events as [|ev events IH]; intros st Hq Hts; [reflexivity|].
  rewrite run_cons. cbn [fst snd]. intros Hp. rewrite settled_app.
  pose proof (run_resolves JSON_parse events 0 (fst (step JSON_parse st ev)))
    as [_ Hmono].
  rewrite (step_settles_born st ev p (proj2 Hq) Hts); [|lia].
  apply IH; [now apply step_ordered | now apply step_timers_born | assumption].
Qed.

Lemma countId_In (q : list PendingRequest) (req : PendingRequest) :
  In req q -> 1 <= countId q (id req).
Proof.
  intros H. apply in_split in H. destruct H as [l1 [l2 ->]].
  rewrite countId_cut, idEq_refl. lia.
Qed.

(** What a run from the start leaves for a new call: the promises of the
    queue and of the pending timeouts are below the next promise, and no
    identifier has more entries than pending timeouts. *)
Lemma run_reached (events : list Event) :
  let st := fst (run JSON_parse initial events) in
  (increasing (map promise (requestQueue st))
   /\ Forall (fun req => promise req < promises st) (requestQueue st))
  /\ (forall t i q, In t (timers st) -> callback t = Timeout i q -> q < promises st)
  /\ (forall i, countId (requestQueue st) i <= countArmed (timers st) i).
Proof.
  intros st. split; [|split].
  - apply run_ordered.
  - apply (run_invariant JSON_parse
             (fun s => forall t i q, In t (timers s) -> callback t = Timeout i q ->
                                     q < promises s)).
    + intros s ev. apply step_timers_born.
    + intros t i q [].
  - apply (run_invariant JSON_parse
             (fun s => forall i, countId (requestQueue s) i <= countArmed (timers s) i)).
    + intros s ev. apply step_bounded.
    + intros i. apply Nat.le_refl.
Qed.

(** The invariant holds from the call on. *)
Lemma Tracked_call (st : State) (request : Request) (w : WriteOutcome) :
  Forall (fun req => promise req < promises st) (requestQueue st) ->
  (forall t i q, In t (timers st) -> callback t = Timeout i q -> q < promises st) ->
  (forall i, countId (requestQueue st) i <= countArmed (timers st) i) ->
  idIn (rid request) (armedIds (timers st)) = false ->
  Tracked (rid request) (promises st) (fst (sendToMCP st request w))
          (snd (sendToMCP st request w))
  /\ idIn (rid request) (pendingIds (requestQueue st)) = false.
Proof.
  intros Hq Hts Hbound Hfresh.
  set (i := rid request) in *. set (p := promises st).
  pose proof (countArmed_idIn _ _ Hfresh) as Hzero.
  assert (Hnone : pendingCount (requestQueue st) p = 0).
  { apply pendingCount_none. intros req Hin. rewrite Forall_forall in Hq.
    specialize (Hq req Hin). unfold p. lia. }
  assert (Hunarmed : forall j, ~ In (Timeout j p) (map callback (timers st))).
  { intros j Hin. apply in_map_iff in Hin. destruct Hin as [t [Ht Hin]].
    specialize (Hts t j p Hin Ht). unfold p in Hts. lia. }
  assert (Harmed : armed (timers st) p = false).
  { destruct (armed (timers st) p) eqn:E; [|reflexivity].
    apply armed_owner in E. destruct E as [j Hj]. now apply Hunarmed in Hj. }
  assert (Hid : forall req, In req (requestQueue st) -> id req <> i).
  { intros req Hin E. apply countId_In in Hin. rewrite E in Hin.
    specialize (Hbound i). lia. }
  assert (Hpending : idIn i (pendingIds (requestQueue st)) = false).
  { destruct (idIn i (pendingIds (requestQueue st))) eqn:E; [|reflexivity].
    apply idIn_In in E. apply in_map_iff in E. destruct E as [req [E Hin]].
    now apply Hid in Hin. }
  split; [|exact Hpending].
  assert (Hold : forall req, In req (requestQueue st) ->
                   id req = i \/ promise req = p -> req = {| id := i; promise := p |}).
  { intros req Hin [E|E]; exfalso.
    - now apply (Hid req).
    - rewrite Forall_forall in Hq. specialize (Hq req Hin). unfold p in E. lia. }
  assert (Hrefused : forall error,
            Tracked i p (withPromises st (S p)) [Reject p error]).
  { intros error. constructor; cbn [promises requestQueue timers withPromises].
    - lia.
    - rewrite settled_one, Nat.eqb_refl. lia.
    - right. split; assumption. }
  assert (Hwaiting : forall q, (forall req, In req q ->
                        id req = i \/ promise req = p ->
                        req = {| id := i; promise := p |}) ->
            Waiting i p (timers st ++ [{| due := (clock st + 30000)%N;
                                          callback := Timeout i p |}]) q).
  { intros q Hentries. constructor.
    - rewrite map_app. apply in_or_app. right. now left.
    - rewrite countArmed_snoc. simpl. rewrite idEq_refl. lia.
    - intros j Hj. rewrite map_app in Hj. apply in_app_or in Hj.
      destruct Hj as [Hj|[Hj|[]]]; [now apply Hunarmed in Hj | simpl in Hj; now inversion Hj].
    - exact Hentries. }
  unfold sendToMCP. cbn [mcpProcess isReady withPromises]. fold p.
  destruct (mcpProcess st) as [child|]; [|apply Hrefused].
  destruct (isReady st); cbn [negb]; [|apply Hrefused].
  cbn [requestQueue withQueue promises]. fold i.
  destruct w as [|error]; cbn [fst snd].
  - constructor; cbn [promises requestQueue timers setTimeout withTimers withQueue
                      withPromises clock].
    + lia.
    + rewrite pendingCount_app, Hnone. unfold pendingCount. simpl.
      rewrite Nat.eqb_refl. reflexivity.
    + left. apply Hwaiting. intros req Hin Hreq.
      apply in_app_or in Hin. destruct Hin as [Hin|[<-|[]]]; [|reflexivity].
      now apply Hold.
  - rewrite (removeById_last _ _ _ Hpending). cbn [fst snd].
    constructor; cbn [promises requestQueue timers setTimeout withTimers withQueue
                      withPromises clock].
    + lia.
    + rewrite settled_one, Nat.eqb_refl, Hnone. reflexivity.
    + left. now apply Hwaiting.
Qed.

Lemma Tracked_from_call
  (before after : list Event) (request : Request) (w : WriteOutcome) :
  let st0 := fst (run JSON_parse initial before) in
  let call := step JSON_parse st0 (Submit request w) in
  unusedWhileArmed JSON_parse (rid request) st0 (Submit request w :: after) = true ->
  Tracked (rid request) (promises st0)
          (fst (run JSON_parse (fst call) after))
          (snd call ++ snd (run JSON_parse (fst call) after))
  /\ idIn (rid request) (pendingIds (requestQueue st0)) = false.
Proof.
  intros st0 call Hfresh.
  cbn [unusedWhileArmed] in Hfresh. apply andb_true_iff in Hfresh.
  destruct Hfresh as [Hcall Hafter].
  rewrite idEq_refl in Hcall. cbn [andb] in Hcall. apply negb_true_iff in Hcall.
  destruct (run_reached before) as [[_ Hq] [Hts Hbound]]. fold st0 in Hq, Hts, Hbound.
  destruct (Tracked_call st0 request w Hq Hts Hbound Hcall) as [H Hpending].
  split; [|exact Hpending].
  now apply Tracked_run.
Qed.

(** X19.  Exactly once, for a call whose identifier is not used again
    while a timeout under it is pending.  Take any run, a call of
    [sendToMCP] in it, and suppose that no timeout under the identifier
    of the request is pending at the call and that, after it, no request
    is submitted under that identifier while a timeout under it is
    pending.  Whatever the other callers do, in the whole run the two
    continuations of the promise of the call are called at most once
    between them, and exactly once as soon as no entry of the promise is
    queued or its timeout is no longer pending. *)
Theorem settles_exactly_once
  (before after : list Event) (request : Request) (w : WriteOutcome) :
  let st0 := fst (run JSON_parse initial before) in
  let p := promises st0 in
  let st := fst (run JSON_parse initial (before ++ Submit request w :: after)) in
  let effects := snd (run JSON_parse initial (before ++ Submit request w :: after)) in
  unusedWhileArmed JSON_parse (rid request) st0 (Submit request w :: after) = true ->
  resolved effects p + rejected effects p <= 1
  /\ (pendingCount (requestQueue st) p = 0 ->
      resolved effects p + rejected effects p = 1)
  /\ (armed (timers st) p = false ->
      resolved effects p + rejected effects p = 1).
Proof.
  intros st0 p st effects Hfresh.
  destruct (Tracked_from_call before after request w Hfresh) as [[_ Honce Hphase] _].
  fold st0 in Honce, Hphase. fold p in Honce, Hphase.
  assert (Hbefore : settled (snd (run JSON_parse initial before)) p = 0).
  { destruct (run_reached []) as [Hq [Hts _]].
    apply (run_settles_born before p initial Hq Hts). apply Nat.le_refl. }
  assert (Est : st = fst (run JSON_parse (fst (step JSON_parse st0 (Submit request w)))
                             after)).
  { unfold st. rewrite run_app. cbn [fst]. now rewrite run_cons. }
  assert (Eeffects : settled effects p
                     = settled (snd (step JSON_parse st0 (Submit request w))
                                ++ snd (run JSON_parse
                                          (fst (step JSON_parse st0 (Submit request w)))
                                          after)) p).
  { unfold effects. rewrite run_app. cbn [snd]. rewrite settled_app, Hbefore.
    fold st0. now rewrite run_cons. }
  rewrite <- Est in Honce, Hphase. rewrite <- Eeffects in Honce.
  unfold settled in Honce.
  split; [lia|]. split; [lia|].
  intros Ha. destruct Hphase as [Hw|[_ Hq]]; [|lia].
  destruct (Waiting_armed _ _ _ _ Hw) as [_ Hp]. congruence.
Qed.

(** X20.  The timeout of a request whose identifier is not used again
    while a timeout under it is pending.  A request accepted by
    [sendToMCP] is queued and its timeout is armed, due 30000 ms later;
    when that timeout runs and neither continuation of the request has
    been called since the submission, the entry of the request, and no
    other, is taken out of the queue and the request is rejected with
    "Request timeout"; if nothing but time has passed since the
    submission, the queue is again the queue before the submission. *)
Theorem timeout_rejects_pending_request
  (before after : list Event) (request : Request) (k : nat) :
  let st0 := fst (run JSON_parse initial before) in
  let p := promises st0 in
  let st1 := fst (step JSON_parse st0 (Submit request WriteOk)) in
  let st2 := fst (run JSON_parse st1 after) in
  let own := {| due := (clock st0 + 30000)%N; callback := Timeout (rid request) p |} in
  let entry := {| id := rid request; promise := p |} in
  unusedWhileArmed JSON_parse (rid request) st0 (Submit request WriteOk :: after) = true ->
  ready st0 = true ->
  settled (snd (run JSON_parse st1 after)) p = 0 ->
  nth_error (timers st2) k = Some own ->
  (due own <= clock st2)%N ->
  requestQueue st1 = requestQueue st0 ++ [entry]
  /\ timers st1 = timers st0 ++ [own]
  /\ snd (fireTimer st2 k) = [Reject p requestTimeout]
  /\ JS.includes (message requestTimeout) "timeout" = true
  /\ (exists l1 l2,
        requestQueue st2 = l1 ++ entry :: l2
        /\ requestQueue (fst (fireTimer st2 k)) = l1 ++ l2)
  /\ (forall delays, after = map Elapse delays ->
        requestQueue (fst (fireTimer st2 k)) = requestQueue st0).
Proof.
  intros st0 p st1 st2 own entry Hfresh Hready Hunsettled Hk Hdue.
  destruct (Tracked_from_call before after request WriteOk Hfresh)
    as [[_ Honce Hphase] Hpending].
  fold st0 in Honce, Hphase, Hpending. fold p in Honce, Hphase.
  fold st1 in Honce, Hphase. fold st2 in Honce, Hphase.
  destruct (sendToMCP_written st0 request Hready) as [child [Hchild Hsend]].
  assert (Hst1 : st1 = fst (sendToMCP st0 request WriteOk)) by reflexivity.
  assert (He1 : snd (step JSON_parse st0 (Submit request WriteOk)) = [Write child request])
    by (cbn [step]; now rewrite Hsend).
  rewrite Hsend in Hst1. cbn [fst] in Hst1. fold p in Hst1.
  rewrite He1, settled_app, Hunsettled in Honce.
  change (settled [Write child request] p) with 0 in Honce.
  (* the request is still in the queue, and is the only entry under its
     identifier *)
  destruct Hphase as [Hw|[_ Hq]]; [|lia].
  destruct (pendingCount_pos (requestQueue st2) p) as [req [Hin Hreq]]; [lia|].
  pose proof (entry_of _ _ _ _ Hw req Hin (or_intror Hreq)) as Hentry.
  fold entry in Hentry. subst req.
  (* its timeout finds it *)
  assert (Hfire : exists l1 l2,
             requestQueue st2 = l1 ++ entry :: l2
             /\ removeById (requestQueue st2) (rid request) = Some (l1 ++ l2)
             /\ fireTimer st2 k =
                (withQueue (withTimers st2 (firstn k (timers st2) ++ skipn (S k) (timers st2)))
                           (l1 ++ l2),
                 [Reject p requestTimeout])).
  { unfold fireTimer. rewrite Hk.
    assert (Hd : (due own <=? clock st2)%N = true) by now apply N.leb_le.
    rewrite Hd. cbn [callback own runCallback]. unfold onTimeout.
    cbn [requestQueue withTimers].
    destruct (removeById (requestQueue st2) (rid request)) as [q'|] eqn:Hrm.
    - pose proof Hrm as Hcut. apply removeById_cut in Hcut.
      destruct Hcut as [l1 [l2 [x [Hq [Hq' Hx]]]]].
      assert (Ex : x = entry).
      { apply (entry_of _ _ _ _ Hw); [|now left]. rewrite Hq. apply in_elt. }
      subst x q'. exists l1, l2. repeat split; assumption.
    - exfalso. rewrite removeById_removeFirst in Hrm.
      destruct (removeFirst (fun r => idEq (id r) (rid request)) (requestQueue st2))
        as [[y rest]|] eqn:Hnone; [discriminate|].
      rewrite removeFirst_none in Hnone. specialize (Hnone entry Hin).
      simpl in Hnone. now rewrite idEq_refl in Hnone. }
  destruct Hfire as [l1 [l2 [Hq [Hrm Hfire]]]].
  split; [now rewrite Hst1|]. split; [now rewrite Hst1|].
  rewrite Hfire. cbn [fst snd requestQueue withQueue].
  split; [reflexivity|]. split; [reflexivity|].
  split; [exists l1, l2; auto|].
  intros delays Hdelays.
  destruct (run_elapse JSON_parse delays st1) as [Hsameq _].
  rewrite <- Hdelays in Hsameq. fold st2 in Hsameq.
  rewrite Hsameq, Hst1 in Hrm. cbn [requestQueue setTimeout withTimers withQueue] in Hrm.
  fold entry in Hrm. unfold entry in Hrm.
  rewrite (removeById_last _ _ _ Hpending) in Hrm. now inversion Hrm.
Qed.

End Calls.

(** * The further properties on worked cases *)

(** The text [a\n\nb c\ntail], cut after [b]. *)
Lemma frame_unframe_case :
  frame Cases.held Cases.chunk = (["a"; ""; "b c"], "tail").
Proof.
  apply (frame_unframe ["a"; ""; "b c"] "tail" Cases.held Cases.chunk).
  - repeat constructor.
  - reflexivity.
  - reflexivity.
Defined.

(** Of two requests pending under the identifier 1, the response resolves
    the one queued first. *)
Lemma first_of_two_is_resolved :
  handleLine Reader.parseJSON Cases.twoUnderOne Scenario.lineNumber
  = ([ {| id := IdString "a"; promise := 0 |}; {| id := IdNumber 1; promise := 2 |} ],
     [Resolve 1 Scenario.responseNumber]).
Proof.
  apply (first_match_is_resolved Reader.parseJSON
           [ {| id := IdString "a"; promise := 0 |} ]
           [ {| id := IdNumber 1; promise := 2 |} ]
           {| id := IdNumber 1; promise := 1 |}
           Scenario.lineNumber Scenario.responseNumber (Some (JNumber 1))).
  - reflexivity.
  - reflexivity.
  - reflexivity.
  - reflexivity.
  - intros req [<-|[]]. reflexivity.
Defined.

(** The caller of "1" is resolved by the line that carries "1". *)
Lemma resolution_is_sound_case :
  exists line req v,
    In line [Scenario.lineOther; Scenario.lineString]
    /\ Reader.parseJSON line = Some Scenario.responseString
    /\ In req (requestQueue Scenario.threePending) /\ promise req = 1
    /\ propId Scenario.responseString = Some v /\ strictEq (id req) v = true.
Proof.
  apply (resolution_is_sound Reader.parseJSON (requestQueue Scenario.threePending)
           [Scenario.lineOther; Scenario.lineString] 1 Scenario.responseString).
  vm_compute. left. reflexivity.
Defined.

(** The responses to 1 and to "1", in either order. *)
Lemma responses_commute_case :
  let q := requestQueue Scenario.threePending in
  fst (dispatch Reader.parseJSON q [Scenario.lineNumber; Scenario.lineString])
  = fst (dispatch Reader.parseJSON q [Scenario.lineString; Scenario.lineNumber])
  /\ resolutions
       (snd (dispatch Reader.parseJSON q [Scenario.lineNumber; Scenario.lineString]))
     = resolutions (snd (handleLine Reader.parseJSON q Scenario.lineNumber))
       ++ resolutions (snd (handleLine Reader.parseJSON q Scenario.lineString))
  /\ resolutions
       (snd (dispatch Reader.parseJSON q [Scenario.lineString; Scenario.lineNumber]))
     = resolutions (snd (handleLine Reader.parseJSON q Scenario.lineString))
       ++ resolutions (snd (handleLine Reader.parseJSON q Scenario.lineNumber)).
Proof.
  apply (responses_commute Reader.parseJSON (requestQueue Scenario.threePending)
           Scenario.lineNumber Scenario.lineString).
  intros req [<-|[<-|[<-|[]]]]; vm_compute; intros H; first [reflexivity | discriminate H].
Defined.

(** The child of a relay with three pending requests dies. *)
Lemma closed_until_marker_case :
  let st' := fst (run Reader.parseJSON
                    (fst (step Reader.parseJSON Scenario.threePending (Close None)))
                    Cases.afterClose) in
  isReady st' = false
  /\ postMcp st' Scenario.requestNumber WriteOk = (st', [], Some replyNotReady)
  /\ snd (sendToMCP st' Scenario.requestNumber WriteOk) = [Reject (promises st') notReady]
  /\ requestQueue (fst (sendToMCP st' Scenario.requestNumber WriteOk)) = requestQueue st'.
Proof.
  exact (closed_until_marker Reader.parseJSON Scenario.threePending 0 None
           Cases.afterClose Scenario.requestNumber WriteOk eq_refl eq_refl).
Defined.

(** The restart one second after the exit of child 0. *)
Lemma restart_cycle_case :
  run Reader.parseJSON Scenario.threePending
      [Close (Some 1%Z); Elapse 1000; TimerFires (List.length (timers Scenario.threePending))]
  = ({| mcpProcess := Some 1; requestQueue := []; isReady := false; buffer := "";
        timers := timers Scenario.threePending; clock := 13000; promises := 3 |},
     [Reject 0 processDied; Reject 1 processDied; Reject 2 processDied; Spawn 1]).
Proof.
  exact (restart_cycle Reader.parseJSON Scenario.threePending 0 (Some 1%Z) 1000 eq_refl).
Defined.

(** Two terminations and a second [listening]: two children spawned, one
    restart pending. *)
Lemma every_close_respawns_once_case :
  let st' := fst (run Reader.parseJSON Scenario.starting Cases.twoCloses) in
  let effects := snd (run Reader.parseJSON Scenario.starting Cases.twoCloses) in
  mcpProcess st' = Some (0 + List.length (filter isSpawn effects))
  /\ List.length (filter isSpawn effects) + List.length (filter isRestart (timers st'))
     = List.length (filter isRestart (timers Scenario.starting))
       + List.length (filter startsChild Cases.twoCloses).
Proof.
  exact (every_close_respawns_once Reader.parseJSON Cases.twoCloses
           Scenario.starting 0 eq_refl).
Defined.

(** The request "a" is rejected with "Request timeout" after thirty
    seconds. *)
Lemma timeout_takes_thirty_seconds_case :
  (30000 <= elapsed Cases.untilTimeout)%N.
Proof.
  apply (timeout_takes_thirty_seconds Reader.parseJSON Scenario.boot
           Cases.untilTimeout Scenario.requestA WriteOk).
  vm_compute. left. reflexivity.
Defined.

(** The request under 1 is answered while the one under "1" waits, and
    its caller is sent the response under 1. *)
Lemma caller_gets_own_id_case :
  afterAwait 0
    (snd (run Reader.parseJSON initial
            (Scenario.boot ++
             [ Submit Scenario.requestNumber WriteOk;
               Submit Scenario.requestString WriteOk;
               StdoutData (Scenario.lineNumber ++ Scenario.eol) ])))
  = Some {| statusCode := 200; payload := Scenario.responseNumber |}
  /\ exists v, propId Scenario.responseNumber = Some v
               /\ strictEq (rid Scenario.requestNumber) v = true.
Proof.
  split; [vm_compute; reflexivity|].
  apply (proj2 (caller_gets_own_id Reader.parseJSON Scenario.boot
                  [ Submit Scenario.requestString WriteOk;
                    StdoutData (Scenario.lineNumber ++ Scenario.eol) ]
                  Scenario.requestNumber WriteOk)
               {| statusCode := 200; payload := Scenario.responseNumber |});
    vm_compute; reflexivity.
Defined.

(** The lines written in the run of three requests under distinct
    identifiers. *)
Lemma writes_follow_submissions_case :
  In (Submit Scenario.requestString WriteOk) Scenario.distinctIds
  /\ In (Spawn 0) (snd (run Reader.parseJSON initial Scenario.distinctIds)).
Proof.
  apply (writes_follow_submissions Reader.parseJSON Scenario.distinctIds 0
           Scenario.requestString).
  vm_compute. do 3 right. left. reflexivity.
Defined.

(** The request under "a" beside a reuse of the identifier 1: it is
    rejected once, by its timeout, while under 1 the first request has
    both continuations called and the second has none. *)
Lemma call_beside_reuse_settles_once :
  let effects :=
    snd (run Reader.parseJSON initial
           (Cases.reuseOfOne ++ Submit Scenario.requestA WriteOk :: Cases.timeoutsRun)) in
  resolved effects 2 + rejected effects 2 = 1
  /\ resolved effects 0 = 1 /\ rejected effects 0 = 1
  /\ resolved effects 1 + rejected effects 1 = 0.
Proof.
  destruct (settles_exactly_once Reader.parseJSON Cases.reuseOfOne Cases.timeoutsRun
              Scenario.requestA WriteOk eq_refl) as [_ [_ Hrun]].
  split; [exact (Hrun eq_refl)|].
  vm_compute. repeat split.
Defined.

(** The request [{id:"a", op:"ping"}] is submitted beside the reuse of the
    identifier 1 and nothing arrives for thirty seconds. *)
Lemma timeout_rejects_ping :
  let st0 := fst (run Reader.parseJSON initial Cases.reuseOfOne) in
  let st1 := fst (step Reader.parseJSON st0 (Submit Scenario.requestA WriteOk)) in
  let st2 := fst (run Reader.parseJSON st1 [Elapse 30000]) in
  requestQueue st1 = [ {| id := IdNumber 1; promise := 1 |};
                       {| id := IdString "a"; promise := 2 |} ]
  /\ nth_error (timers st1) 2
     = Some {| due := 30000; callback := Timeout (IdString "a") 2 |}
  /\ snd (fireTimer st2 2) = [Reject 2 requestTimeout]
  /\ requestQueue (fst (fireTimer st2 2)) = requestQueue st0.
Proof.
  assert (Hdue : (30000 <= 30000)%N) by apply N.le_refl.
  destruct (timeout_rejects_pending_request Reader.parseJSON
              Cases.reuseOfOne [Elapse 30000] Scenario.requestA 2
              eq_refl eq_refl eq_refl eq_refl Hdue)
    as [Hq [_ [Hfire [_ [_ Hback]]]]].
  split; [exact Hq | split; [reflexivity | split; [exact Hfire|]]].
  exact (Hback [30000%N] eq_refl).
Defined.
